(** * ExaTN runtime core: tensor-operation DAG and contraction-sequence planner

    A shallow embedding of
    - [DirectedBoostGraph] (directed_boost_graph.cpp / .hpp), the DAG of
      tensor operations together with the hazard tracker it consults,
    - [ContractionSeqOptimizerHeuro::determineContractionSequence]
      (contraction_seq_optimizer_heuro.cpp), the bounded-beam planner, and
    - [Subspace] with its uniform splitting (spaces.cpp),
    followed by the properties established about them. *)

From Stdlib Require Import QArith Qround.
From stdpp Require Import gmap list strings pretty relations.

Open Scope nat_scope.

(** ** Scalar types *)

(** [double]: exact rationals stand for the IEEE doubles of the source;
    rounding, infinities and NaN are outside the model. *)
Abbreviation double := Q (only parsing).

(** [VertexIdType] is [std::size_t], the index of a vertex in the vertex
    vector of the adjacency list. *)
Abbreviation VertexIdType := nat (only parsing).

(** [TensorHashType]: the identity of a tensor. *)
Abbreviation TensorHashType := N (only parsing).

(** ** Tensors and tensor operations (tensor_operation.hpp) *)

Record Tensor := mkTensor { getTensorHash : TensorHashType }.

(** A tensor operation with all of its operands set: position 0 is the
    output, the later positions are inputs. *)
Record TensorOperation := mkTensorOperation {
  opcode_ : N;
  operands_ : list Tensor
}.

Definition getNumOperands (op : TensorOperation) : nat :=
  length (operands_ op).

(** [getTensorOperand] returns a null pointer ([None]) for an operand that
    is not there. *)
Definition getTensorOperand (op : TensorOperation) (op_num : nat)
  : option Tensor :=
  operands_ op !! op_num.

(** ** TensorExecState *)

(** Modelled from the spec: the class TensorExecState (tensor_exec_state.hpp
    and .cpp) is not among the sources. The specification describes it as
    "two mappings keyed by tensor identity": [writer] holds the "single
    vertex id that has T as its output" while the tensor is in a write
    epoch, [readers] the vertices that read it in the current read
    epoch. *)
Record TensorExecState := mkTensorExecState {
  writer : gmap N nat;
  readers : gmap N (list nat)
}.

Definition exec_state_empty : TensorExecState :=
  {| writer := ∅; readers := ∅ |}.

(** Modelled from the spec: "Sets writer[T] := v; clears readers[T]." *)
Definition registerTensorWrite (es : TensorExecState) (T : Tensor)
    (v : VertexIdType) : TensorExecState :=
  {| writer := <[getTensorHash T := v]> (writer es);
     readers := delete (getTensorHash T) (readers es) |}.

(** [readers[T]] is a set kept in registration order. *)
Definition add_reader (v : VertexIdType) (l : list nat) : list nat :=
  if bool_decide (v ∈ l) then l else l ++ [v].

(** Modelled from the spec: "Adds v to readers[T]." A read opens or
    continues a read epoch: the epoch of a tensor tells "whether a tensor's
    most recent use was a write (single producer) or a set of reads (many
    consumers)" (glossary), so the writer entry ends with the first read
    after the write. A later writer then meets the readers, as in the
    scenario of the write-after-read chain: after "A reading X (X
    previously written by a prior op W)" and "B reading X", the
    "neighbors" of "C writing X" "must contain at least A and B". *)
Definition registerTensorRead (es : TensorExecState) (T : Tensor)
    (v : VertexIdType) : TensorExecState :=
  {| writer := delete (getTensorHash T) (writer es);
     readers := <[getTensorHash T :=
                    add_reader v (default [] (readers es !! getTensorHash T))]>
                  (readers es) |}.

(** Modelled from the spec: "If writer[T] exists, returns ({writer},
    epoch = -1) (write-epoch). Else returns (readers[T], epoch >= 0)
    (read-epoch). Returns the empty case as absent."  The first component
    is the returned pointer ([None] is the null pointer), the second the
    value stored through the [epoch] out-parameter. *)
Definition getTensorEpochNodes (es : TensorExecState) (T : Tensor)
  : option (list nat) * Z :=
  match writer es !! getTensorHash T with
  | Some w => (Some [w], (-1)%Z)
  | None =>
      match readers es !! getTensorHash T with
      | Some (r :: rs) => (Some (r :: rs), Z.of_nat (length (r :: rs)))
      | _ => (None, 0%Z)
      end
  end.

(** ** The Boost adjacency list (directed_boost_graph.hpp)

    [adjacency_list<vecS, vecS, directedS, DirectedBoostVertex,
    property<edge_weight_t, double>>]: a vector of vertices, each with the
    vector of its out-edges in insertion order; an out-edge is its target
    and its weight. *)

(** Modelled from the spec: TensorOpNode (tensor_graph.hpp) is not among the
    sources; it "wraps a shared handle to a TensorOperation" and "carries
    the vertex id assigned on insertion". *)
Record TensorOpNode := mkTensorOpNode {
  node_op : TensorOperation;
  node_id : VertexIdType
}.

Definition setId (n : TensorOpNode) (vid : VertexIdType) : TensorOpNode :=
  {| node_op := node_op n; node_id := vid |}.

Record DirectedBoostVertex := mkVertex {
  m_out_edges : list (nat * Q);
  properties : option TensorOpNode
}.

Abbreviation d_adj_list := (list DirectedBoostVertex) (only parsing).

Definition empty_vertex : DirectedBoostVertex :=
  {| m_out_edges := []; properties := None |}.

(** The weight of an edge created by [add_edge(u, v, g)] without a property
    argument: [property<edge_weight_t, double>] value-initialises its
    [double]. *)
Definition default_edge_weight : Q := 0%Q.

(** [add_vertex(g)]: appends a vertex, returns its index. *)
Definition add_vertex (g : d_adj_list) : nat * d_adj_list :=
  (length g, g ++ [empty_vertex]).

(** [g.resize(n)] on the vertex vector, growing only. *)
Definition grow_to (n : nat) (g : d_adj_list) : d_adj_list :=
  g ++ replicate (n - length g) empty_vertex.

Definition push_out_edge (v : nat) (w : Q) (sv : DirectedBoostVertex)
  : DirectedBoostVertex :=
  {| m_out_edges := m_out_edges sv ++ [(v, w)]; properties := properties sv |}.

(** [add_edge(u, v, p, g)] for a [vecS] vertex list: the vertex vector is
    first grown to hold [max(u, v)], then the edge is pushed at the back of
    the out-edges of [u]. *)
Definition add_edge_w (u v : nat) (w : Q) (g : d_adj_list) : d_adj_list :=
  alter (push_out_edge v w) u (grow_to (S (u `max` v)) g).

Definition add_edge (u v : nat) (g : d_adj_list) : d_adj_list :=
  add_edge_w u v default_edge_weight g.

(** [out_edges(u, g)] and [adjacent_vertices(u, g)]: the out-edges of [u]
    and their targets, in order. An id out of range is a contract violation
    of the caller; the model answers as for a vertex without edges. *)
Definition out_edges (u : nat) (g : d_adj_list) : list (nat * Q) :=
  match g !! u with
  | Some sv => m_out_edges sv
  | None => []
  end.

Definition adjacent_vertices (u : nat) (g : d_adj_list) : list nat :=
  (out_edges u g).*1.

(** [edge(u, v, g).second]: is there an out-edge of [u] with target [v]. *)
Definition edge (u v : nat) (g : d_adj_list) : bool :=
  bool_decide (v ∈ adjacent_vertices u g).

Definition num_vertices (g : d_adj_list) : nat := length g.

Definition num_edges (g : d_adj_list) : nat :=
  sum_list (map (λ sv, length (m_out_edges sv)) g).

(** ** The graph object and its mutex *)

(** Modelled from the spec: [lock()] and [unlock()] belong to the base class
    TensorGraph (tensor_graph.hpp), which is not among the sources; they
    acquire and release "a single coarse mutex per graph". The model keeps
    the sequence of acquisitions and releases performed on that mutex. *)
Inductive LockEvent := Acquire | Release.

Record DirectedBoostGraph := mkGraph {
  dag_ : list DirectedBoostVertex;
  exec_state_ : TensorExecState;
  mtx_ : list LockEvent
}.

Definition set_dag (f : d_adj_list → d_adj_list) (g : DirectedBoostGraph)
  : DirectedBoostGraph :=
  {| dag_ := f (dag_ g); exec_state_ := exec_state_ g; mtx_ := mtx_ g |}.

Definition set_exec_state (f : TensorExecState → TensorExecState)
    (g : DirectedBoostGraph) : DirectedBoostGraph :=
  {| dag_ := dag_ g; exec_state_ := f (exec_state_ g); mtx_ := mtx_ g |}.

Definition lock (g : DirectedBoostGraph) : DirectedBoostGraph :=
  {| dag_ := dag_ g; exec_state_ := exec_state_ g;
     mtx_ := mtx_ g ++ [Acquire] |}.

Definition unlock (g : DirectedBoostGraph) : DirectedBoostGraph :=
  {| dag_ := dag_ g; exec_state_ := exec_state_ g;
     mtx_ := mtx_ g ++ [Release] |}.

(** The graph made by the constructor, and left by [clear()]. *)
Definition empty_graph : DirectedBoostGraph :=
  {| dag_ := []; exec_state_ := exec_state_empty; mtx_ := [] |}.

(** ** DirectedBoostGraph: the public operations (directed_boost_graph.cpp) *)

Definition addDependency (dependent dependee : VertexIdType)
    (g : DirectedBoostGraph) : DirectedBoostGraph :=
  let g := lock g in
  let g := set_dag (add_edge dependent dependee) g in
  unlock g.

(** [for(const auto & node_id: *nodes) addDependency(vid,node_id);] *)
Definition addDependencies (vid : VertexIdType) (nodes : list nat)
    (g : DirectedBoostGraph) : DirectedBoostGraph :=
  foldl (λ g node_id, addDependency vid node_id g) g nodes.

(** The loop over the input operands of [addOperation]; dereferencing a
    null [nodes] gives [None]. *)
Fixpoint addOperation_inputs (vid : VertexIdType) (inputs : list Tensor)
    (g : DirectedBoostGraph) : option DirectedBoostGraph :=
  match inputs with
  | [] => Some g
  | tensor :: inputs =>
      let '(nodes, epoch) := getTensorEpochNodes (exec_state_ g) tensor in
      g ← (if (epoch <? 0)%Z
           then nodes ← nodes; Some (addDependencies vid nodes g)
           else Some g);
      let g := set_exec_state (λ es, registerTensorRead es tensor vid) g in
      addOperation_inputs vid inputs g
  end.

(** [addOperation]: the new vertex id and the graph after the call; [None]
    when a null pointer is dereferenced. *)
Definition addOperation (op : TensorOperation) (g : DirectedBoostGraph)
  : option (VertexIdType * DirectedBoostGraph) :=
  let g := lock g in
  let '(vid, dag) := add_vertex (dag_ g) in
  let g := set_dag (λ _, dag) g in
  let node := setId (mkTensorOpNode op 0) vid in
  let g := set_dag (alter (λ sv,
             {| m_out_edges := m_out_edges sv; properties := Some node |})
             vid) g in
  output_tensor ← getTensorOperand op 0;
  let '(nodes, epoch) := getTensorEpochNodes (exec_state_ g) output_tensor in
  let g := match nodes with
           | Some nodes => addDependencies vid nodes g
           | None => g
           end in
  let g := set_exec_state (λ es, registerTensorWrite es output_tensor vid) g in
  g ← addOperation_inputs vid (drop 1 (operands_ op)) g;
  Some (vid, unlock g).

Definition dependencyExists (vertex_id1 vertex_id2 : VertexIdType)
    (g : DirectedBoostGraph) : bool * DirectedBoostGraph :=
  let g := lock g in
  let p := edge vertex_id1 vertex_id2 (dag_ g) in
  let g := unlock g in
  (p, g).

Definition getNodeProperties (vertex_id : VertexIdType)
    (g : DirectedBoostGraph) : option TensorOpNode * DirectedBoostGraph :=
  let g := lock g in
  let node_properties := sv ← dag_ g !! vertex_id; properties sv in
  let g := unlock g in
  (node_properties, g).

Definition getNeighborList (vertex_id : VertexIdType)
    (g : DirectedBoostGraph) : list nat * DirectedBoostGraph :=
  let l := [] in
  let g := lock g in
  let l := l ++ adjacent_vertices vertex_id (dag_ g) in
  let g := unlock g in
  (l, g).

Definition getNodeDegree (vertex_id : VertexIdType)
    (g : DirectedBoostGraph) : nat * DirectedBoostGraph :=
  let g := lock g in
  let '(l, g) := getNeighborList vertex_id g in
  let ns := length l in
  let g := unlock g in
  (ns, g).

Definition getNumNodes (g : DirectedBoostGraph) : nat * DirectedBoostGraph :=
  let g := lock g in
  let n := num_vertices (dag_ g) in
  let g := unlock g in
  (n, g).

Definition getNumDependencies (g : DirectedBoostGraph)
  : nat * DirectedBoostGraph :=
  let g := lock g in
  let m := num_edges (dag_ g) in
  let g := unlock g in
  (m, g).

(** [printIt]: the lines written to the standard output, one entry per
    node with the list of its dependencies. *)
Fixpoint printIt_nodes (num_nodes : nat) (i : nat) (g : DirectedBoostGraph)
  : list (nat * list nat) * DirectedBoostGraph :=
  match num_nodes with
  | 0 => ([], g)
  | S k =>
      let '(deps, g) := getNeighborList i g in
      let '(out, g) := printIt_nodes k (S i) g in
      ((i, deps) :: out, g)
  end.

Definition printIt (g : DirectedBoostGraph)
  : list (nat * list nat) * DirectedBoostGraph :=
  let g := lock g in
  let num_nodes := num_vertices (dag_ g) in
  let '(out, g) := printIt_nodes num_nodes 0 g in
  let g := unlock g in
  (out, g).

Definition clear (g : DirectedBoostGraph) : DirectedBoostGraph :=
  let g := lock g in
  let g := set_dag (λ _, []) g in
  let g := set_exec_state (λ _, exec_state_empty) g in
  unlock g.

(** The three operations defined in the class body
    (directed_boost_graph.hpp): they read nothing of the graph and do not
    touch the mutex. [clone] gives a new, empty graph object. *)
Definition name (g : DirectedBoostGraph) : string * DirectedBoostGraph :=
  ("boost-digraph", g).

Definition description (g : DirectedBoostGraph)
  : string * DirectedBoostGraph :=
  ("Directed acyclic graph of tensor operations", g).

Definition clone (g : DirectedBoostGraph)
  : DirectedBoostGraph * DirectedBoostGraph :=
  (empty_graph, g).

(** ** The dependency edges of an operation, as the specification words them *)

(** Step 1, the output operand: "add an edge to every node returned". *)
Definition output_hazards (es : TensorExecState) (T0 : Tensor) : list nat :=
  default [] (getTensorEpochNodes es T0).1.

(** Step 2, one input operand: "If it is a write epoch (epoch < 0), add an
    edge to the (single) writer node. If it is a read epoch, add no
    edges." *)
Definition input_hazard (es : TensorExecState) (Ti : Tensor) : list nat :=
  if ((getTensorEpochNodes es Ti).2 <? 0)%Z
  then option_list (writer es !! getTensorHash Ti)
  else [].

(** Step 2 over the inputs in order: "Then registerTensorRead(Ti, v)". *)
Fixpoint input_hazards (es : TensorExecState) (v : VertexIdType)
    (inputs : list Tensor) : list nat :=
  match inputs with
  | [] => []
  | Ti :: inputs =>
      input_hazard es Ti ++ input_hazards (registerTensorRead es Ti v) v inputs
  end.

(** The registrations of one operation: the output as written by [v], then
    each input as read by [v]. *)
Definition registered (es : TensorExecState) (v : VertexIdType)
    (T0 : Tensor) (inputs : list Tensor) : TensorExecState :=
  foldl (λ es Ti, registerTensorRead es Ti v) (registerTensorWrite es T0 v)
    inputs.

(** ** Epochs, as the glossary words them *)

(** One use of a tensor by a vertex. *)
Inductive Use := Wrote (v : VertexIdType) | ReadBy (v : VertexIdType).

(** The uses of one tensor among the uses [hist] of all tensors (oldest
    first), the most recent first. *)
Definition uses_of (h : TensorHashType) (hist : list (TensorHashType * Use))
  : list Use :=
  (filter (λ hu, hu.1 = h) (reverse hist)).*2.

(** "a set of reads (many consumers)": the vertices that read the tensor
    since its last write, each once, in the order of their first read. *)
Fixpoint epoch_readers (uses : list Use) : list nat :=
  match uses with
  | ReadBy v :: uses => add_reader v (epoch_readers uses)
  | _ => []
  end.

(** "a write (single producer)": the vertex of the most recent use, when
    that use is a write. *)
Definition epoch_writer (uses : list Use) : option nat :=
  match uses with
  | Wrote w :: _ => Some w
  | _ => None
  end.

(** The vertices of the epoch of a tensor with the uses [uses]: the last
    writer when the most recent use is a write, the readers since the last
    write when it is a read, none for a tensor never used. *)
Definition epoch_nodes (uses : list Use) : list nat :=
  match uses with
  | [] => []
  | Wrote w :: _ => [w]
  | ReadBy _ :: _ => epoch_readers uses
  end.

(** The uses one operation registers, in the order [addOperation]
    registers them. *)
Definition uses_of_operation (v : VertexIdType) (T0 : Tensor)
    (inputs : list Tensor) : list (TensorHashType * Use) :=
  (getTensorHash T0, Wrote v) ::
  map (λ Ti, (getTensorHash Ti, ReadBy v)) inputs.

(** The hazard tracker after the uses [hist]. *)
Definition record_use (es : TensorExecState) (hu : TensorHashType * Use)
  : TensorExecState :=
  match hu.2 with
  | Wrote v => registerTensorWrite es (mkTensor hu.1) v
  | ReadBy v => registerTensorRead es (mkTensor hu.1) v
  end.

Definition recorded (hist : list (TensorHashType * Use)) : TensorExecState :=
  foldl record_use exec_state_empty hist.

(** Write after write and write after read: a new writer of [T0] depends
    on "the prior write epoch's single node" or on "the prior read epoch's
    nodes". *)
Definition waw_war_hazards (hist : list (TensorHashType * Use))
    (T0 : Tensor) : list nat :=
  epoch_nodes (uses_of (getTensorHash T0) hist).

(** Read after write: "a new reader depends only on the prior write-epoch
    node", input by input, each input being registered as read by [v]
    before the next is looked at. *)
Fixpoint raw_hazards (hist : list (TensorHashType * Use)) (v : VertexIdType)
    (inputs : list Tensor) : list nat :=
  match inputs with
  | [] => []
  | Ti :: inputs =>
      option_list (epoch_writer (uses_of (getTensorHash Ti) hist)) ++
      raw_hazards (hist ++ [(getTensorHash Ti, ReadBy v)]) v inputs
  end.

(** An edge made without an explicit weight. *)
Definition plain_edge (target : nat) : nat * Q := (target, default_edge_weight).

(** ** Acquisitions and releases of the mutex *)

(** The events an operation added to the record of the mutex. *)
Definition events_since (g g' : DirectedBoostGraph) : list LockEvent :=
  drop (length (mtx_ g)) (mtx_ g').

(** The largest number of acquisitions held at once while [evs] unfolds,
    starting with [held] of them. *)
Fixpoint peak_held (held : nat) (evs : list LockEvent) : nat :=
  match evs with
  | [] => held
  | Acquire :: evs => held `max` peak_held (S held) evs
  | Release :: evs => held `max` peak_held (pred held) evs
  end.

(** The number of acquisitions still held after [evs]; [None] when a
    release finds the mutex free. *)
Fixpoint held_after (held : nat) (evs : list LockEvent) : option nat :=
  match evs with
  | [] => Some held
  | Acquire :: evs => held_after (S held) evs
  | Release :: evs =>
      match held with
      | 0 => None
      | S h => held_after h evs
      end
  end.

(** One complete acquisition by a public operation called from another. *)
Definition inner_call : list LockEvent := [Acquire; Release].

(** The events of an operation that takes the mutex on entry, makes [k]
    calls of public operations while holding it, and releases it when it
    returns. *)
Definition locked_with_calls (k : nat) : list LockEvent :=
  Acquire :: concat (replicate k inner_call) ++ [Release].

(** ** Graphs made by [addOperation] alone *)

Inductive built_by_addOperation : DirectedBoostGraph → Prop :=
  | built_empty : built_by_addOperation empty_graph
  | built_add op g v g' :
      built_by_addOperation g →
      addOperation op g = Some (v, g') →
      built_by_addOperation g'.

(** An in-place update: the tensor [X] is the output and the only input. *)
Definition in_place_update (X : Tensor) : TensorOperation :=
  mkTensorOperation 0 [X; X].

(** The hazard tracker names only vertices below [n]. *)
Definition es_bounded (n : nat) (es : TensorExecState) : Prop :=
  (∀ h w, writer es !! h = Some w → w < n) ∧
  (∀ h l r, readers es !! h = Some l → r ∈ l → r < n).

(** The hazard tracker names only vertices of the graph, and no edge points
    to a vertex younger than its source. *)
Definition graph_ordered (g : DirectedBoostGraph) : Prop :=
  es_bounded (length (dag_ g)) (exec_state_ g) ∧
  ∀ u t, t ∈ adjacent_vertices u (dag_ g) → t ≤ u.

(** ** Sequences of operations on the graph *)

(** A stream of operations submitted one after the other: the vertex ids
    returned and the graph left. *)
Fixpoint addOperations (ops : list TensorOperation) (g : DirectedBoostGraph)
  : option (list nat * DirectedBoostGraph) :=
  match ops with
  | [] => Some ([], g)
  | op :: ops =>
      '(v, g) ← addOperation op g;
      '(vs, g) ← addOperations ops g;
      Some (v :: vs, g)
  end.

(** The graph left by a stream of operations on a new graph. *)
Definition graph_after (ops : list TensorOperation) : DirectedBoostGraph :=
  match addOperations ops empty_graph with
  | Some (_, g) => g
  | None => empty_graph
  end.

(** The uses a stream of operations registers when its first operation
    becomes the vertex [v]. *)
Fixpoint uses_of_operations (v : VertexIdType) (ops : list TensorOperation)
  : list (TensorHashType * Use) :=
  match ops with
  | [] => []
  | op :: ops =>
      match operands_ op with
      | T0 :: inputs => uses_of_operation v T0 inputs
      | [] => []
      end ++ uses_of_operations (S v) ops
  end.

(** The write-after-read chain: W writes X; A and B read X, into Y and
    into Z; then C writes X. *)
Definition war_chain : list TensorOperation :=
  [mkTensorOperation 0 [mkTensor 1];
   mkTensorOperation 0 [mkTensor 2; mkTensor 1];
   mkTensorOperation 0 [mkTensor 3; mkTensor 1]].

Definition war_chain_writer : TensorOperation :=
  mkTensorOperation 0 [mkTensor 1].

(** A graph with the single vertex 0. *)
Definition single_vertex_graph : DirectedBoostGraph :=
  graph_after [mkTensorOperation 0 [mkTensor 1]].
(** ** Shortest paths (directed_boost_graph.cpp, computeShortestPath)

    [computeShortestPath] calls Boost's [dijkstra_shortest_paths] with a
    predecessor map over [std::vector<VertexIdType>] and a distance map over
    [std::vector<std::size_t>]; the weight map is the default one, the
    [edge_weight] property of the graph. Distances are therefore [size_t]
    values: [closed_plus<size_t>] converts each weight when it adds it. *)

Definition size_t_modulus : N := 2 ^ 64.

(** [numeric_limits<size_t>::max()], the distance of a vertex not reached. *)
Definition distance_inf : N := size_t_modulus - 1.

(** Conversion of a nonnegative [double] weight to [size_t]: truncation. *)
Definition size_t_of_double (w : Q) : N :=
  (Z.to_N (Qfloor w) mod size_t_modulus)%N.

(** [static_cast<double>(di)]: the nearest [double], ties to even. A
    [double] has 53 significant bits: the conversion is exact for a value
    of at most 53 bits and rounds a longer one to a multiple of the
    spacing [ulp] of the doubles around it. *)
Definition double_of_size_t (di : N) : Q :=
  let e := N.log2 di in
  if (e <? 53)%N then inject_Z (Z.of_N di)
  else
    let ulp := (2 ^ (e - 52))%N in
    let q := (di `div` ulp)%N in
    let r := (di `mod` ulp)%N in
    let q := if (2 * r <? ulp)%N then q
             else if (ulp <? 2 * r)%N then (q + 1)%N
             else if N.even q then q else (q + 1)%N in
    inject_Z (Z.of_N (q * ulp)).

(** The [double] pushed for a vertex not reached: [size_t]'s maximum
    [2^64 - 1] is not a [double] and rounds to [2^64]. *)
Definition unreached : Q := inject_Z (Z.of_N size_t_modulus).

(** [closed_plus<size_t>]: the sum, with [inf] absorbing. *)
Definition closed_plus (a b : N) : N :=
  if (a =? distance_inf)%N then distance_inf
  else if (b =? distance_inf)%N then distance_inf
  else ((a + b) mod size_t_modulus)%N.

Inductive Color := White | Gray | Black.

Global Instance Color_inhabited : Inhabited Color := populate White.

Global Instance Color_eq_dec : EqDecision Color.
Proof. solve_decision. Defined.

(** The maps of one run and the queue: the discovered (gray) vertices
    that wait to be examined. *)
Record DijkstraState := mkDijkstraState {
  dist : list N;
  predecessor : list nat;
  color : list Color;
  queue : list nat
}.

(** The least distance among the queued vertices [v :: q]. *)
Fixpoint least_distance (d : list N) (v : nat) (q : list nat) : N :=
  match q with
  | [] => d !!! v
  | u :: q => N.min (d !!! v) (least_distance d u q)
  end.

Fixpoint queue_remove (u : nat) (q : list nat) : list nat :=
  match q with
  | [] => []
  | v :: q => if decide (v = u) then q else v :: queue_remove u q
  end.

(** [relax_target(e, g, w, p, d, combine, compare)]: the distance and the
    predecessor of the target change only when the path through [u] is
    strictly shorter. *)
Definition relax_target (u v : nat) (w : Q) (st : DijkstraState)
  : bool * DijkstraState :=
  let d_u := dist st !!! u in
  let d_v := dist st !!! v in
  let w_e := size_t_of_double w in
  if (closed_plus d_u w_e <? d_v)%N
  then (true, {| dist := <[v := closed_plus d_u w_e]> (dist st);
                 predecessor := <[v := u]> (predecessor st);
                 color := color st; queue := queue st |})
  else (false, st).

(** One out-edge of the vertex [u] under examination: [tree_edge] for a
    white target, which is then discovered and queued; [gray_target] for a
    queued one; nothing for a black one. *)
Definition examine_edge (u : nat) (st : DijkstraState) (e : nat * Q)
  : DijkstraState :=
  let '(v, w) := e in
  match color st !!! v with
  | White =>
      let st := (relax_target u v w st).2 in
      {| dist := dist st; predecessor := predecessor st;
         color := <[v := Gray]> (color st); queue := queue st ++ [v] |}
  | Gray => (relax_target u v w st).2
  | Black => st
  end.

(** One turn of the loop of [breadth_first_visit]: the vertex [u] leaves
    the queue, its out-edges are examined in order, and it is finished
    (black). *)
Definition examine_vertex (g : d_adj_list) (u : nat) (st : DijkstraState)
  : DijkstraState :=
  let st := {| dist := dist st; predecessor := predecessor st;
               color := color st; queue := queue_remove u (queue st) |} in
  let st := foldl (examine_edge u) st (out_edges u g) in
  {| dist := dist st; predecessor := predecessor st;
     color := <[u := Black]> (color st); queue := queue st |}.

Section ShortestPaths.

(** The queue of the search is Boost's [d_ary_heap_indirect], keyed by the
    distance map: its top is a queued vertex of least distance. Which one
    it is when several queued vertices have the least distance depends on
    the layout of the heap and is not settled by the sources: the model
    takes the choice from [tie], which is given the number of the turn and
    the queued vertices of least distance and names one of them by its
    position, counted modulo their number. Every order in which a heap can
    hand out vertices of equal distance is the order of some [tie]. *)
Variable tie : nat → list nat → nat.

Definition queue_top (turn : nat) (d : list N) (q : list nat) : option nat :=
  match q with
  | [] => None
  | v :: q' =>
      let least := filter (λ u, d !!! u = least_distance d v q') q in
      least !! (tie turn least `mod` length least)
  end.

(** The loop of [breadth_first_visit] over the queue, one turn per vertex
    taken from it; every vertex is queued at most once, so [fuel] equal to
    the number of vertices is enough. *)
Fixpoint dijkstra_visit (fuel turn : nat) (g : d_adj_list)
    (st : DijkstraState) : option DijkstraState :=
  match queue_top turn (dist st) (queue st) with
  | None => Some st
  | Some u =>
      match fuel with
      | 0 => None
      | S fuel => dijkstra_visit fuel (S turn) g (examine_vertex g u st)
      end
  end.

(** [dijkstra_shortest_paths(g, s, predecessor_map(p).distance_map(d))]:
    every distance starts at [inf], every predecessor at the vertex itself,
    the source at distance zero. A source out of range is a contract
    violation of the caller ([None]). *)
Definition dijkstra_shortest_paths (g : d_adj_list) (s : nat)
  : option (list N * list nat) :=
  let n := num_vertices g in
  if decide (s < n) then
    st ← dijkstra_visit n 0 g
           {| dist := <[s := 0%N]> (replicate n distance_inf);
              predecessor := seq 0 n;
              color := <[s := Gray]> (replicate n White);
              queue := [s] |};
    Some (dist st, predecessor st)
  else None.

(** [computeShortestPath]: the results are pushed at the back of the two
    vectors of the caller, one entry per vertex in the order of the vertex
    ids. *)
Definition computeShortestPath (startIndex : VertexIdType)
    (distances : list Q) (paths : list nat) (g : DirectedBoostGraph)
  : option (list Q * list nat * DirectedBoostGraph) :=
  let g := lock g in
  '(d, p) ← dijkstra_shortest_paths (dag_ g) startIndex;
  let distances := distances ++ map double_of_size_t d in
  let paths := paths ++ p in
  let g := unlock g in
  Some (distances, paths, g).

End ShortestPaths.

(** Two ways of a heap with vertices of equal distance: the one queued
    first, and the one queued last. *)
Definition first_queued : nat → list nat → nat := λ _ _, 0.

Definition last_queued : nat → list nat → nat := λ _ least, pred (length least).

(** ** Graphs the public operations can make *)

(** The graphs reached from a new graph by the operations that change it;
    the other operations leave the vertices, the edges and the hazard
    tracker as they are and only add to the record of the mutex. *)
Inductive built_by_public_operations : DirectedBoostGraph → Prop :=
  | public_new : built_by_public_operations empty_graph
  | public_addOperation op g v g' :
      built_by_public_operations g →
      addOperation op g = Some (v, g') →
      built_by_public_operations g'
  | public_addDependency a b g :
      built_by_public_operations g →
      built_by_public_operations (addDependency a b g)
  | public_clear g :
      built_by_public_operations g →
      built_by_public_operations (clear g)
  | public_query g g' :
      built_by_public_operations g →
      dag_ g' = dag_ g → exec_state_ g' = exec_state_ g →
      built_by_public_operations g'.

(** Every edge of the adjacency list ends at one of its vertices, as in
    every list made by [add_vertex] and [add_edge]. *)
Definition targets_in_range (g : list DirectedBoostVertex) : Prop :=
  Forall (λ sv, Forall (λ e : nat * Q, e.1 < length g) (m_out_edges sv)) g.

(** Every edge has the weight of an edge made without one. *)
Definition default_weights (g : list DirectedBoostVertex) : Prop :=
  Forall (λ sv, Forall (λ e : nat * Q, e.2 = default_edge_weight)
                  (m_out_edges sv)) g.

(** Every edge ends below [n] and has the default weight. *)
Definition plain_edges_within (n : nat) (g : list DirectedBoostVertex)
  : Prop :=
  Forall (λ sv, Forall (λ e : nat * Q,
                          e.1 < n ∧ e.2 = default_edge_weight)
                  (m_out_edges sv)) g.

(** [v] is reached from [s] along edges of the graph. *)
Definition reachable (g : list DirectedBoostVertex) (s v : nat) : Prop :=
  rtc (λ a b, b ∈ adjacent_vertices a g) s v.

(** Four operations on four tensors, without a hazard among them, and the
    diamond 0->1, 0->2, 1->3, 2->3 made on their vertices with
    [addDependency]. *)
Definition four_vertices : DirectedBoostGraph :=
  graph_after [mkTensorOperation 0 [mkTensor 1];
               mkTensorOperation 0 [mkTensor 2];
               mkTensorOperation 0 [mkTensor 3];
               mkTensorOperation 0 [mkTensor 4]].

Definition built_diamond : DirectedBoostGraph :=
  addDependency 2 3 (addDependency 1 3
    (addDependency 0 2 (addDependency 0 1 four_vertices))).

(** The same edges made in another order: 0->2, 0->1, 2->3, 1->3. *)
Definition built_diamond' : DirectedBoostGraph :=
  addDependency 1 3 (addDependency 2 3
    (addDependency 0 1 (addDependency 0 2 four_vertices))).

(** ** The run of the shortest-path search *)

(** The vertices not finished yet. *)
Definition pending (colors : list Color) : nat :=
  length (filter (λ c, c ≠ Black) colors).

(** What holds of the maps and the queue between two turns of the search
    from [s] over [n] vertices. *)
Definition dijkstra_inv (n s : nat) (st : DijkstraState) : Prop :=
  length (dist st) = n ∧ length (predecessor st) = n ∧
  length (color st) = n ∧
  dist st !! s = Some 0%N ∧ predecessor st !! s = Some s ∧
  Forall (λ u, u < n) (predecessor st) ∧
  NoDup (queue st) ∧
  Forall (λ v, color st !! v = Some Gray) (queue st).

(** What holds in addition when every edge has the default weight: a
    vertex not discovered is at distance [inf] and its own predecessor; a
    discovered vertex is at distance 0 and reached from [s], through its
    predecessor when it is not [s]; the queue holds the gray vertices but
    [cur], the one under examination; the targets of a finished vertex
    are discovered. *)
Definition default_weight_inv (g : list DirectedBoostVertex) (s : nat)
    (cur : option nat) (st : DijkstraState) : Prop :=
  (∀ v, color st !! v = Some White →
        dist st !! v = Some distance_inf ∧ predecessor st !! v = Some v) ∧
  (∀ v c, color st !! v = Some c → c ≠ White →
        dist st !! v = Some 0%N ∧ reachable g s v ∧
        (v = s → predecessor st !! v = Some s) ∧
        (v ≠ s → ∃ u, predecessor st !! v = Some u ∧ reachable g s u ∧
                      v ∈ adjacent_vertices u g)) ∧
  (∀ v, color st !! v = Some Gray → Some v ≠ cur → v ∈ queue st) ∧
  (∀ u v, color st !! u = Some Black → v ∈ adjacent_vertices u g →
          ∃ c, color st !! v = Some c ∧ c ≠ White) ∧
  (∃ c, color st !! s = Some c ∧ c ≠ White).

(** * The contraction-sequence planner (contraction_seq_optimizer_heuro.cpp) *)

(** ** Failures *)

(** [EmptyQueueAccess]: [top()] of an empty [std::priority_queue];
    [AssertionFailed]: [assert(contracted)] after a refused merge. *)
Inductive Failure := EmptyQueueAccess | AssertionFailed.

Inductive result (A : Type) : Type :=
  | Ok (a : A)
  | Err (f : Failure).

Global Arguments Ok {A} a.
Global Arguments Err {A} f.

Global Instance result_ret : MRet result := λ A a, Ok a.

Global Instance result_bind : MBind result := λ A B f m,
  match m with
  | Ok a => f a
  | Err e => Err e
  end.

(** ** [std::priority_queue] *)

(** The interface of [std::priority_queue<A, std::vector<A>, cmp>] for the
    comparison [cmp(l, r) = key l < key r]: the top is an element that
    compares below no other, that is, one of greatest key. Which of several
    elements of greatest key is the top is left to the implementation.
    [pq_elements] is the content of the queue. *)
Class PriorityQueue (A : Type) (key : A → Q) := {
  pq : Type;
  pq_elements : pq → list A;
  pq_empty : pq;
  pq_emplace : A → pq → pq;
  pq_top : pq → option A;
  pq_pop : pq → pq;
  pq_size : pq → nat;
  pq_elements_empty : pq_elements pq_empty = [];
  pq_size_elements q : pq_size q = length (pq_elements q);
  pq_emplace_elements x q : pq_elements (pq_emplace x q) ≡ₚ x :: pq_elements q;
  pq_top_empty q : pq_elements q = [] → pq_top q = None;
  pq_top_pop q :
    pq_elements q ≠ [] →
    ∃ x, pq_top q = Some x ∧
         pq_elements q ≡ₚ x :: pq_elements (pq_pop q) ∧
         Forall (λ y, (key y <= key x)%Q) (pq_elements q)
}.

(** A queue kept as an unordered vector: the top is found by a scan, the
    first of the greatest elements from the back. *)
Fixpoint extract_max {A} (key : A → Q) (l : list A) : option (A * list A) :=
  match l with
  | [] => None
  | x :: l =>
      match extract_max key l with
      | None => Some (x, [])
      | Some (m, r) =>
          if Qle_bool (key m) (key x) then Some (x, l) else Some (m, x :: r)
      end
  end.

#[refine] Global Instance scan_queue {A} (key : A → Q)
  : PriorityQueue A key := {|
  pq := list A;
  pq_elements q := q;
  pq_empty := [];
  pq_emplace x q := x :: q;
  pq_top q := fst <$> extract_max key q;
  pq_pop q := default [] (snd <$> extract_max key q);
  pq_size q := length q
|}.
Proof.
  - reflexivity.
  - reflexivity.
  - reflexivity.
  - intros q ->. reflexivity.
  - intros q Hq.
    assert (∃ m r, extract_max key q = Some (m, r) ∧ q ≡ₚ m :: r ∧
                   Forall (λ y, (key y <= key m)%Q) q) as (m & r & E & Hp & Hm).
    { induction q as [|x q IH]; [done|]. clear Hq. simpl.
      destruct q as [|y q'].
      - simpl. exists x, []. split_and!; [done|done|].
        constructor; [apply Qle_refl|constructor].
      - destruct IH as (m & r & -> & Hp & Hm); [done|].
        destruct (Qle_bool (key m) (key x)) eqn:Hc.
        + apply Qle_bool_iff in Hc. exists x, (y :: q').
          split_and!; [done|done|].
          constructor; [apply Qle_refl|].
          eapply Forall_impl; [exact Hm|].
          intros z Hz. simpl in Hz. by apply Qle_trans with (key m).
        + exists m, (x :: r). split_and!; [done| |].
          * rewrite Hp. apply perm_swap.
          * constructor; [|done].
            destruct (Qlt_le_dec (key m) (key x)) as [Hlt|Hle]; [|done].
            apply Qlt_le_weak, Qle_bool_iff in Hlt. congruence. }
    exists m. rewrite E. simpl. done.
Defined.

(** ** Contraction triples and unsigned counters *)

Record ContrTriple := mkContrTriple {
  result_id : N;
  left_id : N;
  right_id : N
}.

(** [unsigned int]: arithmetic is modulo [2^32]. *)
Definition uint_modulus : N := 2 ^ 32.

(** [a - 1] on [unsigned int]. *)
Definition uint_pred (a : N) : N := ((a + uint_modulus - 1) mod uint_modulus)%N.

Section Planner.

(** Modelled from the spec: the tensors of a network (TensorConn) and
    the routine [getTensorContractionCost] (tensor_network.hpp) are not
    among the sources. The cost routine yields "the FLOP estimate for
    pairwise contraction"; [fuse] is the tensor that a merge puts in the
    place of the two it removes. *)
Context {TensorConn : Type}.
Variable getTensorContractionCost : TensorConn → TensorConn → Q.
Variable fuse : TensorConn → TensorConn → TensorConn.

(** Modelled from the spec: the class TensorNetwork is not among the
    sources. A network is the map from tensor ids to tensors, "including
    an output at id = 0"; iterating over it visits
    [map_to_list network]. *)
Local Abbreviation TensorNetwork := (gmap N TensorConn).

(** Modelled from the spec: [getNumTensors()], the number of input
    factors, those with an id other than 0. It is an [unsigned int], which
    decides the arithmetic of [numContractions] below. *)
Definition getNumTensors (network : TensorNetwork) : N :=
  N.of_nat (size (filter (λ kv, kv.1 ≠ 0%N) network)).

(** Modelled from the spec: "mergeTensors(i, j, new_id) -> bool, which
    fuses factors i and j into a new intermediate factor with the given
    id, removing the originals". [None] stands for the answer [false]:
    a factor is missing, the two are the same, the output tensor is
    involved, or the id is taken. *)
Definition mergeTensors (network : TensorNetwork)
    (left_id right_id result_id : N) : option TensorNetwork :=
  tl ← network !! left_id;
  tr ← network !! right_id;
  if decide (left_id ≠ right_id ∧ left_id ≠ 0%N ∧ right_id ≠ 0%N ∧
             result_id ≠ 0%N ∧ network !! result_id = None)
  then Some (<[result_id := fuse tl tr]>
               (delete right_id (delete left_id network)))
  else None.

(** [ContrPath]: the state of the network, the contraction sequence that
    led to it, and the flop count so far. *)
Record ContrPath := mkContrPath {
  get0 : gmap N TensorConn;
  get1 : list ContrTriple;
  get2 : Q
}.

Context {priority_queue : PriorityQueue ContrPath get2}.

(** The beam width, [num_walkers_]. *)
Variable num_walkers_ : nat.

(** The intermediate id generator: the value of its k-th call. *)
Variable intermediate_num_generator : nat → N.

(** The candidate made of the pair [i], [j] of the parent [contrPath]
    (lines 212-222): [None] when the merge is refused. *)
Definition child (last_pass : bool) (intermediate_id : N)
    (contrPath : ContrPath) (iter_i iter_j : N * TensorConn)
  : option ContrPath :=
  let '(i, tensor_i) := iter_i in
  let '(j, tensor_j) := iter_j in
  let contrCost := getTensorContractionCost tensor_i tensor_j in
  tensNet ← mergeTensors (get0 contrPath) i j intermediate_id;
  let cSeq := get1 contrPath ++
              [if last_pass then mkContrTriple 0 i j
               else mkContrTriple intermediate_id i j] in
  Some (mkContrPath tensNet cSeq (contrCost + get2 contrPath)%Q).

(** [priq.emplace(c); if(priq.size() > num_walkers_) priq.pop();] *)
Definition offer (priq : pq) (c : ContrPath) : pq :=
  let priq := pq_emplace c priq in
  if decide (num_walkers_ < pq_size priq) then pq_pop priq else priq.

(** The loop over [iter_j], from [std::next(iter_i)] to the end. *)
Fixpoint loop_j (last_pass : bool) (intermediate_id : N)
    (contrPath : ContrPath) (iter_i : N * TensorConn)
    (rest : list (N * TensorConn)) (priq : pq) : result pq :=
  match rest with
  | [] => Ok priq
  | iter_j :: rest =>
      priq ← (if decide (iter_j.1 ≠ 0%N) then
                match child last_pass intermediate_id contrPath
                        iter_i iter_j with
                | Some c => Ok (offer priq c)
                | None => Err AssertionFailed
                end
              else Ok priq);
      loop_j last_pass intermediate_id contrPath iter_i rest priq
  end.

(** The loop over [iter_i]. *)
Fixpoint loop_i (last_pass : bool) (intermediate_id : N)
    (contrPath : ContrPath) (tensors : list (N * TensorConn)) (priq : pq)
  : result pq :=
  match tensors with
  | [] => Ok priq
  | iter_i :: rest =>
      priq ← (if decide (iter_i.1 ≠ 0%N)
              then loop_j last_pass intermediate_id contrPath iter_i rest
                     priq
              else Ok priq);
      loop_i last_pass intermediate_id contrPath rest priq
  end.

(** The loop over [inputPaths]. *)
Fixpoint loop_paths (last_pass : bool) (intermediate_id : N)
    (inputPaths : list ContrPath) (priq : pq) : result pq :=
  match inputPaths with
  | [] => Ok priq
  | contrPath :: inputPaths =>
      priq ← loop_i last_pass intermediate_id contrPath
               (map_to_list (get0 contrPath)) priq;
      loop_paths last_pass intermediate_id inputPaths priq
  end.

(** [while(priq.size() > 1) priq.pop();] Every turn removes an element,
    so [fuel] equal to the size of the queue is enough. *)
Fixpoint pop_to_one (fuel : nat) (priq : pq) : pq :=
  match fuel with
  | 0 => priq
  | S fuel =>
      if decide (1 < pq_size priq) then pop_to_one fuel (pq_pop priq)
      else priq
  end.

(** [while(priq.size() > 0){ inputPaths.emplace_back(priq.top());
    priq.pop(); }], with the same fuel. *)
Fixpoint drain (fuel : nat) (priq : pq) (inputPaths : list ContrPath)
  : result (list ContrPath * pq) :=
  match fuel with
  | 0 => Ok (inputPaths, priq)
  | S fuel =>
      if decide (0 < pq_size priq) then
        match pq_top priq with
        | Some top => drain fuel (pq_pop priq) (inputPaths ++ [top])
        | None => Err EmptyQueueAccess
        end
      else Ok (inputPaths, priq)
  end.

(** The loop over the passes, [remaining] of them still to run. *)
Fixpoint passes (remaining : nat) (pass numContractions : nat)
    (inputPaths : list ContrPath) (priq : pq)
    (contr_seq : list ContrTriple) (flops : Q)
  : result (list ContrTriple * Q) :=
  match remaining with
  | 0 => Ok (contr_seq, flops)
  | S remaining =>
      let intermediate_id := intermediate_num_generator pass in
      let last_pass := bool_decide (pass = numContractions - 1) in
      priq ← loop_paths last_pass intermediate_id inputPaths priq;
      if last_pass then
        let priq := pop_to_one (pq_size priq) priq in
        match pq_top priq with
        | Some top =>
            passes remaining (S pass) numContractions [] (pq_pop priq)
              (get1 top) (get2 top)
        | None => Err EmptyQueueAccess
        end
      else
        '(inputPaths, priq) ← drain (pq_size priq) priq [];
        passes remaining (S pass) numContractions inputPaths priq
          contr_seq flops
  end.

(** [determineContractionSequence]: the sequence left in [contr_seq]
    and the flop count returned. What [contr_seq] held on entry is
    cleared. *)
Definition determineContractionSequence (network : TensorNetwork)
    (contr_seq : list ContrTriple) : result (list ContrTriple * Q) :=
  let contr_seq : list ContrTriple := [] in
  let flops := 0%Q in
  let numContractions := uint_pred (getNumTensors network) in
  if decide (numContractions = 0%N) then Ok (contr_seq, flops)
  else
    passes (N.to_nat numContractions) 0 (N.to_nat numContractions)
      [mkContrPath network [] 0%Q] pq_empty contr_seq flops.

(** ** The candidates of a pass *)

Fixpoint cands_j (last_pass : bool) (intermediate_id : N)
    (contrPath : ContrPath) (iter_i : N * TensorConn)
    (rest : list (N * TensorConn)) : option (list ContrPath) :=
  match rest with
  | [] => Some []
  | iter_j :: rest =>
      if decide (iter_j.1 ≠ 0%N) then
        c ← child last_pass intermediate_id contrPath iter_i iter_j;
        cs ← cands_j last_pass intermediate_id contrPath iter_i rest;
        Some (c :: cs)
      else cands_j last_pass intermediate_id contrPath iter_i rest
  end.

Fixpoint cands_i (last_pass : bool) (intermediate_id : N)
    (contrPath : ContrPath) (tensors : list (N * TensorConn))
  : option (list ContrPath) :=
  match tensors with
  | [] => Some []
  | iter_i :: rest =>
      if decide (iter_i.1 ≠ 0%N) then
        cs1 ← cands_j last_pass intermediate_id contrPath iter_i rest;
        cs2 ← cands_i last_pass intermediate_id contrPath rest;
        Some (cs1 ++ cs2)
      else cands_i last_pass intermediate_id contrPath rest
  end.

(** The candidate paths generated in one pass, in the order of their
    generation; [None] when a merge is refused. *)
Fixpoint candidates (last_pass : bool) (intermediate_id : N)
    (inputPaths : list ContrPath) : option (list ContrPath) :=
  match inputPaths with
  | [] => Some []
  | contrPath :: inputPaths =>
      cs1 ← cands_i last_pass intermediate_id contrPath
              (map_to_list (get0 contrPath));
      cs2 ← candidates last_pass intermediate_id inputPaths;
      Some (cs1 ++ cs2)
  end.

(** ** Replaying a contraction sequence *)

(** Every triple of [seq] names two input factors present in the network
    at its step, and merging them (under the id generated for that step)
    leads to the network of the next step. *)
Fixpoint steps_present (network : TensorNetwork) (k : nat)
    (seq : list ContrTriple) : Prop :=
  match seq with
  | [] => True
  | t :: seq =>
      is_Some (network !! left_id t) ∧ is_Some (network !! right_id t) ∧
      left_id t ≠ 0%N ∧ right_id t ≠ 0%N ∧
      ∃ network',
        mergeTensors network (left_id t) (right_id t)
          (intermediate_num_generator k) = Some network' ∧
        steps_present network' (S k) seq
  end.

(** The ids the generator gives in its first [m] calls are new: pairwise
    different, not 0, and not the id of a tensor of the network. *)
Definition fresh_ids (network : TensorNetwork) (m : nat) : Prop :=
  NoDup (intermediate_num_generator <$> seq 0 m) ∧
  Forall (λ id, id ≠ 0%N ∧ network !! id = None)
    (intermediate_num_generator <$> seq 0 m).

(** ** What the beam keeps *)

(** The queue [priq] holds the cheapest of the candidates [seen]: as
    many of them as the beam width allows, and none that costs more than
    a candidate left out. *)
Definition kept_cheapest (seen : list ContrPath) (priq : pq) : Prop :=
  ∃ evicted,
    seen ≡ₚ pq_elements priq ++ evicted ∧
    length (pq_elements priq) = num_walkers_ `min` length seen ∧
    Forall (λ r, Forall (λ e, (get2 r <= get2 e)%Q) evicted)
      (pq_elements priq).

(** ** The invariant of the paths of a pass *)

(** [seq] contracts [network] into [network'], step [k] onward. *)
Fixpoint replays (network : TensorNetwork) (k : nat)
    (seq : list ContrTriple) (network' : TensorNetwork) : Prop :=
  match seq with
  | [] => network' = network
  | t :: seq =>
      ∃ network1,
        mergeTensors network (left_id t) (right_id t)
          (intermediate_num_generator k) = Some network1 ∧
        replays network1 (S k) seq network'
  end.

(** The result id of step [k] of [numContractions]: the output tensor
    for the last step, the generated id otherwise. *)
Definition expected_result (numContractions k : nat) : N :=
  if decide (k = numContractions - 1) then 0%N
  else intermediate_num_generator k.

(** A path of pass [p] of the search over [network]. *)
Definition path_of_pass (network : TensorNetwork) (numContractions : nat)
    (p : nat) (path : ContrPath) : Prop :=
  length (get1 path) = p ∧
  replays network 0 (get1 path) (get0 path) ∧
  (∀ k t, get1 path !! k = Some t →
          result_id t = expected_result numContractions k) ∧
  (N.to_nat (getNumTensors (get0 path)) + p
     = N.to_nat (getNumTensors network)) ∧
  (∀ id, is_Some (get0 path !! id) →
         is_Some (network !! id) ∨
         ∃ k, k < p ∧ id = intermediate_num_generator k).

(** The id generated for pass [p] is new to the paths of that pass. *)
Definition fresh_at (network : TensorNetwork) (p : nat) : Prop :=
  intermediate_num_generator p ≠ 0%N ∧
  network !! intermediate_num_generator p = None ∧
  ∀ k, k < p → intermediate_num_generator k ≠ intermediate_num_generator p.

(** The outcome of a loop that offers the candidates [cs] to the queue. *)
Definition offered (q : pq) (cs : option (list ContrPath)) : result pq :=
  match cs with
  | Some cs => Ok (foldl offer q cs)
  | None => Err AssertionFailed
  end.

(** ** The search without a bound *)

(** All the paths of pass [p] when no candidate is ever dropped. *)
Fixpoint all_paths (network : TensorNetwork) (numContractions p : nat)
  : option (list ContrPath) :=
  match p with
  | 0 => Some [mkContrPath network [] 0%Q]
  | S p' =>
      beam ← all_paths network numContractions p';
      candidates (bool_decide (p' = numContractions - 1))
        (intermediate_num_generator p') beam
  end.

(** The beam width [w] is at least the number of candidates of every
    pass of the search without a bound. *)
Definition wide_enough (w : nat) (network : TensorNetwork)
    (numContractions : nat) : bool :=
  forallb (λ p, match all_paths network numContractions (S p) with
                | Some cs => length cs <=? w
                | None => false
                end)
    (seq 0 numContractions).

(** The candidates of two beams, one a rearrangement of the other. *)
Definition same_candidates (a b : option (list ContrPath))
  : Prop :=
  match a, b with
  | Some a, Some b => a ≡ₚ b
  | None, None => True
  | _, _ => False
  end.

End Planner.

(** ** A concrete tensor model for the examples *)

(** A tensor is the list of its legs, each a label and an extent; a leg
    shared by two tensors has the same label in both. *)
Abbreviation Legs := (list (N * N)) (only parsing).

Definition has_leg (t : Legs) (leg : N * N) : bool :=
  bool_decide (leg.1 ∈ t.*1).

(** The legs of the product: those of one tensor that the other lacks. *)
Definition fuse_legs (a b : Legs) : Legs :=
  filter (λ leg, ¬ has_leg b leg) a ++ filter (λ leg, ¬ has_leg a leg) b.

(** The flop estimate of a pairwise contraction: the product of the
    extents of all the distinct legs of the two tensors. *)
Definition contraction_cost (a b : Legs) : Q :=
  inject_Z (Z.of_N (foldr N.mul 1%N
    ((a ++ filter (λ leg, ¬ has_leg a leg) b).*2))).

(** Four factors: T1[a=2,c=2], T2[d=3], T3[b=3,e=5], T4[a=2,b=3,f=3];
    the output tensor 0 has the open legs c, d, e, f. *)
Definition four_factors : gmap N (list (N * N)) :=
  list_to_map
    [(0, [(3, 2); (4, 3); (5, 5); (6, 3)]);
     (1, [(1, 2); (3, 2)]);
     (2, [(4, 3)]);
     (3, [(2, 3); (5, 5)]);
     (4, [(1, 2); (2, 3); (6, 3)])]%N.

(** Two factors sharing one leg. *)
Definition two_factors : gmap N (list (N * N)) :=
  list_to_map [(0, []); (1, [(1, 2)]); (2, [(1, 2)])]%N.

(** One factor, and none. *)
Definition one_factor : gmap N (list (N * N)) :=
  list_to_map [(0, [(1, 2)]); (1, [(1, 2)])]%N.

Definition no_factor : gmap N (list (N * N)) :=
  list_to_map [(0, [])]%N.

(** A generator counting up from 100. *)
Definition ids_from_100 (k : nat) : N := (100 + N.of_nat k)%N.

(** The scanning queue for the paths of the concrete model. *)
Definition legs_queue : PriorityQueue (@ContrPath (list (N * N))) get2 :=
  scan_queue get2.

(** The planner on the concrete model, with the scanning queue. *)
Definition plan (num_walkers : nat) (network : gmap N (list (N * N)))
  : result (list ContrTriple * Q) :=
  determineContractionSequence contraction_cost fuse_legs
    (priority_queue := legs_queue) num_walkers ids_from_100 network [].

(** * Further definitions *)

(** Two graph objects with the same vertices, edges and hazard tracker;
    the records of their mutexes may differ. *)
Definition same_graph (g1 g2 : DirectedBoostGraph) : Prop :=
  dag_ g1 = dag_ g2 ∧ exec_state_ g1 = exec_state_ g2.

(** Two outcomes of an operation on the graph that agree up to the record
    of the mutex. *)
Definition same_outcome {A} (r1 r2 : option (A * DirectedBoostGraph))
  : Prop :=
  match r1, r2 with
  | Some (a1, g1), Some (a2, g2) => a1 = a2 ∧ same_graph g1 g2
  | None, None => True
  | _, _ => False
  end.

(** A write of [X] followed by a read of [X] into [Y]. *)
Definition write_then_read : list TensorOperation :=
  [mkTensorOperation 0 [mkTensor 1];
   mkTensorOperation 0 [mkTensor 2; mkTensor 1]].

(** ** Carrying out a contraction sequence *)

(** The network and the flop count after the triples of [seq] have been
    carried out one by one from [network], step [k] onward: each step
    contracts the two tensors it names at the cost the cost routine gives
    for them and puts their product under the id generated for the step.
    [None] when a step cannot be carried out. *)
Fixpoint run_sequence {TensorConn : Type}
    (cost : TensorConn → TensorConn → Q)
    (fuse : TensorConn → TensorConn → TensorConn) (gen : nat → N)
    (network : gmap N TensorConn) (k : nat) (seq : list ContrTriple)
    (flops : Q) : option (gmap N TensorConn * Q) :=
  match seq with
  | [] => Some (network, flops)
  | t :: seq =>
      tl ← network !! left_id t;
      tr ← network !! right_id t;
      network' ← mergeTensors fuse network (left_id t) (right_id t) (gen k);
      run_sequence cost fuse gen network' (S k) seq (cost tl tr + flops)%Q
  end.

(** The path's network and flop count are those of carrying out its
    sequence, which has [p] steps. *)
Definition costed {TensorConn : Type}
    (cost : TensorConn → TensorConn → Q)
    (fuse : TensorConn → TensorConn → TensorConn) (gen : nat → N)
    (network : gmap N TensorConn) (p : nat)
    (path : @ContrPath TensorConn) : Prop :=
  length (get1 path) = p ∧
  run_sequence cost fuse gen network 0 (get1 path) 0
    = Some (get0 path, get2 path).

(** * Vector spaces and subspaces (spaces.cpp) *)

Section Spaces.

(** [DimExtent] and [DimOffset] are unsigned integer types declared
    outside spaces.cpp; their arithmetic is modulo the number of their
    values, [dim_modulus]. *)
Variable dim_modulus : N.

(** [UNREG_SUBSPACE], the id given to a subspace on construction. *)
Variable UNREG_SUBSPACE : N.

Definition dim_wrap (z : Z) : N := Z.to_N (z mod Z.of_N dim_modulus).

Definition dim_add (a b : N) : N := dim_wrap (Z.of_N a + Z.of_N b).

Definition dim_sub (a b : N) : N := dim_wrap (Z.of_N a - Z.of_N b).

Definition dim_mul (a b : N) : N := dim_wrap (Z.of_N a * Z.of_N b).

(** A vector space: [basis_dimension] is what [basis_.getDimension()]
    gives. *)
Record VectorSpace := mkVectorSpace {
  basis_dimension : N;
  space_name_ : string;
  space_id_ : N
}.

Definition VectorSpace_getDimension (vector_space : VectorSpace) : N :=
  basis_dimension vector_space.

Definition VectorSpace_getName (vector_space : VectorSpace) : string :=
  space_name_ vector_space.

(** A subspace: a range of basis vectors of [vector_space_], which stands
    for the object the pointer of the source points to. *)
Record Subspace := mkSubspace {
  vector_space_ : VectorSpace;
  lower_bound_ : N;
  upper_bound_ : N;
  subspace_name_ : string;
  id_ : N
}.

(** [Subspace::Subspace(vector_space, lower_bound, upper_bound,
    subspace_name)] (lines 90-98); the constructors without a name pass
    the empty name. A failed assertion ends the construction. *)
Definition new_Subspace (vector_space : VectorSpace)
    (lower_bound upper_bound : N) (subspace_name : string)
  : result Subspace :=
  if decide (lower_bound ≤ upper_bound ∧
             upper_bound < VectorSpace_getDimension vector_space)%N
  then Ok (mkSubspace vector_space lower_bound upper_bound subspace_name
             UNREG_SUBSPACE)
  else Err AssertionFailed.

(** [Subspace::getDimension] (lines 121-124). *)
Definition getDimension (s : Subspace) : N :=
  dim_add (dim_sub (upper_bound_ s) (lower_bound_ s)) 1.

Definition getLowerBound (s : Subspace) : N := lower_bound_ s.

Definition getUpperBound (s : Subspace) : N := upper_bound_ s.

Definition getName (s : Subspace) : string := subspace_name_ s.

(** [Subspace::resetRegisteredId] (lines 156-160). *)
Definition resetRegisteredId (id : N) (s : Subspace) : Subspace :=
  mkSubspace (vector_space_ s) (lower_bound_ s) (upper_bound_ s)
    (subspace_name_ s) id.

(** The loop of [splitUniform] (lines 171-175): [remaining] turns are
    left, [i] is the loop counter and [lower] the bound carried from turn
    to turn; the outcome is the last [lower] and the vector filled. *)
Fixpoint splitUniform_loop (vector_space : VectorSpace)
    (subspace_name : string) (segment_length excess : N)
    (remaining : nat) (i lower : N) (subspaces : list (option Subspace))
  : result (N * list (option Subspace)) :=
  match remaining with
  | 0 => Ok (lower, subspaces)
  | S remaining =>
      let upper := dim_sub (dim_add lower segment_length) 1 in
      let upper := if decide (i < excess)%N then dim_add upper 1
                   else upper in
      s ← new_Subspace vector_space lower upper
             (subspace_name +:+ pretty i);
      splitUniform_loop vector_space subspace_name segment_length excess
        remaining (dim_add i 1) (dim_add upper 1)
        (<[N.to_nat i := Some s]> subspaces)
  end.

(** [Subspace::splitUniform] (lines 162-180); [None] is a null pointer of
    the vector returned. *)
Definition splitUniform (s : Subspace) (num_segments : N)
  : result (list (option Subspace)) :=
  if decide (0 < num_segments)%N then
    let subspaces := replicate (N.to_nat num_segments) None in
    let subspace_extent := getDimension s in
    let subspace_name := "_" +:+ getName s +:+ "_" in
    if decide (num_segments ≤ subspace_extent)%N then
      let segment_length := (subspace_extent `div` num_segments)%N in
      let excess :=
        dim_sub subspace_extent (dim_mul num_segments segment_length) in
      '(lower, subspaces) ←
        splitUniform_loop (vector_space_ s) subspace_name segment_length
          excess (N.to_nat num_segments) 0%N (lower_bound_ s) subspaces;
      if decide (lower = dim_add (upper_bound_ s) 1)
      then Ok subspaces else Err AssertionFailed
    else Ok subspaces
  else Err AssertionFailed.

(** ** Properties of subspaces *)

(** The bounds of a subspace as the constructor accepts them, in a space
    whose dimension is a value of [DimExtent]. *)
Definition bounds_in_space (s : Subspace) : Prop :=
  (lower_bound_ s ≤ upper_bound_ s)%N ∧
  (upper_bound_ s < VectorSpace_getDimension (vector_space_ s))%N ∧
  (VectorSpace_getDimension (vector_space_ s) < dim_modulus)%N.

(** The segments [segs] follow one another from [lower] to [last]: each
    begins where the one before ended, none is empty, and the last ends
    at [last]. *)
Fixpoint consecutive (lower : N) (segs : list Subspace) (last : N)
  : Prop :=
  match segs with
  | [] => lower = (last + 1)%N
  | s :: segs =>
      lower_bound_ s = lower ∧ (lower_bound_ s ≤ upper_bound_ s)%N ∧
      consecutive (upper_bound_ s + 1)%N segs last
  end.

End Spaces.

(** An instance: 64-bit extents and offsets, the all-ones id, and the
    subspace [2, 8] of a space of dimension 10. *)
Definition dim_modulus_64 : N := 2 ^ 64.

Definition unreg_subspace_64 : N := 2 ^ 64 - 1.

Definition space_10 : VectorSpace := mkVectorSpace 10 "V" 0.

Definition subspace_2_8 : Subspace :=
  mkSubspace space_10 2 8 "s" unreg_subspace_64.

Definition split_2_8_of_10 : result (list (option Subspace)) :=
  splitUniform dim_modulus_64 unreg_subspace_64 subspace_2_8 3.
(** * Properties of the dependency graph *)

(** ** The adjacency list *)

Lemma lookup_grow_to_lt (n u : nat) (g : list DirectedBoostVertex) :
  u < length g → grow_to n g !! u = g !! u.
Proof. intros Hu. unfold grow_to. by rewrite lookup_app_l. Qed.

Lemma out_edges_grow_to (n u : nat) (g : list DirectedBoostVertex) :
  out_edges u (grow_to n g) = out_edges u g.
Proof.
  unfold out_edges, grow_to.
  destruct (decide (u < length g)) as [Hu|Hu].
  - by rewrite lookup_app_l.
  - rewrite lookup_app_r by lia. rewrite (lookup_ge_None_2 g u) by lia.
    destruct (replicate _ _ !! _) as [sv|] eqn:E; [|done].
    apply lookup_replicate in E as [-> _]. done.
Qed.

Lemma length_grow_to (n : nat) (g : list DirectedBoostVertex) :
  length (grow_to n g) = length g `max` n.
Proof. unfold grow_to. rewrite length_app, length_replicate. lia. Qed.

Lemma out_edges_add_edge_w (u v u' : nat) (w : Q)
    (g : list DirectedBoostVertex) :
  out_edges u' (add_edge_w u v w g) =
    if decide (u' = u) then out_edges u g ++ [(v, w)] else out_edges u' g.
Proof.
  unfold add_edge_w. case_decide as Hu.
  - subst u'. rewrite <- (out_edges_grow_to (S (u `max` v)) u g).
    unfold out_edges at 1 2. rewrite list_lookup_alter_eq.
    destruct (grow_to _ g !! u) as [sv|] eqn:E; [done|].
    apply lookup_ge_None_1 in E. rewrite length_grow_to in E. lia.
  - rewrite <- (out_edges_grow_to (S (u `max` v)) u' g).
    unfold out_edges. by rewrite list_lookup_alter_ne.
Qed.

Lemma lookup_add_edge_w_ne (u v u' : nat) (w : Q)
    (g : list DirectedBoostVertex) :
  u' ≠ u → u' < length g → add_edge_w u v w g !! u' = g !! u'.
Proof.
  intros Hne Hlt. unfold add_edge_w.
  rewrite list_lookup_alter_ne by done. by apply lookup_grow_to_lt.
Qed.

Lemma length_add_edge_w (u v : nat) (w : Q) (g : list DirectedBoostVertex) :
  length (add_edge_w u v w g) = length g `max` S (u `max` v).
Proof. unfold add_edge_w. by rewrite length_alter, length_grow_to. Qed.

Lemma num_edges_app (g1 g2 : list DirectedBoostVertex) :
  num_edges (g1 ++ g2) = num_edges g1 + num_edges g2.
Proof. unfold num_edges. by rewrite map_app, sum_list_with_app. Qed.

Lemma num_edges_replicate_empty (n : nat) :
  num_edges (replicate n empty_vertex) = 0.
Proof. induction n as [|n IH]; [done|]. exact IH. Qed.

Lemma num_edges_alter_push (v : nat) (w : Q) (u : nat)
    (g : list DirectedBoostVertex) :
  u < length g →
  num_edges (alter (push_out_edge v w) u g) = S (num_edges g).
Proof.
  revert u. induction g as [|sv g IH]; intros u Hu; simpl in Hu; [lia|].
  destruct u as [|u].
  - unfold num_edges. simpl. rewrite length_app. simpl. lia.
  - change (alter (push_out_edge v w) (S u) (sv :: g))
      with (sv :: alter (push_out_edge v w) u g).
    unfold num_edges in *. simpl. rewrite IH by lia. lia.
Qed.

Lemma num_edges_add_edge (a b : nat) (g : list DirectedBoostVertex) :
  num_edges (add_edge a b g) = S (num_edges g).
Proof.
  unfold add_edge, add_edge_w. rewrite num_edges_alter_push.
  - unfold grow_to. by rewrite num_edges_app, num_edges_replicate_empty.
  - rewrite length_grow_to. lia.
Qed.

Lemma num_edges_alter_properties (p : option TensorOpNode) (u : nat)
    (g : list DirectedBoostVertex) :
  num_edges
    (alter (λ sv, {| m_out_edges := m_out_edges sv; properties := p |}) u g)
    = num_edges g.
Proof.
  revert u. induction g as [|sv g IH]; intros u; [done|].
  destruct u as [|u]; [done|].
  change (alter ?f (S u) (sv :: g)) with (sv :: alter f u g).
  unfold num_edges in *. simpl. by rewrite IH.
Qed.

(** ** The hazard tracker *)

Lemma write_epoch_single_writer (es : TensorExecState) (T : Tensor) :
  ((getTensorEpochNodes es T).2 < 0)%Z →
  ∃ w, writer es !! getTensorHash T = Some w ∧
       (getTensorEpochNodes es T).1 = Some [w].
Proof.
  unfold getTensorEpochNodes.
  destruct (writer es !! getTensorHash T) as [w|]; simpl.
  - intros _. by exists w.
  - destruct (readers es !! getTensorHash T) as [[|r rs]|]; simpl; lia.
Qed.

Lemma read_epoch_no_writer (es : TensorExecState) (T : Tensor) :
  ¬ ((getTensorEpochNodes es T).2 < 0)%Z →
  writer es !! getTensorHash T = None.
Proof.
  unfold getTensorEpochNodes.
  destruct (writer es !! getTensorHash T) as [w|]; simpl; [lia|done].
Qed.

(** ** addDependency and the loops of addOperation *)

Lemma addDependencies_cons (vid n : nat) (nodes : list nat)
    (g : DirectedBoostGraph) :
  addDependencies vid (n :: nodes) g =
    addDependencies vid nodes (addDependency vid n g).
Proof. done. Qed.

Lemma addDependencies_exec_state (vid : nat) (nodes : list nat)
    (g : DirectedBoostGraph) :
  exec_state_ (addDependencies vid nodes g) = exec_state_ g.
Proof.
  revert g. induction nodes as [|n nodes IH]; intros g; [done|].
  rewrite addDependencies_cons, IH. done.
Qed.

Lemma addDependencies_mtx (vid : nat) (nodes : list nat)
    (g : DirectedBoostGraph) :
  mtx_ (addDependencies vid nodes g) =
    mtx_ g ++ concat (replicate (length nodes) inner_call).
Proof.
  revert g. induction nodes as [|n nodes IH]; intros g.
  - simpl. by rewrite app_nil_r.
  - rewrite addDependencies_cons, IH. simpl.
    by rewrite <- !app_assoc.
Qed.

Lemma addDependencies_num_edges (vid : nat) (nodes : list nat)
    (g : DirectedBoostGraph) :
  num_edges (dag_ (addDependencies vid nodes g)) =
    num_edges (dag_ g) + length nodes.
Proof.
  revert g. induction nodes as [|n nodes IH]; intros g; [simpl; lia|].
  rewrite addDependencies_cons, IH. simpl. rewrite num_edges_add_edge. lia.
Qed.

Lemma addDependencies_out_edges (vid u : nat) (nodes : list nat)
    (g : DirectedBoostGraph) :
  out_edges u (dag_ (addDependencies vid nodes g)) =
    if decide (u = vid)
    then out_edges vid (dag_ g) ++ map plain_edge nodes
    else out_edges u (dag_ g).
Proof.
  revert g. induction nodes as [|n nodes IH]; intros g.
  - simpl. case_decide; [subst; by rewrite app_nil_r|done].
  - rewrite addDependencies_cons, IH. simpl. unfold add_edge.
    rewrite !out_edges_add_edge_w.
    repeat case_decide; try done. by rewrite <- app_assoc.
Qed.

Lemma addDependencies_length (vid : nat) (nodes : list nat)
    (g : DirectedBoostGraph) :
  length (dag_ g) ≤ length (dag_ (addDependencies vid nodes g)).
Proof.
  revert g. induction nodes as [|n nodes IH]; intros g; [done|].
  rewrite addDependencies_cons. etrans; [|apply IH].
  simpl. unfold add_edge. rewrite length_add_edge_w. lia.
Qed.

Lemma addDependencies_lookup_ne (vid u : nat) (nodes : list nat)
    (g : DirectedBoostGraph) :
  u ≠ vid → u < length (dag_ g) →
  dag_ (addDependencies vid nodes g) !! u = dag_ g !! u.
Proof.
  revert g. induction nodes as [|n nodes IH]; intros g Hne Hlt; [done|].
  rewrite addDependencies_cons, IH; [|done|].
  - simpl. unfold add_edge. by apply lookup_add_edge_w_ne.
  - simpl. unfold add_edge. rewrite length_add_edge_w. lia.
Qed.

(** What the loop over the input operands does to a graph. *)
Lemma addOperation_inputs_spec (vid : nat) (inputs : list Tensor)
    (g : DirectedBoostGraph) :
  ∃ g', addOperation_inputs vid inputs g = Some g' ∧
    exec_state_ g' =
      foldl (λ es Ti, registerTensorRead es Ti vid) (exec_state_ g) inputs ∧
    (∀ u, out_edges u (dag_ g') =
       if decide (u = vid)
       then out_edges vid (dag_ g) ++
              map plain_edge (input_hazards (exec_state_ g) vid inputs)
       else out_edges u (dag_ g)) ∧
    (∀ u, u ≠ vid → u < length (dag_ g) → dag_ g' !! u = dag_ g !! u) ∧
    length (dag_ g) ≤ length (dag_ g') ∧
    mtx_ g' = mtx_ g ++
      concat (replicate (length (input_hazards (exec_state_ g) vid inputs))
                inner_call) ∧
    num_edges (dag_ g') =
      num_edges (dag_ g) + length (input_hazards (exec_state_ g) vid inputs).
Proof.
  revert g. induction inputs as [|Ti inputs IH]; intros g.
  - exists g. simpl. split_and!; try done.
    + intros u. case_decide; [subst; by rewrite app_nil_r|done].
    + by rewrite app_nil_r.
  - simpl. unfold input_hazard.
    destruct (getTensorEpochNodes (exec_state_ g) Ti) as [nodes epoch] eqn:E.
    simpl. destruct (Z.ltb_spec epoch 0) as [Hneg|Hpos].
    + destruct (write_epoch_single_writer (exec_state_ g) Ti) as (w & Hw & Hn).
      { by rewrite E. }
      rewrite E in Hn. simpl in Hn. subst nodes. rewrite Hw. simpl.
      edestruct IH as (g' & -> & Hes & Hout & Hlk & Hlen & Hmtx & Hnum).
      exists g'. split; [done|]. simpl in *.
      rewrite num_edges_add_edge in Hnum.
      unfold add_edge in *. split_and!.
      * done.
      * intros u. rewrite Hout, !out_edges_add_edge_w.
        repeat case_decide; try done. by rewrite <- app_assoc.
      * intros u Hne Hlt. rewrite Hlk; [|done|].
        -- by apply lookup_add_edge_w_ne.
        -- rewrite length_add_edge_w. lia.
      * rewrite length_add_edge_w in Hlen. lia.
      * rewrite Hmtx. by rewrite <- !app_assoc.
      * lia.
    + simpl.
      edestruct IH as (g' & -> & Hes & Hout & Hlk & Hlen & Hmtx & Hnum).
      exists g'. split; [done|]. simpl in *. done.
Qed.

Lemma out_edges_fresh_vertex (g : list DirectedBoostVertex)
    (p : option TensorOpNode) (u : nat) :
  out_edges u
    (alter (λ sv, {| m_out_edges := m_out_edges sv; properties := p |})
       (length g) (g ++ [empty_vertex])) = out_edges u g.
Proof.
  unfold out_edges. destruct (decide (u = length g)) as [->|Hne].
  - rewrite list_lookup_alter_eq, lookup_app_r by lia.
    rewrite Nat.sub_diag. simpl. by rewrite (lookup_ge_None_2 g).
  - rewrite list_lookup_alter_ne by done.
    destruct (decide (u < length g)).
    + by rewrite lookup_app_l.
    + rewrite lookup_app_r by lia. rewrite (lookup_ge_None_2 g) by lia.
      destruct (u - length g) as [|k] eqn:E; [lia|done].
Qed.

(** What one call of [addOperation] does to the graph. *)
Lemma addOperation_spec (opc : N) (T0 : Tensor)
    (inputs : list Tensor) (g : DirectedBoostGraph) :
  let op := mkTensorOperation opc (T0 :: inputs) in
  let v := num_vertices (dag_ g) in
  let es := exec_state_ g in
  ∃ g', addOperation op g = Some (v, g') ∧
    out_edges v (dag_ g') =
      map plain_edge (output_hazards es T0 ++
                      input_hazards (registerTensorWrite es T0 v) v inputs) ∧
    (∀ u, u ≠ v → out_edges u (dag_ g') = out_edges u (dag_ g)) ∧
    (∀ u, u < v → dag_ g' !! u = dag_ g !! u) ∧
    exec_state_ g' = registered es v T0 inputs ∧
    events_since g g' =
      locked_with_calls
        (length (output_hazards es T0 ++
                 input_hazards (registerTensorWrite es T0 v) v inputs)) ∧
    num_edges (dag_ g') =
      num_edges (dag_ g) +
        length (output_hazards es T0 ++
                input_hazards (registerTensorWrite es T0 v) v inputs).
Proof.
  intros op v es. subst op v es. unfold num_vertices.
  unfold addOperation, add_vertex. simpl.
  unfold output_hazards, registered.
  destruct (getTensorEpochNodes (exec_state_ g) T0) as [nodes epoch] eqn:E.
  simpl. rewrite drop_0.
  match goal with
  | |- context [addOperation_inputs _ inputs ?g1] =>
      destruct (addOperation_inputs_spec (length (dag_ g)) inputs g1)
        as (g' & -> & Hes & Hout & Hlk & Hlen & Hmtx & Hnum)
  end.
  exists (unlock g'). simpl. split; [done|].
  destruct nodes as [nodes|]; simpl in *.
  - rewrite addDependencies_exec_state in *. simpl in *.
    split_and!.
    + rewrite Hout, decide_True by done.
      rewrite addDependencies_out_edges, decide_True by done. simpl.
      rewrite out_edges_fresh_vertex.
      unfold out_edges. rewrite (lookup_ge_None_2 (dag_ g)) by lia.
      simpl. by rewrite map_app.
    + intros u Hu. rewrite Hout, decide_False by done.
      rewrite addDependencies_out_edges, decide_False by done. simpl.
      apply out_edges_fresh_vertex.
    + intros u Hu.
      rewrite Hlk; [|lia|].
      * rewrite addDependencies_lookup_ne; [|lia|].
        -- simpl. rewrite list_lookup_alter_ne by lia.
           by rewrite lookup_app_l.
        -- simpl. rewrite length_alter, length_app. lia.
      * eapply Nat.lt_le_trans; [|apply addDependencies_length].
        simpl. rewrite length_alter, length_app. lia.
    + done.
    + unfold events_since, unlock. simpl.
      rewrite Hmtx, addDependencies_mtx. simpl.
      rewrite <- !app_assoc, drop_app_length. simpl.
      unfold locked_with_calls.
      by rewrite length_app, replicate_add, concat_app, <- app_assoc.
    + rewrite Hnum, addDependencies_num_edges. simpl.
      rewrite num_edges_alter_properties, num_edges_app, length_app.
      unfold num_edges at 2. simpl. lia.
  - split_and!.
    + rewrite Hout, decide_True by done.
      rewrite out_edges_fresh_vertex.
      unfold out_edges. by rewrite (lookup_ge_None_2 (dag_ g)) by lia.
    + intros u Hu. rewrite Hout, decide_False by done.
      apply out_edges_fresh_vertex.
    + intros u Hu.
      rewrite Hlk; [|lia|].
      * rewrite list_lookup_alter_ne by lia. by rewrite lookup_app_l.
      * rewrite length_alter, length_app. simpl. lia.
    + done.
    + unfold events_since, unlock. simpl. rewrite Hmtx. simpl.
      rewrite <- !app_assoc, drop_app_length. done.
    + rewrite Hnum. simpl.
      rewrite num_edges_alter_properties, num_edges_app.
      unfold num_edges at 2. simpl. lia.
Qed.

(** ** The hazard tracker and the uses it was told *)

Lemma uses_of_snoc (h : N) (hist : list (N * Use)) (x : N * Use) :
  uses_of h (hist ++ [x]) =
    if decide (x.1 = h) then x.2 :: uses_of h hist else uses_of h hist.
Proof.
  unfold uses_of. rewrite reverse_snoc, filter_cons.
  case_decide; [by rewrite fmap_cons|done].
Qed.

Lemma recorded_snoc (hist : list (N * Use)) (x : N * Use) :
  recorded (hist ++ [x]) = record_use (recorded hist) x.
Proof. unfold recorded. by rewrite foldl_snoc. Qed.

Lemma add_reader_nonempty (v : nat) (l : list nat) : add_reader v l ≠ [].
Proof.
  unfold add_reader. case_bool_decide as Hv.
  - intros ->. by apply not_elem_of_nil in Hv.
  - by destruct l.
Qed.

(** The two maps of the tracker hold the epoch of every tensor. *)
Lemma recorded_lookup (hist : list (N * Use)) (h : N) :
  writer (recorded hist) !! h = epoch_writer (uses_of h hist) ∧
  readers (recorded hist) !! h =
    match uses_of h hist with
    | ReadBy _ :: _ => Some (epoch_readers (uses_of h hist))
    | _ => None
    end.
Proof.
  induction hist as [|[h' u] hist [IHw IHr]] using rev_ind; [done|].
  rewrite recorded_snoc, uses_of_snoc. unfold record_use. simpl.
  destruct u as [v|v]; simpl.
  - case_decide as Hh.
    + subst h'. by rewrite lookup_insert_eq, lookup_delete_eq.
    + by rewrite lookup_insert_ne, lookup_delete_ne.
  - case_decide as Hh.
    + subst h'. rewrite lookup_delete_eq, lookup_insert_eq. rewrite IHr.
      split; [done|]. simpl. by destruct (uses_of h hist) as [|[]].
    + by rewrite lookup_delete_ne, lookup_insert_ne.
Qed.

Lemma getTensorEpochNodes_recorded (hist : list (N * Use)) (T : Tensor) :
  getTensorEpochNodes (recorded hist) T =
    match uses_of (getTensorHash T) hist with
    | [] => (None, 0%Z)
    | Wrote w :: _ => (Some [w], (-1)%Z)
    | ReadBy _ :: _ =>
        (Some (epoch_nodes (uses_of (getTensorHash T) hist)),
         Z.of_nat (length (epoch_nodes (uses_of (getTensorHash T) hist))))
    end.
Proof.
  unfold getTensorEpochNodes.
  destruct (recorded_lookup hist (getTensorHash T)) as [-> ->].
  destruct (uses_of (getTensorHash T) hist) as [|[w|v] us]; [done..|].
  simpl. pose proof (add_reader_nonempty v (epoch_readers us)) as Hne.
  by destruct (add_reader v (epoch_readers us)).
Qed.

Lemma output_hazards_recorded (hist : list (N * Use)) (T0 : Tensor) :
  output_hazards (recorded hist) T0 = waw_war_hazards hist T0.
Proof.
  unfold output_hazards, waw_war_hazards.
  rewrite getTensorEpochNodes_recorded.
  by destruct (uses_of (getTensorHash T0) hist) as [|[w|v] us].
Qed.

Lemma input_hazard_recorded (hist : list (N * Use)) (Ti : Tensor) :
  input_hazard (recorded hist) Ti =
    option_list (epoch_writer (uses_of (getTensorHash Ti) hist)).
Proof.
  unfold input_hazard. rewrite getTensorEpochNodes_recorded.
  destruct (recorded_lookup hist (getTensorHash Ti)) as [-> _].
  destruct (uses_of (getTensorHash Ti) hist) as [|[w|v] us]; [done..|].
  simpl. by destruct (Z.ltb_spec (Z.of_nat (length (add_reader v
    (epoch_readers us)))) 0); [lia|].
Qed.

Lemma registerTensorRead_recorded (hist : list (N * Use)) (Ti : Tensor)
    (v : nat) :
  registerTensorRead (recorded hist) Ti v =
    recorded (hist ++ [(getTensorHash Ti, ReadBy v)]).
Proof. by rewrite recorded_snoc. Qed.

Lemma registerTensorWrite_recorded (hist : list (N * Use)) (T0 : Tensor)
    (v : nat) :
  registerTensorWrite (recorded hist) T0 v =
    recorded (hist ++ [(getTensorHash T0, Wrote v)]).
Proof. by rewrite recorded_snoc. Qed.

Lemma input_hazards_recorded (hist : list (N * Use)) (v : nat)
    (inputs : list Tensor) :
  input_hazards (recorded hist) v inputs = raw_hazards hist v inputs.
Proof.
  revert hist. induction inputs as [|Ti inputs IH]; intros hist; [done|].
  simpl. by rewrite input_hazard_recorded, registerTensorRead_recorded, IH.
Qed.

Lemma registerTensorReads_recorded (hist : list (N * Use)) (v : nat)
    (inputs : list Tensor) :
  foldl (λ es Ti, registerTensorRead es Ti v) (recorded hist) inputs =
    recorded (hist ++ map (λ Ti, (getTensorHash Ti, ReadBy v)) inputs).
Proof.
  revert hist. induction inputs as [|Ti inputs IH]; intros hist; simpl.
  - by rewrite app_nil_r.
  - rewrite registerTensorRead_recorded, IH. by rewrite <- app_assoc.
Qed.

Lemma registered_recorded (hist : list (N * Use)) (v : nat) (T0 : Tensor)
    (inputs : list Tensor) :
  registered (recorded hist) v T0 inputs =
    recorded (hist ++ uses_of_operation v T0 inputs).
Proof.
  unfold registered, uses_of_operation.
  rewrite registerTensorWrite_recorded, registerTensorReads_recorded.
  by rewrite <- app_assoc.
Qed.

(** C1. The edges [addOperation] inserts for an operation with output
    operand [T0] and input operands [inputs] are exactly these: from the
    new vertex [v], one edge to every node that [getTensorEpochNodes]
    returns for [T0], then, input by input, one edge to the single writer
    when the input is in a write epoch and none when it is in a read epoch;
    no other vertex gets an edge. In terms of the uses [hist] the tracker
    was told, the nodes returned for [T0] are its last writer when its
    most recent use is that write (write after write) and the readers
    since its last write otherwise (write after read); an input adds the
    last writer of its tensor when no read followed that write (read after
    write). The output is registered as written by [v] and each input as
    read by [v]. *)
Theorem addOperation_hazard_edges (hist : list (N * Use)) (opc : N)
    (T0 : Tensor) (inputs : list Tensor) (g : DirectedBoostGraph) :
  exec_state_ g = recorded hist →
  let op := mkTensorOperation opc (T0 :: inputs) in
  let v := num_vertices (dag_ g) in
  let es := exec_state_ g in
  ∃ g', addOperation op g = Some (v, g') ∧
    out_edges v (dag_ g') =
      map plain_edge (output_hazards es T0 ++
                      input_hazards (registerTensorWrite es T0 v) v inputs) ∧
    output_hazards es T0 = waw_war_hazards hist T0 ∧
    input_hazards (registerTensorWrite es T0 v) v inputs =
      raw_hazards (hist ++ [(getTensorHash T0, Wrote v)]) v inputs ∧
    (∀ u, u ≠ v → out_edges u (dag_ g') = out_edges u (dag_ g)) ∧
    (∀ u, u < v → dag_ g' !! u = dag_ g !! u) ∧
    exec_state_ g' = registered es v T0 inputs ∧
    exec_state_ g' = recorded (hist ++ uses_of_operation v T0 inputs).
Proof.
  intros Hes op v es.
  destruct (addOperation_spec opc T0 inputs g)
    as (g' & H1 & H2 & H3 & H4 & H5 & _).
  exists g'. subst es. rewrite Hes in *.
  split_and!; [done|done| | |done|done|done|].
  - apply output_hazards_recorded.
  - by rewrite registerTensorWrite_recorded, input_hazards_recorded.
  - by rewrite H5, registered_recorded.
Qed.

(** The write-after-read chain: vertex 3, the second writer of X, gets
    the readers 1 and 2 as its dependees. *)
Lemma addOperation_hazard_edges_witness :
  exec_state_ (graph_after war_chain) =
    recorded (uses_of_operations 0 war_chain) ∧
  ∃ g', addOperation war_chain_writer (graph_after war_chain)
          = Some (3, g') ∧
        adjacent_vertices 3 (dag_ g') = [1; 2] ∧
        (∀ u, u < 3 → dag_ g' !! u = dag_ (graph_after war_chain) !! u).
Proof.
  assert (exec_state_ (graph_after war_chain) =
            recorded (uses_of_operations 0 war_chain)) as H
    by (vm_compute; reflexivity).
  split; [exact H|].
  destruct (addOperation_hazard_edges (uses_of_operations 0 war_chain) 0
              (mkTensor 1) [] (graph_after war_chain) H)
    as (g' & Hadd & Hout & Hwaw & Hraw & _ & Hold & _).
  assert (num_vertices (dag_ (graph_after war_chain)) = 3) as E
    by (vm_compute; reflexivity).
  rewrite E in Hadd, Hout, Hraw, Hold.
  exists g'. split_and!.
  - exact Hadd.
  - unfold adjacent_vertices. rewrite Hout, Hwaw, Hraw.
    vm_compute. reflexivity.
  - exact Hold.
Defined.

(** The three hazard scenarios: the dependees of every vertex after the
    streams "A writes X, B writes X", "A writes X, B reads X" and "W
    writes X, A reads X, B reads X, C writes X". *)
Example hazard_scenarios :
  (printIt (graph_after [mkTensorOperation 0 [mkTensor 1];
                         mkTensorOperation 0 [mkTensor 1]])).1
    = [(0, []); (1, [0])] ∧
  (printIt (graph_after [mkTensorOperation 0 [mkTensor 1];
                         mkTensorOperation 0 [mkTensor 2; mkTensor 1]])).1
    = [(0, []); (1, [0])] ∧
  (printIt (graph_after (war_chain ++ [war_chain_writer]))).1
    = [(0, []); (1, [0]); (2, []); (3, [1; 2])].
Proof. split_and!; vm_compute; reflexivity. Qed.

(** ** An operand that is both output and input *)

Lemma input_hazard_writer (es : TensorExecState) (T : Tensor) (w : nat) :
  writer es !! getTensorHash T = Some w → input_hazard es T = [w].
Proof.
  intros Hw. unfold input_hazard, getTensorEpochNodes. by rewrite Hw.
Qed.

Lemma input_hazards_writer (es : TensorExecState) (v w : nat) (T : Tensor)
    (inputs : list Tensor) :
  writer es !! getTensorHash T = Some w → T ∈ inputs →
  w ∈ input_hazards es v inputs.
Proof.
  revert es. induction inputs as [|Ti inputs IH]; intros es Hw Hin.
  - by apply not_elem_of_nil in Hin.
  - simpl. apply elem_of_app.
    destruct (decide (getTensorHash Ti = getTensorHash T)) as [Heq|Hne].
    + left. rewrite (input_hazard_writer es Ti w) by (by rewrite Heq).
      by left.
    + right. apply elem_of_cons in Hin as [->|Hin]; [done|].
      apply IH; [|done]. simpl. by rewrite lookup_delete_ne.
Qed.

(** The new vertex becomes its own dependee when the output operand is
    among the inputs. *)
Lemma aliased_operand_self_edge (opc : N) (T0 : Tensor)
    (inputs : list Tensor) (g : DirectedBoostGraph) :
  T0 ∈ inputs →
  ∃ g', addOperation (mkTensorOperation opc (T0 :: inputs)) g
          = Some (num_vertices (dag_ g), g') ∧
        (dependencyExists (num_vertices (dag_ g)) (num_vertices (dag_ g)) g').1
          = true.
Proof.
  intros Hin.
  destruct (addOperation_spec opc T0 inputs g) as (g' & Hadd & Hout & _).
  exists g'. split; [done|]. simpl.
  unfold edge, adjacent_vertices. apply bool_decide_eq_true_2.
  rewrite Hout. apply list_elem_of_fmap.
  exists (plain_edge (num_vertices (dag_ g))). split; [done|].
  apply list_elem_of_fmap_2, elem_of_app. right.
  apply input_hazards_writer with T0; [|done].
  simpl. by rewrite lookup_insert_eq.
Qed.

(** C8. Evaluation of the code on an operation whose output tensor is also
    one of its inputs: [addOperation] does insert the edge from the new
    vertex to itself, so the property claimed (no self-edge) fails. *)
Theorem addOperation_inserts_self_edge (opc : N) (T0 : Tensor)
    (inputs : list Tensor) (g : DirectedBoostGraph) :
  T0 ∈ inputs →
  ∃ g', addOperation (mkTensorOperation opc (T0 :: inputs)) g
          = Some (num_vertices (dag_ g), g') ∧
        (dependencyExists (num_vertices (dag_ g)) (num_vertices (dag_ g)) g').1
          = true.
Proof. apply aliased_operand_self_edge. Qed.

Lemma addOperation_inserts_self_edge_witness :
  mkTensor 7 ∈ [mkTensor 7] ∧
  ∃ g', addOperation (mkTensorOperation 0 [mkTensor 7; mkTensor 7]) empty_graph
          = Some (0, g') ∧
        (dependencyExists 0 0 g').1 = true.
Proof.
  split.
  - left.
  - apply (addOperation_inserts_self_edge 0 (mkTensor 7) [mkTensor 7]
             empty_graph). left.
Defined.

(** ** Edges of a graph made by [addOperation] alone *)

Lemma addDependencies_length_eq (vid : nat) (nodes : list nat)
    (g : DirectedBoostGraph) :
  vid < length (dag_ g) → Forall (λ t, t < length (dag_ g)) nodes →
  length (dag_ (addDependencies vid nodes g)) = length (dag_ g).
Proof.
  revert g. induction nodes as [|n nodes IH]; intros g Hvid Hall; [done|].
  apply Forall_cons_1 in Hall as [Hn Hall].
  assert (length (dag_ (addDependency vid n g)) = length (dag_ g)) as E.
  { simpl. unfold add_edge. rewrite length_add_edge_w. lia. }
  rewrite addDependencies_cons, IH; rewrite ?E; done.
Qed.

Lemma addOperation_inputs_length (vid : nat) (inputs : list Tensor)
    (g g' : DirectedBoostGraph) :
  addOperation_inputs vid inputs g = Some g' →
  vid < length (dag_ g) →
  (∀ h w, writer (exec_state_ g) !! h = Some w → w < length (dag_ g)) →
  length (dag_ g') = length (dag_ g).
Proof.
  revert g. induction inputs as [|Ti inputs IH]; intros g Hg' Hvid Hw.
  - simpl in Hg'. by simplify_eq.
  - simpl in Hg'.
    destruct (getTensorEpochNodes (exec_state_ g) Ti) as [nodes epoch] eqn:E.
    destruct (Z.ltb_spec epoch 0) as [Hneg|Hpos].
    + destruct (write_epoch_single_writer (exec_state_ g) Ti)
        as (w & Hwr & Hn); [by rewrite E|].
      rewrite E in Hn. simpl in Hn. subst nodes. simpl in Hg'.
      apply IH in Hg'; simpl in *; unfold add_edge in *;
        rewrite ?length_add_edge_w in *.
      * specialize (Hw _ _ Hwr). lia.
      * lia.
      * intros h w' Hw'. apply lookup_delete_Some in Hw' as [_ Hw'].
        specialize (Hw _ _ Hw'). lia.
    + simpl in Hg'. apply IH in Hg'; simpl in *; [done|done|].
      intros h w' Hw'. apply lookup_delete_Some in Hw' as [_ Hw'].
      by eapply Hw.
Qed.

Lemma output_hazards_bounded (n : nat) (es : TensorExecState) (T : Tensor) :
  es_bounded n es → Forall (λ t, t < n) (output_hazards es T).
Proof.
  intros [Hw Hr]. unfold output_hazards, getTensorEpochNodes.
  destruct (writer es !! getTensorHash T) as [w|] eqn:Ew; simpl.
  - constructor; [by eapply Hw|constructor].
  - destruct (readers es !! getTensorHash T) as [[|r rs]|] eqn:Er; simpl;
      [constructor| |constructor].
    apply Forall_forall. intros t Ht. by eapply Hr.
Qed.

Lemma input_hazards_bounded (es : TensorExecState) (v : nat)
    (inputs : list Tensor) :
  (∀ h w, writer es !! h = Some w → w ≤ v) →
  Forall (λ t, t ≤ v) (input_hazards es v inputs).
Proof.
  revert es. induction inputs as [|Ti inputs IH]; intros es Hw; simpl;
    [constructor|].
  apply Forall_app. split; [|apply IH].
  - unfold input_hazard. destruct (_ <? _)%Z; [|constructor].
    destruct (writer es !! getTensorHash Ti) as [w|] eqn:E; simpl;
      [|constructor].
    constructor; [by eapply Hw|constructor].
  - intros h w Hlk. simpl in Hlk. apply lookup_delete_Some in Hlk as [_ Hlk].
    by eapply Hw.
Qed.

Lemma add_reader_elem (v r : nat) (l : list nat) :
  r ∈ add_reader v l → r = v ∨ r ∈ l.
Proof.
  unfold add_reader. case_bool_decide; [by right|].
  intros Hr. apply elem_of_app in Hr as [?|Hr]; [by right|].
  left. by apply list_elem_of_singleton in Hr.
Qed.

Lemma registered_bounded (n : nat) (es : TensorExecState) (T0 : Tensor)
    (inputs : list Tensor) :
  es_bounded n es → es_bounded (S n) (registered es n T0 inputs).
Proof.
  intros [Hw Hr]. unfold registered.
  assert (es_bounded (S n) (registerTensorWrite es T0 n)) as Hes.
  { split; simpl.
    - intros h w Hlk. apply lookup_insert_Some in Hlk as [[_ <-]|[_ Hlk]];
        [lia|]. specialize (Hw _ _ Hlk). lia.
    - intros h l r Hlk Hin. apply lookup_delete_Some in Hlk as [_ Hlk].
      specialize (Hr _ _ _ Hlk Hin). lia. }
  clear Hw Hr. revert Hes. generalize (registerTensorWrite es T0 n).
  induction inputs as [|Ti inputs IH]; intros es' Hes; [done|].
  simpl. apply IH. destruct Hes as [Hw Hr]. split; simpl.
  { intros h w Hlk. apply lookup_delete_Some in Hlk as [_ Hlk].
    by eapply Hw. }
  intros h l r Hlk Hin.
  apply lookup_insert_Some in Hlk as [[_ <-]|[_ Hlk]]; [|by eapply Hr].
  apply add_reader_elem in Hin as [->|Hin]; [lia|].
  destruct (readers es' !! getTensorHash Ti) as [l'|] eqn:E; simpl in Hin.
  - by eapply Hr.
  - by apply not_elem_of_nil in Hin.
Qed.

(** With a hazard tracker that names only vertices of the graph, one
    [addOperation] adds exactly one vertex. *)
Lemma addOperation_num_vertices (opc : N) (T0 : Tensor)
    (inputs : list Tensor) (g g1 : DirectedBoostGraph) (v : nat) :
  es_bounded (length (dag_ g)) (exec_state_ g) →
  addOperation (mkTensorOperation opc (T0 :: inputs)) g = Some (v, g1) →
  length (dag_ g1) = S (length (dag_ g)).
Proof.
  intros Hes Hadd.
  unfold addOperation, add_vertex in Hadd. simpl in Hadd.
  pose proof (output_hazards_bounded _ _ T0 Hes) as Hb.
  unfold output_hazards in Hb.
  destruct (getTensorEpochNodes (exec_state_ g) T0) as [nodes epoch].
  rewrite drop_0 in Hadd. simpl in Hb.
  match type of Hadd with
  | context [addOperation_inputs _ inputs ?g0] =>
      destruct (addOperation_inputs _ inputs g0) as [g2|] eqn:Hin;
        [|done]
  end.
  simpl in Hadd. simplify_eq. simpl.
  destruct Hes as [Hw _].
  destruct nodes as [nodes|]; simpl in *.
  - match type of Hin with
    | context [addDependencies ?v ?ns ?g0] =>
        assert (length (dag_ (addDependencies v ns g0))
                  = S (length (dag_ g))) as E1
    end.
    { rewrite addDependencies_length_eq; simpl;
        rewrite ?length_alter, ?length_app; simpl; try lia.
      eapply Forall_impl; [exact Hb|]. simpl. lia. }
    apply addOperation_inputs_length in Hin; simpl in *.
    + by rewrite Hin, E1.
    + rewrite E1. lia.
    + intros h w Hlk. rewrite E1.
      rewrite addDependencies_exec_state in Hlk. simpl in Hlk.
      apply lookup_insert_Some in Hlk as [[_ <-]|[_ Hlk]]; [lia|].
      specialize (Hw _ _ Hlk). lia.
  - apply addOperation_inputs_length in Hin; simpl in *;
      rewrite ?length_alter, ?length_app in *; simpl in *.
    + lia.
    + lia.
    + intros h w Hlk.
      apply lookup_insert_Some in Hlk as [[_ <-]|[_ Hlk]]; [lia|].
      specialize (Hw _ _ Hlk). lia.
Qed.

(** In a graph made by [addOperation] alone no edge points forward: a
    dependee is never younger than its dependent. *)
Lemma built_graph_ordered (g : DirectedBoostGraph) :
  built_by_addOperation g → graph_ordered g.
Proof.
  induction 1 as [|op g v g' Hbuilt [Hes Hedges] Hadd].
  - split; [split|]; simpl.
    + intros h w Hlk. by rewrite lookup_empty in Hlk.
    + intros h l r Hlk. by rewrite lookup_empty in Hlk.
    + intros u t Ht. by apply not_elem_of_nil in Ht.
  - destruct op as [opc [|T0 inputs]]; [done|].
    destruct (addOperation_spec opc T0 inputs g)
      as (g1 & Hadd1 & Hout & Hother & _ & Hreg & _).
    pose proof (addOperation_num_vertices _ _ _ _ _ _ Hes Hadd) as Hlen.
    rewrite Hadd in Hadd1. simplify_eq. unfold num_vertices in *.
    split.
    + rewrite Hlen, Hreg. by apply registered_bounded.
    + intros u t Ht. unfold adjacent_vertices in *.
      destruct (decide (u = length (dag_ g))) as [->|Hne].
      * rewrite Hout in Ht.
        apply list_elem_of_fmap in Ht as ([t' wt] & -> & Ht).
        apply list_elem_of_fmap in Ht as (t'' & [= <- _] & Ht). simpl.
        apply elem_of_app in Ht as [Ht|Ht].
        -- pose proof (output_hazards_bounded _ _ T0 Hes) as Hb.
           rewrite Forall_forall in Hb. specialize (Hb _ Ht). lia.
        -- assert (Forall (λ t, t ≤ length (dag_ g))
                     (input_hazards
                        (registerTensorWrite (exec_state_ g) T0
                           (length (dag_ g))) (length (dag_ g)) inputs)) as Hb.
           { apply input_hazards_bounded. intros h w Hlk. simpl in Hlk.
             apply lookup_insert_Some in Hlk as [[_ <-]|[_ Hlk]]; [lia|].
             destruct Hes as [Hw _]. specialize (Hw _ _ Hlk). lia. }
           rewrite Forall_forall in Hb. by apply Hb.
      * rewrite Hother in Ht by done. by apply Hedges.
Qed.

(** X6. On a graph made by [addOperation] alone, [dependencyExists(a, b)]
    holds only for [b <= a]: an edge never points to a younger vertex, and
    an edge from a vertex to itself is the only one that does not point to
    an older one. *)
Lemma built_graph_dependency_le (g : DirectedBoostGraph) (a b : nat) :
  built_by_addOperation g → (dependencyExists a b g).1 = true → b ≤ a.
Proof.
  intros Hbuilt Hdep. destruct (built_graph_ordered g Hbuilt) as [_ Hedges].
  simpl in Hdep. unfold edge in Hdep.
  apply bool_decide_eq_true_1 in Hdep. by apply Hedges.
Qed.

(** C2. Evaluation of the code on the graph made by one [addOperation] of
    an in-place update: the graph is built by [addOperation] alone and
    vertex 0 depends on itself, so [dependencyExists(a, b)] does not force
    [b < a]. *)
Theorem built_graph_self_dependency :
  ∃ g, built_by_addOperation g ∧
       (dependencyExists 0 0 g).1 = true ∧ ¬ 0 < 0.
Proof.
  destruct (aliased_operand_self_edge 0 (mkTensor 7) [mkTensor 7] empty_graph)
    as (g' & Hadd & Hdep); [left|].
  exists g'. split_and!.
  - eapply built_add; [apply built_empty|exact Hadd].
  - exact Hdep.
  - lia.
Qed.

(** ** Further properties of the dependency graph *)

(** X1. [addDependency(a, b)] makes [dependencyExists(a, b)] true, puts [b]
    at the end of the dependencies of [a], and changes the answer for no
    other pair of vertices. *)
Theorem addDependency_lookup (a b a' b' : nat) (g : DirectedBoostGraph) :
  (dependencyExists a' b' (addDependency a b g)).1 =
    (if decide (a' = a ∧ b' = b) then true
     else (dependencyExists a' b' g).1) ∧
  (getNeighborList a' (addDependency a b g)).1 =
    (if decide (a' = a) then (getNeighborList a g).1 ++ [b]
     else (getNeighborList a' g).1).
Proof.
  simpl. unfold edge, adjacent_vertices, add_edge.
  rewrite out_edges_add_edge_w. split.
  - destruct (decide (a' = a)) as [->|Hne].
    + rewrite fmap_app. simpl. case_decide as Hc.
      * destruct Hc as [_ ->]. apply bool_decide_eq_true_2.
        apply elem_of_app. right. by left.
      * apply bool_decide_ext. rewrite elem_of_app, list_elem_of_singleton.
        split; [|by left]. intros [?|?]; [done|]. by destruct Hc.
    + rewrite decide_False by (by intros [? _]). done.
  - case_decide; [subst; by rewrite fmap_app|done].
Qed.

(** X2. Every [addDependency] adds one edge, also when the edge is there
    already, and the graph grows to hold the larger of the two ids when it
    is not a vertex yet. *)
Theorem addDependency_counts (a b : nat) (g : DirectedBoostGraph) :
  (getNumDependencies (addDependency a b g)).1
    = S (getNumDependencies g).1 ∧
  (getNumNodes (addDependency a b g)).1
    = (getNumNodes g).1 `max` S (a `max` b) ∧
  (getNumDependencies (addDependency a b (addDependency a b g))).1
    = S (S (getNumDependencies g).1).
Proof.
  simpl. split_and!.
  - apply num_edges_add_edge.
  - unfold num_vertices, add_edge. by rewrite length_add_edge_w.
  - by rewrite !num_edges_add_edge.
Qed.

(** ** Operation streams *)

Lemma addDependencies_same_graph (vid : nat) (nodes : list nat)
    (g1 g2 : DirectedBoostGraph) :
  same_graph g1 g2 →
  same_graph (addDependencies vid nodes g1) (addDependencies vid nodes g2).
Proof.
  revert g1 g2. induction nodes as [|n nodes IH]; intros g1 g2 Hs; [done|].
  rewrite !addDependencies_cons. apply IH.
  destruct Hs as [Hd He]. split; simpl; congruence.
Qed.

Lemma addOperation_inputs_same_graph (vid : nat) (inputs : list Tensor)
    (g1 g2 : DirectedBoostGraph) :
  same_graph g1 g2 →
  match addOperation_inputs vid inputs g1,
        addOperation_inputs vid inputs g2 with
  | Some h1, Some h2 => same_graph h1 h2
  | None, None => True
  | _, _ => False
  end.
Proof.
  revert g1 g2. induction inputs as [|Ti inputs IH]; intros g1 g2 Hs;
    [done|].
  simpl. destruct Hs as [Hd He]. rewrite <- He.
  destruct (getTensorEpochNodes (exec_state_ g1) Ti) as [nodes epoch].
  destruct (epoch <? 0)%Z.
  - destruct nodes as [nodes|]; simpl; [|done].
    apply IH.
    destruct (addDependencies_same_graph vid nodes g1 g2) as [Hd' He'];
      [done|].
    split; simpl; congruence.
  - simpl. apply IH. split; simpl; congruence.
Qed.

Lemma same_graph_set_dag f (g1 g2 : DirectedBoostGraph) :
  same_graph g1 g2 → same_graph (set_dag f g1) (set_dag f g2).
Proof. intros [Hd He]. split; simpl; congruence. Qed.

Lemma same_graph_set_exec_state f (g1 g2 : DirectedBoostGraph) :
  same_graph g1 g2 →
  same_graph (set_exec_state f g1) (set_exec_state f g2).
Proof. intros [Hd He]. split; simpl; congruence. Qed.

Lemma same_graph_lock (g1 g2 : DirectedBoostGraph) :
  same_graph g1 g2 → same_graph (lock g1) (lock g2).
Proof. intros [Hd He]. by split. Qed.

Lemma same_graph_unlock (g1 g2 : DirectedBoostGraph) :
  same_graph g1 g2 → same_graph (unlock g1) (unlock g2).
Proof. intros [Hd He]. by split. Qed.

Lemma addOperation_same_graph (op : TensorOperation)
    (g1 g2 : DirectedBoostGraph) :
  same_graph g1 g2 →
  same_outcome (addOperation op g1) (addOperation op g2).
Proof.
  intros Hs. pose proof Hs as [Hd He].
  unfold addOperation, add_vertex. simpl. rewrite <- Hd, <- He.
  destruct (getTensorOperand op 0) as [T0|]; simpl; [|done].
  destruct (getTensorEpochNodes (exec_state_ g1) T0) as [nodes epoch].
  match goal with
  | |- same_outcome (addOperation_inputs ?v ?ins ?h1 ≫= _)
                    (addOperation_inputs ?v ?ins ?h2 ≫= _) =>
      assert (same_graph h1 h2) as Hh
  end.
  { apply same_graph_set_exec_state.
    destruct nodes as [nodes|].
    - by apply addDependencies_same_graph, same_graph_set_dag,
        same_graph_set_dag, same_graph_lock.
    - by apply same_graph_set_dag, same_graph_set_dag, same_graph_lock. }
  apply (addOperation_inputs_same_graph (length (dag_ g1))
           (drop 1 (operands_ op))) in Hh.
  destruct (addOperation_inputs _ _ _) as [h1|],
           (addOperation_inputs _ _ _) as [h2|]; simpl; try done.
Qed.

Lemma addOperations_same_graph (ops : list TensorOperation)
    (g1 g2 : DirectedBoostGraph) :
  same_graph g1 g2 →
  same_outcome (addOperations ops g1) (addOperations ops g2).
Proof.
  revert g1 g2. induction ops as [|op ops IH]; intros g1 g2 Hs; [done|].
  simpl. pose proof (addOperation_same_graph op g1 g2 Hs) as Hop.
  destruct (addOperation op g1) as [[v1 h1]|],
           (addOperation op g2) as [[v2 h2]|]; simpl in *; try done.
  destruct Hop as [-> Hh]. specialize (IH h1 h2 Hh).
  destruct (addOperations ops h1) as [[vs1 k1]|],
           (addOperations ops h2) as [[vs2 k2]|]; simpl in *; try done.
  destruct IH as [-> Hk]. done.
Qed.

(** X3. [clear()] followed by a stream of operations gives the vertex ids,
    the vertices and edges and the hazard records that the same stream
    gives on a new graph; it fails where that one fails. *)
Theorem clear_then_replay (ops : list TensorOperation)
    (g : DirectedBoostGraph) :
  same_outcome (addOperations ops (clear g))
               (addOperations ops empty_graph).
Proof. apply addOperations_same_graph. by split. Qed.

Lemma addOperations_built (ops : list TensorOperation)
    (g g' : DirectedBoostGraph) (vs : list nat) :
  built_by_addOperation g → addOperations ops g = Some (vs, g') →
  built_by_addOperation g'.
Proof.
  revert g vs. induction ops as [|op ops IH]; intros g vs Hb Hops;
    simpl in Hops.
  - by simplify_eq.
  - destruct (addOperation op g) as [[v h]|] eqn:Hop; [|done].
    simpl in Hops.
    destruct (addOperations ops h) as [[vs' k]|] eqn:Hrest; [|done].
    simpl in Hops. simplify_eq.
    eapply IH; [|done]. by eapply built_add.
Qed.

(** X4. On a graph made by [addOperation] alone, a stream of operations that
    all have an output operand is accepted whole; the ids returned are the
    next free ones in order, and [getNumNodes] grows by the number of
    operations: no id is skipped and no other vertex appears. *)
Theorem addOperations_dense_ids (ops : list TensorOperation)
    (g : DirectedBoostGraph) :
  built_by_addOperation g →
  Forall (λ op, operands_ op ≠ []) ops →
  ∃ g', addOperations ops g
          = Some (seq (getNumNodes g).1 (length ops), g') ∧
        (getNumNodes g').1 = (getNumNodes g).1 + length ops.
Proof.
  simpl. unfold num_vertices. revert g.
  induction ops as [|op ops IH]; intros g Hb Hall.
  - exists g. simpl. split; [done|lia].
  - apply Forall_cons_1 in Hall as [Hop Hall].
    destruct op as [opc [|T0 inputs]]; [done|].
    destruct (addOperation_spec opc T0 inputs g) as (h & Hadd & _).
    pose proof (built_graph_ordered g Hb) as [Hes _].
    pose proof (addOperation_num_vertices _ _ _ _ _ _ Hes Hadd) as Hlen.
    destruct (IH h) as (g' & Hrest & Hn); [by eapply built_add|done|].
    exists g'. simpl in *. rewrite Hadd. simpl. rewrite Hlen in Hrest, Hn.
    rewrite Hrest. simpl. split; [done|lia].
Qed.

Lemma addOperations_dense_ids_witness :
  built_by_addOperation empty_graph ∧
  Forall (λ op, operands_ op ≠ []) write_then_read ∧
  ∃ g', addOperations write_then_read empty_graph
          = Some (seq (getNumNodes empty_graph).1 (length write_then_read), g')
        ∧ (getNumNodes g').1
          = (getNumNodes empty_graph).1 + length write_then_read.
Proof.
  assert (Forall (λ op, operands_ op ≠ []) write_then_read) as H2.
  { repeat constructor; intros H; discriminate H. }
  split_and!; [exact built_empty|exact H2|].
  exact (addOperations_dense_ids write_then_read empty_graph built_empty H2).
Defined.

(** ** The graph of a stream of operations *)

Lemma addOperations_app (ops1 ops2 : list TensorOperation)
    (g : DirectedBoostGraph) :
  addOperations (ops1 ++ ops2) g =
    '(vs1, g1) ← addOperations ops1 g;
    '(vs2, g2) ← addOperations ops2 g1;
    Some (vs1 ++ vs2, g2).
Proof.
  revert g. induction ops1 as [|op ops1 IH]; intros g; simpl.
  - by destruct (addOperations ops2 g) as [[vs2 g2]|].
  - destruct (addOperation op g) as [[v h]|]; simpl; [|done].
    rewrite IH. destruct (addOperations ops1 h) as [[vs1 g1]|]; simpl;
      [|done].
    by destruct (addOperations ops2 g1) as [[vs2 g2]|].
Qed.

Lemma uses_of_operations_app (v : nat) (ops1 ops2 : list TensorOperation) :
  uses_of_operations v (ops1 ++ ops2) =
    uses_of_operations v ops1 ++
    uses_of_operations (v + length ops1) ops2.
Proof.
  revert v. induction ops1 as [|op ops1 IH]; intros v; simpl.
  - by rewrite Nat.add_0_r.
  - rewrite IH, <- app_assoc. do 3 f_equal. lia.
Qed.

(** X5. A stream of operations that all have an output operand, submitted
    to a new graph, gives the graph of its hazards: the operations become
    the vertices 0, 1, 2, ... in order, and the dependees of vertex [k]
    are, in this order, the last writer of its output before [k] when no
    read followed that write, or else the readers of its output since its
    last write, and then for each input the last writer of that input
    when no read followed that write, the uses of vertex [k] itself
    counting. The tracker ends up holding the uses of the stream. *)
Theorem addOperations_hazard_graph (ops : list TensorOperation) :
  Forall (λ op, operands_ op ≠ []) ops →
  ∃ g, addOperations ops empty_graph = Some (seq 0 (length ops), g) ∧
       (getNumNodes g).1 = length ops ∧
       exec_state_ g = recorded (uses_of_operations 0 ops) ∧
       ∀ k opc T0 inputs,
         ops !! k = Some (mkTensorOperation opc (T0 :: inputs)) →
         (getNeighborList k g).1 =
           waw_war_hazards (uses_of_operations 0 (take k ops)) T0 ++
           raw_hazards (uses_of_operations 0 (take k ops) ++
                        [(getTensorHash T0, Wrote k)]) k inputs.
Proof.
  induction ops as [|op ops IH] using rev_ind; intros Hall.
  - exists empty_graph. split_and!; [done..|].
    intros k opc T0 inputs Hk. done.
  - apply Forall_app in Hall as [Hall Hop].
    apply Forall_cons_1 in Hop as [Hop _].
    destruct (IH Hall) as (g & Hrun & Hn & Hes & Hadj). clear IH.
    simpl in Hn. unfold num_vertices in Hn.
    destruct op as [opc [|T0 inputs]]; [done|].
    destruct (addOperation_spec opc T0 inputs g)
      as (g' & Hadd & Hout & _ & Hold & Hreg & _).
    unfold num_vertices in *. rewrite Hn in *.
    assert (built_by_addOperation g) as Hb.
    { eapply addOperations_built; [apply built_empty|exact Hrun]. }
    pose proof (built_graph_ordered g Hb) as [Hbound _].
    pose proof (addOperation_num_vertices _ _ _ _ _ _ Hbound Hadd) as Hlen.
    exists g'. rewrite addOperations_app, Hrun. simpl. rewrite Hadd. simpl.
    rewrite length_app, seq_app. simpl.
    split_and!; [done|unfold num_vertices; lia| |].
    + rewrite Hreg, Hes, registered_recorded, uses_of_operations_app.
      simpl. by rewrite app_nil_r.
    + intros k opc' T0' inputs' Hk. unfold adjacent_vertices.
      destruct (decide (k < length ops)) as [Hlt|Hge].
      * rewrite lookup_app_l in Hk by done.
        rewrite take_app_le by lia.
        specialize (Hadj k opc' T0' inputs' Hk). simpl in Hadj.
        unfold adjacent_vertices in Hadj. rewrite <- Hadj.
        unfold out_edges. by rewrite Hold.
      * pose proof (lookup_lt_Some _ _ _ Hk) as Hk'.
        rewrite length_app in Hk'. simpl in Hk'.
        assert (k = length ops) as -> by lia.
        rewrite list_lookup_middle in Hk by done. simplify_eq.
        rewrite take_app_length, Hout, Hes.
        rewrite output_hazards_recorded, registerTensorWrite_recorded,
          input_hazards_recorded.
        rewrite <- list_fmap_compose. by rewrite list_fmap_id.
Qed.

Lemma addOperations_hazard_graph_witness :
  Forall (λ op, operands_ op ≠ []) (war_chain ++ [war_chain_writer]) ∧
  ∃ g, addOperations (war_chain ++ [war_chain_writer]) empty_graph
         = Some ([0; 1; 2; 3], g) ∧
       (getNeighborList 3 g).1 = [1; 2].
Proof.
  assert (Forall (λ op, operands_ op ≠ [])
            (war_chain ++ [war_chain_writer])) as H.
  { repeat constructor; intros E; discriminate E. }
  split; [exact H|].
  destruct (addOperations_hazard_graph (war_chain ++ [war_chain_writer]) H)
    as (g & Hrun & _ & _ & Hadj).
  exists g. split; [exact Hrun|].
  rewrite (Hadj 3 0%N (mkTensor 1) []); [|reflexivity].
  vm_compute. reflexivity.
Defined.
(** * Shortest paths *)

(** ** The queue *)

Lemma least_distance_elem (d : list N) (v : nat) (q : list nat) :
  ∃ u, u ∈ v :: q ∧ d !!! u = least_distance d v q.
Proof.
  revert v. induction q as [|x q IH]; intros v; simpl.
  - exists v. split; [by left|done].
  - destruct (IH x) as (u & Hu & Hd).
    destruct (N.min_spec (d !!! v) (least_distance d x q))
      as [[_ ->]|[_ ->]].
    + exists v. split; [by left|done].
    + exists u. split; [by right|done].
Qed.

Lemma least_distance_le (d : list N) (v : nat) (q : list nat) (u : nat) :
  u ∈ v :: q → (least_distance d v q ≤ d !!! u)%N.
Proof.
  revert v. induction q as [|x q IH]; intros v Hu; simpl.
  - apply list_elem_of_singleton in Hu as ->. lia.
  - apply elem_of_cons in Hu as [->|Hu]; [lia|].
    specialize (IH x Hu). lia.
Qed.

Section Queue.

Variable tie : nat → list nat → nat.

(** The top of a queue that is not empty is one of its vertices, and none
    of them is nearer. *)
Lemma queue_top_spec (turn : nat) (d : list N) (q : list nat) :
  q ≠ [] →
  ∃ u, queue_top tie turn d q = Some u ∧ u ∈ q ∧
       ∀ v, v ∈ q → (d !!! u ≤ d !!! v)%N.
Proof.
  destruct q as [|v q]; [done|]. intros _. unfold queue_top.
  set (least := filter (λ u, d !!! u = least_distance d v q) (v :: q)).
  assert (least ≠ []) as Hne.
  { destruct (least_distance_elem d v q) as (u & Hu & Hd).
    intros E. assert (u ∈ least) as Hin by (by apply list_elem_of_filter).
    rewrite E in Hin. by apply not_elem_of_nil in Hin. }
  assert (tie turn least `mod` length least < length least) as Hlt.
  { apply Nat.mod_upper_bound. by destruct least. }
  destruct (lookup_lt_is_Some_2 _ _ Hlt) as [u Hu].
  exists u. split; [done|].
  apply list_elem_of_lookup_2, list_elem_of_filter in Hu as [Hd Hin].
  split; [done|]. intros x Hx. rewrite Hd. by apply least_distance_le.
Qed.

Lemma queue_top_None (turn : nat) (d : list N) (q : list nat) :
  queue_top tie turn d q = None → q = [].
Proof.
  intros Hn. destruct q as [|v q]; [done|].
  destruct (queue_top_spec turn d (v :: q)) as (u & Hu & _); [done|].
  congruence.
Qed.

End Queue.

Lemma queue_remove_elem (u v : nat) (q : list nat) :
  v ∈ queue_remove u q → v ∈ q.
Proof.
  induction q as [|x q IH]; simpl; [done|].
  case_decide; [by right|].
  intros Hv. apply elem_of_cons in Hv as [->|Hv]; [by left|].
  right. by apply IH.
Qed.

Lemma queue_remove_elem_ne (u v : nat) (q : list nat) :
  v ∈ q → v ≠ u → v ∈ queue_remove u q.
Proof.
  induction q as [|x q IH]; simpl; [done|]. intros Hv Hne.
  apply elem_of_cons in Hv as [->|Hv].
  - rewrite decide_False by done. by left.
  - case_decide; [done|]. right. by apply IH.
Qed.

Lemma queue_remove_NoDup (u : nat) (q : list nat) :
  NoDup q → NoDup (queue_remove u q) ∧ u ∉ queue_remove u q.
Proof.
  induction q as [|x q IH]; simpl; intros Hnd.
  - split; [constructor|]. apply not_elem_of_nil.
  - apply NoDup_cons in Hnd as [Hx Hnd]. case_decide as Hxu.
    + subst. done.
    + destruct (IH Hnd) as [IH1 IH2]. split.
      * apply NoDup_cons. split; [|done].
        intros Hin. by apply Hx, (queue_remove_elem u).
      * intros Hin. apply elem_of_cons in Hin as [->|Hin]; done.
Qed.

(** ** The vertices not finished *)

Lemma pending_insert_keep (colors : list Color) (v : nat) (c c' : Color) :
  colors !! v = Some c → c ≠ Black → c' ≠ Black →
  pending (<[v := c']> colors) = pending colors.
Proof.
  revert v. induction colors as [|c0 colors IH]; intros v Hv Hc Hc'; [done|].
  destruct v as [|v]; simpl in *.
  - simplify_eq. unfold pending. rewrite !filter_cons.
    by rewrite !decide_True.
  - specialize (IH v Hv Hc Hc'). unfold pending in *.
    rewrite !filter_cons. case_decide; simpl; by rewrite ?IH.
Qed.

Lemma pending_insert_black (colors : list Color) (v : nat) (c : Color) :
  colors !! v = Some c → c ≠ Black →
  S (pending (<[v := Black]> colors)) = pending colors.
Proof.
  revert v. induction colors as [|c0 colors IH]; intros v Hv Hc; [done|].
  destruct v as [|v]; simpl in *.
  - simplify_eq. unfold pending. rewrite !filter_cons.
    rewrite (decide_True (P := c ≠ Black)) by done.
    by rewrite decide_False by (intros H; by apply H).
  - specialize (IH v Hv Hc). unfold pending in *.
    rewrite !filter_cons. case_decide; simpl; by rewrite <- ?IH.
Qed.

Lemma pending_le_length (colors : list Color) :
  pending colors ≤ length colors.
Proof. unfold pending. apply length_filter. Qed.

(** ** One turn of the search *)

Lemma relax_target_inv (n s u v : nat) (w : Q) (st : DijkstraState) :
  dijkstra_inv n s st → u < n →
  dijkstra_inv n s (relax_target u v w st).2 ∧
  color (relax_target u v w st).2 = color st ∧
  queue (relax_target u v w st).2 = queue st.
Proof.
  intros (Hd & Hp & Hc & Hs0 & Hps & Hpn & Hnd & Hgray) Hu.
  unfold relax_target.
  destruct (N.ltb_spec (closed_plus (dist st !!! u) (size_t_of_double w))
              (dist st !!! v)) as [Hlt|Hge]; simpl; [|done].
  split; [|done]. unfold dijkstra_inv. simpl.
  assert (v ≠ s) as Hvs.
  { intros ->. rewrite (list_lookup_total_correct _ _ _ Hs0) in Hlt. lia. }
  rewrite !length_insert, !list_lookup_insert_ne by done.
  split_and!; try done.
  apply Forall_insert; done.
Qed.

Lemma examine_edge_inv (n s u : nat) (st : DijkstraState) (e : nat * Q) :
  dijkstra_inv n s st → u < n → u ∉ queue st →
  color st !! u = Some Gray → e.1 < n →
  dijkstra_inv n s (examine_edge u st e) ∧
  (u ∉ queue (examine_edge u st e)) ∧
  color (examine_edge u st e) !! u = Some Gray ∧
  pending (color (examine_edge u st e)) = pending (color st).
Proof.
  intros Hinv Hu Hq Hcu Hv. destruct e as [v w]. simpl in Hv.
  destruct (relax_target_inv n s u v w st Hinv Hu) as (Hinv' & Hc' & Hq').
  unfold examine_edge.
  pose proof Hinv as (_ & _ & Hlen & _).
  destruct (lookup_lt_is_Some_2 (color st) v) as [c Hcv]; [lia|].
  rewrite (list_lookup_total_correct _ _ _ Hcv).
  destruct c.
  - destruct Hinv' as (Hd & Hp & Hc & Hs0 & Hps & Hpn & Hnd & Hgray).
    assert (v ≠ u) as Hvu by (intros ->; congruence).
    assert (v ∉ queue st) as Hvq.
    { intros Hin. rewrite Hq', Hc' in Hgray.
      rewrite Forall_forall in Hgray. specialize (Hgray v Hin). congruence. }
    unfold dijkstra_inv. simpl. rewrite Hc', Hq' in *.
    rewrite length_insert. split_and!; try done.
    + apply NoDup_app. split_and!; [done| |apply NoDup_singleton].
      intros x Hx Hx'. apply list_elem_of_singleton in Hx'. by subst.
    + apply Forall_app. split.
      * eapply Forall_impl; [exact Hgray|]. intros x Hx. simpl in Hx.
        destruct (decide (x = v)) as [->|Hne]; [congruence|].
        by rewrite list_lookup_insert_ne.
      * constructor; [|constructor].
        apply list_lookup_insert_eq. lia.
    + intros Hin. apply elem_of_app in Hin as [?|Hin]; [done|].
      apply list_elem_of_singleton in Hin. done.
    + by rewrite list_lookup_insert_ne.
    + by apply pending_insert_keep with White.
  - rewrite Hc', Hq'. done.
  - done.
Qed.

Lemma examine_edges_inv (n s u : nat) (edges : list (nat * Q))
    (st : DijkstraState) :
  dijkstra_inv n s st → u < n → u ∉ queue st →
  color st !! u = Some Gray → Forall (λ e, e.1 < n) edges →
  dijkstra_inv n s (foldl (examine_edge u) st edges) ∧
  (u ∉ queue (foldl (examine_edge u) st edges)) ∧
  color (foldl (examine_edge u) st edges) !! u = Some Gray ∧
  pending (color (foldl (examine_edge u) st edges)) = pending (color st).
Proof.
  revert st. induction edges as [|e edges IH];
    intros st Hinv Hu Hq Hcu Hall; [done|].
  apply Forall_cons_1 in Hall as [He Hall].
  destruct (examine_edge_inv n s u st e) as (H1 & H2 & H3 & H4); [done..|].
  simpl. destruct (IH (examine_edge u st e)) as (K1 & K2 & K3 & K4);
    [done..|].
  split_and!; [done..|]. by rewrite K4.
Qed.

Lemma out_edges_in_range (g : list DirectedBoostVertex) (u : nat) :
  targets_in_range g → Forall (λ e, e.1 < length g) (out_edges u g).
Proof.
  intros Hg. unfold out_edges.
  destruct (g !! u) as [sv|] eqn:E; [|constructor].
  unfold targets_in_range in Hg. rewrite Forall_forall in Hg.
  apply Hg. by eapply list_elem_of_lookup_2.
Qed.

(** The turn that examines a queued vertex keeps the maps in shape and
    finishes one vertex. *)
Lemma examine_vertex_inv (g : list DirectedBoostVertex) (s u : nat)
    (st : DijkstraState) :
  targets_in_range g → dijkstra_inv (length g) s st → u ∈ queue st →
  dijkstra_inv (length g) s (examine_vertex g u st) ∧
  S (pending (color (examine_vertex g u st))) = pending (color st).
Proof.
  intros Hg Hinv Hu.
  pose proof Hinv as (Hd & Hp & Hc & Hs0 & Hps & Hpn & Hnd & Hgray).
  assert (color st !! u = Some Gray) as Hcu.
  { rewrite Forall_forall in Hgray. by apply Hgray. }
  assert (u < length g) as Hun.
  { rewrite <- Hc. by eapply lookup_lt_Some. }
  destruct (queue_remove_NoDup u (queue st) Hnd) as [Hnd' Hnotin].
  unfold examine_vertex.
  set (st1 := {| dist := dist st; predecessor := predecessor st;
                 color := color st;
                 queue := queue_remove u (queue st) |}).
  assert (dijkstra_inv (length g) s st1) as Hinv1.
  { unfold dijkstra_inv. simpl. split_and!; try done.
    apply Forall_forall. intros x Hx.
    rewrite Forall_forall in Hgray.
    by apply Hgray, (queue_remove_elem u). }
  destruct (examine_edges_inv (length g) s u (out_edges u g) st1)
    as (K1 & K2 & K3 & K4); try done.
  { by apply out_edges_in_range. }
  set (st2 := foldl (examine_edge u) st1 (out_edges u g)) in *.
  split.
  - destruct K1 as (Kd & Kp & Kc & Ks0 & Kps & Kpn & Knd & Kgray).
    unfold dijkstra_inv. simpl. rewrite length_insert.
    split_and!; try done.
    apply Forall_forall. intros x Hx. rewrite Forall_forall in Kgray.
    rewrite list_lookup_insert_ne; [by apply Kgray|].
    intros <-. done.
  - simpl. rewrite (pending_insert_black _ _ _ K3) by done.
    by rewrite K4.
Qed.

Section Search.

Variable tie : nat → list nat → nat.

(** The search over a graph of [n] vertices ends within as many turns as
    there are vertices not finished, and keeps its maps in shape. *)
Lemma dijkstra_visit_ends (fuel turn s : nat) (g : list DirectedBoostVertex)
    (st : DijkstraState) :
  targets_in_range g → dijkstra_inv (length g) s st →
  pending (color st) ≤ fuel →
  ∃ st', dijkstra_visit tie fuel turn g st = Some st' ∧
         dijkstra_inv (length g) s st'.
Proof.
  intros Hg. revert turn st.
  induction fuel as [|fuel IH]; intros turn st Hinv Hfuel.
  - destruct (queue st) as [|v q] eqn:Eq.
    + exists st. simpl. unfold queue_top. rewrite Eq. done.
    + destruct Hinv as (_ & _ & _ & _ & _ & _ & _ & Hgray).
      rewrite Eq in Hgray. apply Forall_cons_1 in Hgray as [Hv _].
      pose proof (pending_insert_black _ _ _ Hv ltac:(done)) as Hp. lia.
  - simpl. destruct (queue_top tie turn (dist st) (queue st)) as [u|] eqn:Et.
    + assert (u ∈ queue st) as Hu.
      { destruct (queue_top_spec tie turn (dist st) (queue st))
          as (u' & Hu' & Hin & _).
        - intros E. rewrite E in Et. done.
        - congruence. }
      destruct (examine_vertex_inv g s u st Hg Hinv Hu) as [Hinv' Hp].
      apply IH; [done|lia].
    + by exists st.
Qed.


Lemma initial_dijkstra_inv (n s : nat) :
  s < n →
  dijkstra_inv n s
    {| dist := <[s := 0%N]> (replicate n distance_inf);
       predecessor := seq 0 n;
       color := <[s := Gray]> (replicate n White);
       queue := [s] |}.
Proof.
  intros Hs. unfold dijkstra_inv. simpl.
  rewrite !length_insert, !length_replicate, length_seq.
  split_and!; try done.
  - apply list_lookup_insert_eq. by rewrite length_replicate.
  - by apply lookup_seq_lt.
  - apply Forall_forall. intros u Hu. apply elem_of_seq in Hu. lia.
  - apply NoDup_singleton.
  - constructor; [|constructor].
    apply list_lookup_insert_eq. by rewrite length_replicate.
Qed.

(** On a graph whose edges all end at vertices of the graph, the search
    from a vertex of the graph returns one distance and one predecessor
    per vertex. *)
Lemma dijkstra_shortest_paths_returns (g : list DirectedBoostVertex)
    (s : nat) :
  targets_in_range g → s < num_vertices g →
  ∃ d p, dijkstra_shortest_paths tie g s = Some (d, p) ∧
         length d = num_vertices g ∧ length p = num_vertices g.
Proof.
  intros Hr Hs. unfold dijkstra_shortest_paths, num_vertices in *.
  rewrite decide_True by done.
  destruct (dijkstra_visit_ends (length g) 0 s g
              {| dist := <[s := 0%N]> (replicate (length g) distance_inf);
                 predecessor := seq 0 (length g);
                 color := <[s := Gray]> (replicate (length g) White);
                 queue := [s] |})
    as (st' & -> & Hinv); [done|by apply initial_dijkstra_inv| |].
  - etrans; [apply pending_le_length|]. simpl.
    by rewrite length_insert, length_replicate.
  - simpl. exists (dist st'), (predecessor st').
    destruct Hinv as (Hd & Hp & _). done.
Qed.

End Search.

(** ** Edges of the default weight *)

Lemma closed_plus_default :
  closed_plus 0 (size_t_of_double default_edge_weight) = 0%N.
Proof. vm_compute. reflexivity. Qed.

Lemma adjacent_vertices_out_edges (g : list DirectedBoostVertex)
    (u v : nat) (w : Q) :
  (v, w) ∈ out_edges u g → v ∈ adjacent_vertices u g.
Proof.
  intros He. unfold adjacent_vertices. apply list_elem_of_fmap.
  by exists (v, w).
Qed.

(** Examining one edge of the default weight: a white target is
    discovered at distance 0 with [u] for predecessor; nothing changes for
    a target discovered before. *)
Lemma examine_edge_default (g : list DirectedBoostVertex) (s u : nat)
    (st : DijkstraState) (e : nat * Q) :
  dijkstra_inv (length g) s st →
  default_weight_inv g s (Some u) st →
  color st !! u = Some Gray →
  e ∈ out_edges u g → e.1 < length g → e.2 = default_edge_weight →
  default_weight_inv g s (Some u) (examine_edge u st e) ∧
  (∃ c, color (examine_edge u st e) !! e.1 = Some c ∧ c ≠ White) ∧
  (∀ v c, color st !! v = Some c → c ≠ White →
          ∃ c', color (examine_edge u st e) !! v = Some c' ∧ c' ≠ White).
Proof.
  intros Hinv (Hwhite & Hfound & Hqueue & Hblack & Hs) Hcu He Hv Hw.
  destruct e as [v w]. simpl in Hv, Hw. subst w.
  pose proof Hinv as (Hd & Hp & Hc & _).
  destruct (Hfound u Gray Hcu ltac:(done)) as (Hdu & Hru & _).
  destruct (lookup_lt_is_Some_2 (color st) v) as [c Hcv]; [lia|].
  unfold examine_edge, relax_target.
  rewrite (list_lookup_total_correct _ _ _ Hcv).
  rewrite (list_lookup_total_correct _ _ _ Hdu).
  rewrite closed_plus_default.
  destruct c.
  - destruct (Hwhite v Hcv) as [Hdv Hpv].
    rewrite (list_lookup_total_correct _ _ _ Hdv).
    change (0 <? distance_inf)%N with true. simpl.
    assert (v ≠ s) as Hvs.
    { intros ->. destruct Hs as (c & Hc' & Hne). congruence. }
    assert (v ≠ u) as Hvu by (intros ->; congruence).
    split_and!.
    + split_and!; simpl.
      * intros x Hx. destruct (decide (x = v)) as [->|Hne].
        -- rewrite list_lookup_insert_eq in Hx by lia. done.
        -- rewrite list_lookup_insert_ne in Hx by done.
           rewrite !list_lookup_insert_ne by done. by apply Hwhite.
      * intros x c Hx Hc'. destruct (decide (x = v)) as [->|Hne].
        -- rewrite !list_lookup_insert_eq by lia.
           split_and!; [done| |done|].
           ++ eapply rtc_r; [exact Hru|].
              by eapply adjacent_vertices_out_edges.
           ++ intros _. exists u. split_and!; [done|done|].
              by eapply adjacent_vertices_out_edges.
        -- rewrite list_lookup_insert_ne in Hx by done.
           rewrite !list_lookup_insert_ne by done. by eapply Hfound.
      * intros x Hx Hxu. apply elem_of_app.
        destruct (decide (x = v)) as [->|Hne].
        -- right. by left.
        -- left. rewrite list_lookup_insert_ne in Hx by done.
           by apply Hqueue.
      * intros b x Hb Hx. destruct (decide (b = v)) as [->|Hne].
        { rewrite list_lookup_insert_eq in Hb by lia. done. }
        rewrite list_lookup_insert_ne in Hb by done.
        destruct (Hblack b x Hb Hx) as (c & Hcx & Hcw).
        destruct (decide (x = v)) as [->|Hne']; [congruence|].
        exists c. by rewrite list_lookup_insert_ne.
      * destruct Hs as (c & Hcs & Hcw). exists c.
        by rewrite list_lookup_insert_ne.
    + exists Gray. simpl. split; [|done].
      apply list_lookup_insert_eq. lia.
    + intros x c Hx Hcw. simpl.
      destruct (decide (x = v)) as [->|Hne]; [congruence|].
      exists c. by rewrite list_lookup_insert_ne.
  - destruct (Hfound v Gray Hcv ltac:(done)) as (Hdv & _).
    rewrite (list_lookup_total_correct _ _ _ Hdv).
    change (0 <? 0)%N with false. simpl.
    split_and!; [done|by exists Gray|]. intros x c Hx Hcw. by exists c.
  - split_and!; [done|by exists Black|]. intros x c Hx Hcw. by exists c.
Qed.

Lemma examine_edges_default (g : list DirectedBoostVertex) (s u : nat)
    (edges : list (nat * Q)) (st : DijkstraState) :
  dijkstra_inv (length g) s st → u ∉ queue st →
  default_weight_inv g s (Some u) st →
  color st !! u = Some Gray →
  Forall (λ e, e ∈ out_edges u g ∧ e.1 < length g ∧
               e.2 = default_edge_weight) edges →
  default_weight_inv g s (Some u) (foldl (examine_edge u) st edges) ∧
  (∀ e, e ∈ edges →
     ∃ c, color (foldl (examine_edge u) st edges) !! e.1 = Some c ∧
          c ≠ White) ∧
  (∀ v c, color st !! v = Some c → c ≠ White →
     ∃ c', color (foldl (examine_edge u) st edges) !! v = Some c' ∧
           c' ≠ White).
Proof.
  revert st. induction edges as [|e edges IH];
    intros st Hinv Hq Hz Hcu Hall.
  - simpl. split_and!; [done| |by eauto].
    intros e He. by apply not_elem_of_nil in He.
  - apply Forall_cons_1 in Hall as [(He & Hr & Hw) Hall].
    assert (u < length g) as Hu.
    { destruct Hinv as (_ & _ & Hc & _). rewrite <- Hc.
      by eapply lookup_lt_Some. }
    destruct (examine_edge_inv (length g) s u st e)
      as (H1 & H2 & H3 & _); [done..|].
    destruct (examine_edge_default g s u st e) as (K1 & K2 & K3); [done..|].
    destruct (IH (examine_edge u st e)) as (L1 & L2 & L3); [done..|].
    simpl. split_and!; [done| |].
    + intros e' He'. apply elem_of_cons in He' as [->|He']; [|by apply L2].
      destruct K2 as (c & Hc & Hcw). by eapply L3.
    + intros v c Hv Hcw. destruct (K3 v c Hv Hcw) as (c' & Hc' & Hcw').
      by eapply L3.
Qed.

Lemma out_edges_default (g : list DirectedBoostVertex) (u : nat) :
  targets_in_range g → default_weights g →
  Forall (λ e, e ∈ out_edges u g ∧ e.1 < length g ∧
               e.2 = default_edge_weight) (out_edges u g).
Proof.
  intros Hr Hw. apply Forall_forall. intros e He. split; [done|].
  pose proof (out_edges_in_range g u Hr) as Hr'.
  rewrite Forall_forall in Hr'. split; [by apply Hr'|].
  unfold out_edges in He. destruct (g !! u) as [sv|] eqn:E.
  - unfold default_weights in Hw. rewrite Forall_forall in Hw.
    specialize (Hw sv (list_elem_of_lookup_2 _ _ _ E)).
    rewrite Forall_forall in Hw. by apply Hw.
  - by apply not_elem_of_nil in He.
Qed.

(** The turn that examines a queued vertex keeps what holds of a search
    over edges of the default weight. *)
Lemma examine_vertex_default (g : list DirectedBoostVertex) (s u : nat)
    (st : DijkstraState) :
  targets_in_range g → default_weights g →
  dijkstra_inv (length g) s st → default_weight_inv g s None st →
  u ∈ queue st →
  default_weight_inv g s None (examine_vertex g u st).
Proof.
  intros Hr Hw Hinv (Hwhite & Hfound & Hqueue & Hblack & Hs) Hu.
  pose proof Hinv as (Hd & Hp & Hc & Hs0 & Hps & Hpn & Hnd & Hgray).
  assert (color st !! u = Some Gray) as Hcu.
  { rewrite Forall_forall in Hgray. by apply Hgray. }
  assert (u < length g) as Hun.
  { rewrite <- Hc. by eapply lookup_lt_Some. }
  destruct (queue_remove_NoDup u (queue st) Hnd) as [Hnd' Hnotin].
  unfold examine_vertex.
  set (st1 := {| dist := dist st; predecessor := predecessor st;
                 color := color st;
                 queue := queue_remove u (queue st) |}).
  assert (dijkstra_inv (length g) s st1) as Hinv1.
  { unfold dijkstra_inv. simpl. split_and!; try done.
    apply Forall_forall. intros x Hx.
    rewrite Forall_forall in Hgray.
    by apply Hgray, (queue_remove_elem u). }
  assert (default_weight_inv g s (Some u) st1) as Hz1.
  { split_and!; simpl; try done.
    intros v Hv Hvu. apply queue_remove_elem_ne.
    - by apply Hqueue.
    - intros ->. done. }
  destruct (examine_edges_inv (length g) s u (out_edges u g) st1)
    as (K1 & K2 & K3 & K4); try done.
  { by apply out_edges_in_range. }
  destruct (examine_edges_default g s u (out_edges u g) st1)
    as ((Lwhite & Lfound & Lqueue & Lblack & Ls) & L2 & L3); try done.
  { by apply out_edges_default. }
  set (st2 := foldl (examine_edge u) st1 (out_edges u g)) in *.
  assert (length (color st2) = length g) as Hc2 by apply K1.
  split_and!; simpl.
  - intros v Hv. destruct (decide (v = u)) as [->|Hne].
    + rewrite list_lookup_insert_eq in Hv by lia. done.
    + rewrite list_lookup_insert_ne in Hv by done. by apply Lwhite.
  - intros v c Hv Hcw. destruct (decide (v = u)) as [->|Hne].
    + by apply (Lfound u Gray).
    + rewrite list_lookup_insert_ne in Hv by done. by eapply Lfound.
  - intros v Hv _. destruct (decide (v = u)) as [->|Hne].
    + rewrite list_lookup_insert_eq in Hv by lia. done.
    + rewrite list_lookup_insert_ne in Hv by done. apply Lqueue; [done|].
      intros [= ->]. done.
  - intros b v Hb Hv.
    assert (∃ c, color st2 !! v = Some c ∧ c ≠ White) as (c & Hcv & Hcw).
    { destruct (decide (b = u)) as [->|Hne].
      - unfold adjacent_vertices in Hv.
        apply list_elem_of_fmap in Hv as (e & -> & He). by apply L2.
      - rewrite list_lookup_insert_ne in Hb by done. by eapply Lblack. }
    destruct (decide (v = u)) as [->|Hne].
    + exists Black. by rewrite list_lookup_insert_eq by lia.
    + exists c. by rewrite list_lookup_insert_ne.
  - destruct Ls as (c & Hcs & Hcw).
    destruct (decide (s = u)) as [->|Hne].
    + exists Black. by rewrite list_lookup_insert_eq by lia.
    + exists c. by rewrite list_lookup_insert_ne.
Qed.

Section SearchDefault.

Variable tie : nat → list nat → nat.

(** A search over edges of the default weight ends with an empty queue and
    with what holds between its turns. *)
Lemma dijkstra_visit_default (fuel turn s : nat)
    (g : list DirectedBoostVertex) (st st' : DijkstraState) :
  targets_in_range g → default_weights g →
  dijkstra_inv (length g) s st → default_weight_inv g s None st →
  dijkstra_visit tie fuel turn g st = Some st' →
  default_weight_inv g s None st' ∧ queue st' = [].
Proof.
  intros Hr Hw. revert turn st.
  induction fuel as [|fuel IH]; intros turn st Hinv Hz Hrun; simpl in Hrun;
    destruct (queue_top tie turn (dist st) (queue st)) as [u|] eqn:Et;
    try done.
  - simplify_eq. split; [done|]. by eapply queue_top_None.
  - assert (u ∈ queue st) as Hu.
    { destruct (queue_top_spec tie turn (dist st) (queue st))
        as (u' & Hu' & Hin & _).
      - intros E. rewrite E in Et. done.
      - congruence. }
    destruct (examine_vertex_inv g s u st Hr Hinv Hu) as [Hinv' _].
    eapply IH; [exact Hinv'| |exact Hrun].
    by apply examine_vertex_default.
  - simplify_eq. split; [done|]. by eapply queue_top_None.
Qed.

End SearchDefault.

(** When the queue is empty every vertex reached from [s] is finished. *)
Lemma default_weight_inv_reachable (g : list DirectedBoostVertex) (s v : nat)
    (st : DijkstraState) :
  default_weight_inv g s None st →
  Forall (λ v, color st !! v = Some Gray) (queue st) → queue st = [] →
  reachable g s v → color st !! v = Some Black.
Proof.
  intros (Hwhite & Hfound & Hqueue & Hblack & Hs) Hgray Hq Hreach.
  assert (∀ x c, color st !! x = Some c → c ≠ White → c = Black) as Hfin.
  { intros x c Hx Hcw. destruct c; [done| |done].
    assert (x ∈ queue st) as Hin by (by apply Hqueue).
    rewrite Hq in Hin. by apply not_elem_of_nil in Hin. }
  revert v Hreach. unfold reachable. apply rtc_ind_r.
  - destruct Hs as (c & Hc & Hcw). by rewrite Hc, (Hfin s c).
  - intros a b Hab Hstep IH.
    destruct (Hblack a b IH Hstep) as (c & Hc & Hcw).
    by rewrite Hc, (Hfin b c).
Qed.

(** ** The edges of a graph made by the public operations *)

Lemma plain_edges_within_mono (n m : nat) (g : list DirectedBoostVertex) :
  n ≤ m → plain_edges_within n g → plain_edges_within m g.
Proof.
  intros Hnm Hg. eapply Forall_impl; [exact Hg|]. intros sv Hsv.
  eapply Forall_impl; [exact Hsv|]. intros e [He1 He2]. split; [lia|done].
Qed.

Lemma plain_edges_within_replicate (n k : nat) :
  plain_edges_within n (replicate k empty_vertex).
Proof. apply Forall_replicate. constructor. Qed.

Lemma plain_edges_within_add_edge (a b : nat)
    (g : list DirectedBoostVertex) :
  plain_edges_within (length g) g →
  plain_edges_within (length (add_edge a b g)) (add_edge a b g).
Proof.
  intros Hg. unfold add_edge. rewrite length_add_edge_w.
  unfold add_edge_w, grow_to. apply Forall_alter.
  - apply Forall_app. split.
    + eapply plain_edges_within_mono; [|exact Hg]. lia.
    + apply plain_edges_within_replicate.
  - intros sv _ Hsv. simpl. apply Forall_app. split; [done|].
    constructor; [|constructor]. simpl. split; [lia|done].
Qed.

Lemma plain_edges_within_addDependencies (vid : nat) (nodes : list nat)
    (g : DirectedBoostGraph) :
  plain_edges_within (length (dag_ g)) (dag_ g) →
  plain_edges_within (length (dag_ (addDependencies vid nodes g)))
    (dag_ (addDependencies vid nodes g)).
Proof.
  revert g. induction nodes as [|n nodes IH]; intros g Hg; [done|].
  rewrite addDependencies_cons. apply IH. simpl.
  by apply plain_edges_within_add_edge.
Qed.

Lemma plain_edges_within_addOperation_inputs (vid : nat)
    (inputs : list Tensor) (g g' : DirectedBoostGraph) :
  addOperation_inputs vid inputs g = Some g' →
  plain_edges_within (length (dag_ g)) (dag_ g) →
  plain_edges_within (length (dag_ g')) (dag_ g').
Proof.
  revert g. induction inputs as [|Ti inputs IH]; intros g Hrun Hg.
  - simpl in Hrun. by simplify_eq.
  - simpl in Hrun.
    destruct (getTensorEpochNodes (exec_state_ g) Ti) as [nodes epoch].
    destruct (epoch <? 0)%Z.
    + destruct nodes as [nodes|]; [|done]. simpl in Hrun.
      apply IH in Hrun; [done|]. simpl.
      by apply plain_edges_within_addDependencies.
    + simpl in Hrun. by apply IH in Hrun.
Qed.

Lemma plain_edges_within_addOperation (op : TensorOperation) (v : nat)
    (g g' : DirectedBoostGraph) :
  addOperation op g = Some (v, g') →
  plain_edges_within (length (dag_ g)) (dag_ g) →
  plain_edges_within (length (dag_ g')) (dag_ g').
Proof.
  intros Hadd Hg. unfold addOperation, add_vertex in Hadd. simpl in Hadd.
  destruct (getTensorOperand op 0) as [T0|]; [|done]. simpl in Hadd.
  destruct (getTensorEpochNodes (exec_state_ g) T0) as [nodes epoch].
  match type of Hadd with
  | context [addOperation_inputs _ _ ?g0] =>
      destruct (addOperation_inputs _ _ g0) as [g2|] eqn:Hin; [|done];
      assert (plain_edges_within (length (dag_ g0)) (dag_ g0)) as Hg0
  end.
  { assert (plain_edges_within (S (length (dag_ g)))
              (alter (λ sv, {| m_out_edges := m_out_edges sv;
                               properties :=
                                 Some (setId (mkTensorOpNode op 0)
                                         (length (dag_ g))) |})
                 (length (dag_ g)) (dag_ g ++ [empty_vertex]))) as Hg1.
    { apply Forall_alter.
      - apply Forall_app. split.
        + eapply plain_edges_within_mono; [|exact Hg]. lia.
        + apply (plain_edges_within_replicate _ 1).
      - intros sv _ Hsv. done. }
    destruct nodes as [nodes|]; simpl.
    - apply (plain_edges_within_addDependencies _ _
               (set_dag _ (set_dag _ (lock g)))).
      simpl. by rewrite length_alter, length_app, Nat.add_1_r.
    - by rewrite length_alter, length_app, Nat.add_1_r. }
  apply plain_edges_within_addOperation_inputs in Hin; [|done].
  simpl in Hadd. by simplify_eq.
Qed.

(** Every edge of a graph made by the public operations ends at a vertex
    of the graph and has the default weight. *)
Lemma built_graph_plain_edges (g : DirectedBoostGraph) :
  built_by_public_operations g →
  targets_in_range (dag_ g) ∧ default_weights (dag_ g).
Proof.
  intros Hb.
  assert (plain_edges_within (length (dag_ g)) (dag_ g)) as Hg.
  { induction Hb as [|op g v g' _ IH Hadd|a b g _ IH|g _ IH|g g' _ IH Hd _].
    - constructor.
    - by eapply plain_edges_within_addOperation.
    - simpl. by apply plain_edges_within_add_edge.
    - constructor.
    - by rewrite Hd. }
  split.
  - eapply Forall_impl; [exact Hg|]. intros sv Hsv.
    eapply Forall_impl; [exact Hsv|]. by intros e [He _].
  - eapply Forall_impl; [exact Hg|]. intros sv Hsv.
    eapply Forall_impl; [exact Hsv|]. by intros e [_ He].
Qed.

Lemma addOperations_public (ops : list TensorOperation) (ids : list nat)
    (g g' : DirectedBoostGraph) :
  addOperations ops g = Some (ids, g') →
  built_by_public_operations g → built_by_public_operations g'.
Proof.
  revert ids g. induction ops as [|op ops IH]; intros ids g Hrun Hb.
  - simpl in Hrun. by simplify_eq.
  - simpl in Hrun. destruct (addOperation op g) as [[v g1]|] eqn:E1; [|done].
    simpl in Hrun.
    destruct (addOperations ops g1) as [[vs g2]|] eqn:E2; [|done].
    simpl in Hrun. simplify_eq.
    eapply IH; [exact E2|]. by eapply public_addOperation.
Qed.

Lemma graph_after_public (ops : list TensorOperation) :
  built_by_public_operations (graph_after ops).
Proof.
  unfold graph_after.
  destruct (addOperations ops empty_graph) as [[ids g]|] eqn:E.
  - eapply addOperations_public; [exact E|]. apply public_new.
  - apply public_new.
Qed.

(** ** The result of [computeShortestPath] *)

Lemma double_of_size_t_0 : double_of_size_t 0 = 0%Q.
Proof. reflexivity. Qed.

Lemma double_of_size_t_inf : double_of_size_t distance_inf = unreached.
Proof. vm_compute. reflexivity. Qed.

Section ShortestPathResults.

Variable tie : nat → list nat → nat.

(** Over edges of the default weight the search from [s] gives distance 0
    to every vertex reached from [s], with a predecessor on a path from
    [s], and leaves every other vertex at [inf], its own predecessor. *)
Lemma computeShortestPath_default_weights (s : nat) (ds : list Q)
    (ps : list nat) (g : DirectedBoostGraph) :
  targets_in_range (dag_ g) → default_weights (dag_ g) →
  s < num_vertices (dag_ g) →
  ∃ d p g',
    computeShortestPath tie s ds ps g = Some (ds ++ d, ps ++ p, g') ∧
    length d = num_vertices (dag_ g) ∧ length p = num_vertices (dag_ g) ∧
    dag_ g' = dag_ g ∧ exec_state_ g' = exec_state_ g ∧
    (∀ i, reachable (dag_ g) s i →
       d !! i = Some 0%Q ∧
       (i = s → p !! i = Some s) ∧
       (i ≠ s → ∃ u, p !! i = Some u ∧ reachable (dag_ g) s u ∧
                     i ∈ adjacent_vertices u (dag_ g))) ∧
    (∀ i, i < num_vertices (dag_ g) → ¬ reachable (dag_ g) s i →
       d !! i = Some unreached ∧ p !! i = Some i).
Proof.
  intros Hr Hw Hs. unfold computeShortestPath, dijkstra_shortest_paths.
  unfold num_vertices in *. simpl. rewrite decide_True by done.
  set (n := length (dag_ g)) in *.
  set (st0 := {| dist := <[s := 0%N]> (replicate n distance_inf);
                 predecessor := seq 0 n;
                 color := <[s := Gray]> (replicate n White);
                 queue := [s] |}).
  assert (dijkstra_inv n s st0) as Hinv0 by (by apply initial_dijkstra_inv).
  assert (default_weight_inv (dag_ g) s None st0) as Hz0.
  { split_and!; simpl.
    - intros v Hv. destruct (decide (v = s)) as [->|Hne].
      + rewrite list_lookup_insert_eq in Hv by (by rewrite length_replicate).
        done.
      + rewrite list_lookup_insert_ne in Hv by done.
        apply lookup_replicate in Hv as [_ Hv].
        rewrite list_lookup_insert_ne by done.
        split; [by apply lookup_replicate|by apply lookup_seq_lt].
    - intros v c Hv Hc. destruct (decide (v = s)) as [->|Hne].
      + split_and!; [|apply rtc_refl| |done].
        * apply list_lookup_insert_eq. by rewrite length_replicate.
        * intros _. by apply lookup_seq_lt.
      + rewrite list_lookup_insert_ne in Hv by done.
        apply lookup_replicate in Hv as [-> _]. done.
    - intros v Hv _. destruct (decide (v = s)) as [->|Hne]; [by left|].
      rewrite list_lookup_insert_ne in Hv by done.
      by apply lookup_replicate in Hv as [? _].
    - intros b v Hb _. destruct (decide (b = s)) as [->|Hne].
      + rewrite list_lookup_insert_eq in Hb by (by rewrite length_replicate).
        done.
      + rewrite list_lookup_insert_ne in Hb by done.
        by apply lookup_replicate in Hb as [? _].
    - exists Gray. split; [|done].
      apply list_lookup_insert_eq. by rewrite length_replicate. }
  destruct (dijkstra_visit_ends tie n 0 s (dag_ g) st0) as (st' & Hrun & Hinv);
    [done|done| |].
  { etrans; [apply pending_le_length|]. simpl.
    by rewrite length_insert, length_replicate. }
  destruct (dijkstra_visit_default tie n 0 s (dag_ g) st0 st')
    as [Hz Hq]; [done..|].
  rewrite Hrun. simpl.
  exists (double_of_size_t <$> dist st'), (predecessor st'). eexists.
  split; [done|]. rewrite length_fmap.
  pose proof Hinv as (Hd & Hp & Hc & _ & _ & _ & _ & Hgray).
  split_and!; [done..| |].
  - intros i Hi.
    pose proof (default_weight_inv_reachable _ _ _ _ Hz Hgray Hq Hi) as Hb.
    destruct Hz as (_ & Hfound & _).
    destruct (Hfound i Black Hb ltac:(done)) as (Hdi & _ & Hps & Hpi).
    rewrite list_lookup_fmap, Hdi. done.
  - intros i Hi Hnr. destruct Hz as (Hwhite & Hfound & _).
    destruct (lookup_lt_is_Some_2 (color st') i) as [c Hci]; [lia|].
    destruct c.
    + destruct (Hwhite i Hci) as [Hdi Hpi].
      rewrite list_lookup_fmap, Hdi. simpl.
      by rewrite double_of_size_t_inf.
    + by destruct (Hfound i Gray Hci ltac:(done)) as (_ & ? & _).
    + by destruct (Hfound i Black Hci ltac:(done)) as (_ & ? & _).
Qed.

End ShortestPathResults.

(** C7 (amended). On every graph made by the public operations, whose
    edges all come from [addDependency] and carry the weight 0 of an edge
    made without one, [computeShortestPath(start, d, p)] from a vertex of
    the graph pushes one entry per vertex in the order of the vertex ids
    behind what the two vectors held. A vertex reached from the start has
    distance 0, whatever the number of edges on the way; the start is its
    own predecessor, and the predecessor of another vertex reached is a
    vertex reached from the start with an edge to it. A vertex not reached
    has the distance [2^64], the [double] of the largest [size_t], and is
    its own predecessor. This holds for every order in which the queue
    hands out vertices of equal distance; which of several possible
    predecessors is recorded depends on that order. *)
Theorem computeShortestPath_built_graph (tie : nat → list nat → nat)
    (s : nat) (ds : list Q) (ps : list nat) (g : DirectedBoostGraph) :
  built_by_public_operations g → s < num_vertices (dag_ g) →
  ∃ d p g',
    computeShortestPath tie s ds ps g = Some (ds ++ d, ps ++ p, g') ∧
    length d = num_vertices (dag_ g) ∧ length p = num_vertices (dag_ g) ∧
    dag_ g' = dag_ g ∧ exec_state_ g' = exec_state_ g ∧
    (∀ i, reachable (dag_ g) s i →
       d !! i = Some 0%Q ∧
       (i = s → p !! i = Some s) ∧
       (i ≠ s → ∃ u, p !! i = Some u ∧ reachable (dag_ g) s u ∧
                     i ∈ adjacent_vertices u (dag_ g))) ∧
    (∀ i, i < num_vertices (dag_ g) → ¬ reachable (dag_ g) s i →
       d !! i = Some unreached ∧ p !! i = Some i).
Proof.
  intros Hb Hs. destruct (built_graph_plain_edges g Hb) as [Hr Hw].
  by apply computeShortestPath_default_weights.
Qed.

Lemma computeShortestPath_built_graph_witness :
  built_by_public_operations built_diamond ∧
  0 < num_vertices (dag_ built_diamond) ∧
  ∃ d p g',
    computeShortestPath first_queued 0 [7%Q] [9] built_diamond
      = Some ([7%Q] ++ d, [9] ++ p, g') ∧
    length d = 4 ∧ length p = 4 ∧ p !! 0 = Some 0.
Proof.
  assert (built_by_public_operations built_diamond) as H1
    by (repeat apply public_addDependency; apply graph_after_public).
  assert (0 < num_vertices (dag_ built_diamond)) as H2 by (vm_compute; lia).
  split_and!; [exact H1|exact H2|].
  destruct (computeShortestPath_built_graph first_queued 0 [7%Q] [9]
              built_diamond H1 H2)
    as (d & p & g' & Hrun & Hd & Hp & _ & _ & Hreach & _).
  exists d, p, g'. split_and!; [exact Hrun|exact Hd|exact Hp|].
  destruct (Hreach 0) as (_ & H0 & _); [apply rtc_refl|].
  by apply H0.
Defined.

(** C7, as claimed, fails. The diamond 0->1, 0->2, 1->3, 2->3 can only be
    made with [addDependency], which gives no weight to an edge; every
    edge then has the weight 0, not 1, and the distances from vertex 0
    are [0, 0, 0, 0], not [0, 1, 5, 2], whatever the order of the
    queue. *)
Lemma computeShortestPath_built_diamond :
  (printIt built_diamond).1 = [(0, [1; 2]); (1, [3]); (2, [3]); (3, [])] ∧
  out_edges 0 (dag_ built_diamond) = [(1, 0%Q); (2, 0%Q)] ∧
  (∀ tie, ∃ p g',
     computeShortestPath tie 0 [] [] built_diamond
       = Some ([0; 0; 0; 0]%Q, p, g')) ∧
  [0; 0; 0; 0]%Q ≠ [0; 1; 5; 2]%Q.
Proof.
  split_and!; [vm_compute; reflexivity..| |done].
  intros tie.
  destruct (built_graph_plain_edges built_diamond) as [Hr Hw].
  { repeat apply public_addDependency. apply graph_after_public. }
  destruct (computeShortestPath_default_weights tie 0 [] [] built_diamond)
    as (d & p & g' & Hrun & Hd & Hp & _ & _ & Hreach & _);
    [done|done|vm_compute; lia|].
  exists p, g'. rewrite Hrun. simpl. repeat f_equal.
  assert (reachable (dag_ built_diamond) 0 0) as R0 by apply rtc_refl.
  assert (reachable (dag_ built_diamond) 0 1) as R1.
  { eapply rtc_r; [exact R0|].
    apply (bool_decide_unpack _). vm_compute. exact I. }
  assert (reachable (dag_ built_diamond) 0 2) as R2.
  { eapply rtc_r; [exact R0|].
    apply (bool_decide_unpack _). vm_compute. exact I. }
  assert (reachable (dag_ built_diamond) 0 3) as R3.
  { eapply rtc_r; [exact R1|].
    apply (bool_decide_unpack _). vm_compute. exact I. }
  destruct (Hreach 0 R0) as [E0 _]. destruct (Hreach 1 R1) as [E1 _].
  destruct (Hreach 2 R2) as [E2 _]. destruct (Hreach 3 R3) as [E3 _].
  change (num_vertices (dag_ built_diamond)) with 4 in Hd.
  destruct d as [|a [|b [|c [|e [|]]]]]; simpl in Hd; try lia.
  simpl in E0, E1, E2, E3. by simplify_eq.
Qed.

(** On the diamond the predecessor recorded for vertex 3 is 1 when the
    queue hands out the vertex queued first, and 2 when it hands out the
    one queued last. *)
Example built_diamond_predecessors :
  fst <$> computeShortestPath first_queued 0 [] [] built_diamond
    = Some ([0; 0; 0; 0]%Q, [0; 0; 0; 1]) ∧
  fst <$> computeShortestPath last_queued 0 [] [] built_diamond
    = Some ([0; 0; 0; 0]%Q, [0; 0; 0; 2]) ∧
  fst <$> computeShortestPath first_queued 0 [] [] built_diamond'
    = Some ([0; 0; 0; 0]%Q, [0; 0; 0; 2]).
Proof. split_and!; vm_compute; reflexivity. Qed.

(** A vertex that is not reached: from vertex 3 of the diamond only
    vertex 3 itself has a distance. *)
Example built_diamond_unreached :
  fst <$> computeShortestPath first_queued 3 [] [] built_diamond
    = Some ([unreached; unreached; unreached; 0%Q], [0; 1; 2; 3]).
Proof. vm_compute. reflexivity. Qed.

(** * The mutex of the graph *)

Lemma events_since_app (g g' : DirectedBoostGraph) (evs : list LockEvent) :
  mtx_ g' = mtx_ g ++ evs → events_since g g' = evs.
Proof. unfold events_since. intros ->. by rewrite drop_app_length. Qed.

Lemma printIt_nodes_mtx (num_nodes i : nat) (g : DirectedBoostGraph) :
  mtx_ (printIt_nodes num_nodes i g).2 =
    mtx_ g ++ concat (replicate num_nodes inner_call).
Proof.
  revert i g. induction num_nodes as [|k IH]; intros i g; simpl.
  - by rewrite app_nil_r.
  - specialize (IH (S i) (unlock (lock g))).
    destruct (printIt_nodes k (S i) (unlock (lock g))) as [out g'].
    simpl in *. rewrite IH. by rewrite <- !app_assoc.
Qed.

Lemma held_after_inner_calls (k held : nat) (evs : list LockEvent) :
  held_after held (concat (replicate k inner_call) ++ evs) =
    held_after held evs.
Proof. induction k as [|k IH]; [done|]. simpl. exact IH. Qed.

Lemma peak_held_inner_calls (k held : nat) (evs : list LockEvent) :
  peak_held held (concat (replicate k inner_call) ++ evs) =
    match k with
    | 0 => peak_held held evs
    | S _ => S held `max` peak_held held evs
    end.
Proof.
  induction k as [|k IH]; [done|]. simpl. rewrite IH.
  destruct k; lia.
Qed.

Lemma peak_held_ge (held : nat) (evs : list LockEvent) :
  held ≤ peak_held held evs.
Proof. destruct evs as [|[] evs]; simpl; lia. Qed.

(** C9 (amended). Each operation defined in directed_boost_graph.cpp
    acquires the mutex on entry and releases it when it returns; [name],
    [description] and [clone], defined in the class body, do not touch it.
    [addOperation] calls [addDependency] once per edge it inserts, as many
    times as the new vertex has dependees; [getNodeDegree] calls
    [getNeighborList] once and [printIt] once per vertex; each of these
    calls is made while the caller holds the mutex, which is then acquired
    re-entrantly, to a depth of two. The other operations hold it once and
    call no other. *)
Theorem public_operations_locking (g : DirectedBoostGraph) :
  (∀ opc T0 inputs, ∃ g' k,
     addOperation (mkTensorOperation opc (T0 :: inputs)) g
       = Some ((getNumNodes g).1, g') ∧
     events_since g g' = locked_with_calls k ∧
     (getNumDependencies g').1 = (getNumDependencies g).1 + k ∧
     length (getNeighborList (getNumNodes g).1 g').1 = k) ∧
  (∀ a b, events_since g (addDependency a b g) = locked_with_calls 0) ∧
  (∀ a b, events_since g (dependencyExists a b g).2 = locked_with_calls 0) ∧
  (∀ v, events_since g (getNodeProperties v g).2 = locked_with_calls 0) ∧
  (∀ v, events_since g (getNodeDegree v g).2 = locked_with_calls 1) ∧
  events_since g (getNumNodes g).2 = locked_with_calls 0 ∧
  events_since g (getNumDependencies g).2 = locked_with_calls 0 ∧
  (∀ v, events_since g (getNeighborList v g).2 = locked_with_calls 0) ∧
  (∀ tie s ds ps,
     targets_in_range (dag_ g) → s < num_vertices (dag_ g) →
     ∃ d p g',
       computeShortestPath tie s ds ps g = Some (d, p, g') ∧
       events_since g g' = locked_with_calls 0) ∧
  events_since g (printIt g).2 =
    locked_with_calls (num_vertices (dag_ g)) ∧
  events_since g (clear g) = locked_with_calls 0 ∧
  events_since g (name g).2 = [] ∧
  events_since g (description g).2 = [] ∧
  events_since g (clone g).2 = [] ∧
  (∀ k, held_after 0 (locked_with_calls k) = Some 0 ∧
        peak_held 0 (locked_with_calls k) = match k with 0 => 1 | S _ => 2 end).
Proof.
  split_and!.
  - intros opc T0 inputs.
    destruct (addOperation_spec opc T0 inputs g)
      as (g' & Hadd & Hout & _ & _ & _ & Hev & Hnum).
    eexists g', _. split_and!; [exact Hadd|exact Hev|exact Hnum|].
    simpl. unfold adjacent_vertices. by rewrite Hout, !length_fmap.
  - intros a b. apply events_since_app. simpl. by rewrite <- app_assoc.
  - intros a b. apply events_since_app. simpl. by rewrite <- app_assoc.
  - intros v. apply events_since_app. simpl. by rewrite <- app_assoc.
  - intros v. apply events_since_app. simpl. by rewrite <- !app_assoc.
  - apply events_since_app. simpl. by rewrite <- app_assoc.
  - apply events_since_app. simpl. by rewrite <- app_assoc.
  - intros v. apply events_since_app. simpl. by rewrite <- app_assoc.
  - intros tie s ds ps Hr Hs. unfold computeShortestPath.
    destruct (dijkstra_shortest_paths_returns tie (dag_ g) s Hr Hs)
      as (d & p & Hrun & _).
    simpl. rewrite Hrun. simpl. eexists _, _, _. split; [done|].
    apply events_since_app. simpl. by rewrite <- app_assoc.
  - apply events_since_app. unfold printIt.
    pose proof (printIt_nodes_mtx (num_vertices (dag_ (lock g))) 0 (lock g))
      as Hm.
    destruct (printIt_nodes _ _ _) as [out g']. simpl in *.
    rewrite Hm. by rewrite <- !app_assoc.
  - apply events_since_app. simpl. by rewrite <- app_assoc.
  - apply events_since_app. simpl. by rewrite app_nil_r.
  - apply events_since_app. simpl. by rewrite app_nil_r.
  - apply events_since_app. simpl. by rewrite app_nil_r.
  - intros k. unfold locked_with_calls. simpl. split.
    + by rewrite held_after_inner_calls.
    + rewrite peak_held_inner_calls. destruct k; simpl; lia.
Qed.

(** C9, as claimed, fails: [getNodeDegree], asked for the vertex of a
    graph with one vertex, calls the public [getNeighborList] while it
    holds the mutex, which is then held twice. *)
Lemma getNodeDegree_acquires_twice :
  0 < (getNumNodes single_vertex_graph).1 ∧
  events_since single_vertex_graph (getNodeDegree 0 single_vertex_graph).2 =
    [Acquire; Acquire; Release; Release] ∧
  ¬ peak_held 0 (events_since single_vertex_graph
                   (getNodeDegree 0 single_vertex_graph).2) ≤ 1.
Proof. split_and!; vm_compute; [lia|reflexivity|lia]. Qed.

(** * Properties of the planner *)

Section PlannerProperties.

Context {TensorConn : Type}.
Variable cost : TensorConn → TensorConn → Q.
Variable fuse : TensorConn → TensorConn → TensorConn.
Context {priority_queue : PriorityQueue (@ContrPath TensorConn) get2}.
Variable W : nat.
Variable gen : nat → N.


(** ** The bounded queue *)

Lemma kept_cheapest_empty (q : pq) :
  pq_elements q = [] → kept_cheapest W [] q.
Proof.
  intros Hq. exists []. rewrite Hq. simpl. split_and!; [done|lia|done].
Qed.

Lemma offer_kept_cheapest (seen : list ContrPath) (q : pq) (c : ContrPath) :
  kept_cheapest W seen q → kept_cheapest W (seen ++ [c]) (offer W q c).
Proof.
  intros (evicted & Hperm & Hlen & Hle).
  pose proof (pq_emplace_elements c q) as Hemp.
  assert (length seen = length (pq_elements q) + length evicted) as Hseen.
  { by rewrite Hperm, length_app. }
  unfold offer. rewrite pq_size_elements.
  case_decide as Hfull.
  - destruct (pq_top_pop (pq_emplace c q)) as (x & _ & Hpop & Hmax).
    { intros E. rewrite E in Hemp. by apply Permutation_nil_cons in Hemp. }
    rewrite Hemp in Hfull. simpl in Hfull.
    exists (x :: evicted). split_and!.
    + etrans; [|apply Permutation_middle].
      rewrite app_comm_cons, <- Hpop, Hemp, Hperm.
      by rewrite (Permutation_app_comm _ [c]).
    + apply Permutation_length in Hpop. rewrite Hemp in Hpop.
      simpl in Hpop. rewrite length_app. simpl. lia.
    + assert (x ∈ c :: pq_elements q) as Hx.
      { rewrite <- Hemp, Hpop. by left. }
      assert (Forall (λ y, (get2 y <= get2 x)%Q)
                (pq_elements (pq_pop (pq_emplace c q)))) as Hrest.
      { rewrite Hpop in Hmax. by apply Forall_cons_1 in Hmax as [_ ?]. }
      apply elem_of_cons in Hx as [->|Hx].
      * rewrite Hemp in Hpop. apply Permutation_cons_inv in Hpop.
        rewrite <- Hpop.
        rewrite Forall_forall in Hle, Hrest.
        apply Forall_forall. intros r Hr. constructor.
        -- apply Hrest. by rewrite <- Hpop.
        -- by apply Hle.
      * rewrite Forall_forall in Hle, Hrest.
        apply Forall_forall. intros r Hr. constructor; [by apply Hrest|].
        specialize (Hle x Hx). eapply Forall_impl; [exact Hle|].
        intros e He. simpl in He. apply Qle_trans with (get2 x); [|done].
        by apply Hrest.
  - rewrite Hemp in Hfull. simpl in Hfull.
    assert (evicted = []) as ->.
    { destruct evicted; [done|]. simpl in *. lia. }
    exists []. split_and!.
    + rewrite app_nil_r in *. rewrite Hemp, Hperm.
      symmetry. apply Permutation_cons_append.
    + rewrite Hemp, length_app. simpl. lia.
    + apply Forall_forall. intros; constructor.
Qed.

Lemma foldl_offer_kept_cheapest (cs seen : list ContrPath) (q : pq) :
  kept_cheapest W seen q →
  kept_cheapest W (seen ++ cs) (foldl (offer W) q cs).
Proof.
  revert seen q. induction cs as [|c cs IH]; intros seen q Hq; simpl.
  - by rewrite app_nil_r.
  - rewrite cons_middle, app_assoc. apply IH. by apply offer_kept_cheapest.
Qed.

(** ** The loops generate the candidates *)

Lemma loop_j_cands last id parent x rest (q : pq) :
  loop_j cost fuse W last id parent x rest q =
    offered W q (cands_j cost fuse last id parent x rest).
Proof.
  revert q. induction rest as [|y rest IH]; intros q; [done|].
  simpl. case_decide; [|apply IH].
  destruct (child cost fuse last id parent x y) as [c|]; [|done].
  simpl. rewrite IH.
  by destruct (cands_j cost fuse last id parent x rest).
Qed.

Lemma offered_app (q : pq) (cs1 : list ContrPath)
    (cs2 : option (list ContrPath)) :
  offered W (foldl (offer W) q cs1) cs2 = offered W q ((cs1 ++.) <$> cs2).
Proof. destruct cs2 as [cs2|]; [|done]. simpl. by rewrite foldl_app. Qed.

Lemma loop_i_cands last id parent tensors (q : pq) :
  loop_i cost fuse W last id parent tensors q =
    offered W q (cands_i cost fuse last id parent tensors).
Proof.
  revert q. induction tensors as [|x rest IH]; intros q; [done|].
  simpl. case_decide; [|apply IH].
  rewrite loop_j_cands.
  destruct (cands_j cost fuse last id parent x rest) as [cs1|]; [|done].
  simpl. rewrite IH, offered_app.
  by destruct (cands_i cost fuse last id parent rest).
Qed.

Lemma loop_paths_cands last id inputPaths (q : pq) :
  loop_paths cost fuse W last id inputPaths q =
    offered W q (candidates cost fuse last id inputPaths).
Proof.
  revert q. induction inputPaths as [|parent rest IH]; intros q; [done|].
  simpl. rewrite loop_i_cands.
  destruct (cands_i cost fuse last id parent _) as [cs1|]; [|done].
  simpl. rewrite IH, offered_app.
  by destruct (candidates cost fuse last id rest).
Qed.

(** ** Emptying the queue *)

Lemma pq_elements_nil_size (q : pq) :
  pq_size q = 0 → pq_elements q = [].
Proof. rewrite pq_size_elements. by destruct (pq_elements q). Qed.

Lemma pq_pop_size (q : pq) :
  0 < pq_size q → pq_size (pq_pop q) = pred (pq_size q).
Proof.
  rewrite !pq_size_elements. intros Hq.
  destruct (pq_top_pop q) as (x & _ & Hpop & _).
  { intros E. rewrite E in Hq. simpl in Hq. lia. }
  apply Permutation_length in Hpop. simpl in Hpop. lia.
Qed.

Lemma drain_spec (fuel : nat) (q : pq) (acc : list ContrPath) :
  fuel = pq_size q →
  ∃ l q', drain fuel q acc = Ok (acc ++ l, q') ∧
          l ≡ₚ pq_elements q ∧ pq_elements q' = [].
Proof.
  revert q acc. induction fuel as [|fuel IH]; intros q acc Hfuel; simpl.
  - exists [], q. rewrite app_nil_r.
    by rewrite (pq_elements_nil_size q).
  - rewrite decide_True by lia.
    destruct (pq_top_pop q) as (x & -> & Hpop & _).
    { rewrite pq_size_elements in Hfuel. by destruct (pq_elements q). }
    destruct (IH (pq_pop q) (acc ++ [x])) as (l & q' & -> & Hl & Hq').
    { rewrite pq_pop_size; lia. }
    exists (x :: l), q'. rewrite <- app_assoc. simpl.
    split_and!; [done| |done]. by rewrite Hpop, Hl.
Qed.

Lemma pop_to_one_spec (fuel : nat) (q : pq) :
  fuel = pq_size q → pq_elements q ≠ [] →
  ∃ m, pq_elements (pop_to_one fuel q) = [m] ∧ m ∈ pq_elements q ∧
       Forall (λ y, (get2 m <= get2 y)%Q) (pq_elements q).
Proof.
  revert q. induction fuel as [|fuel IH]; intros q Hfuel Hne.
  - rewrite (pq_elements_nil_size q) in Hne; done.
  - simpl. case_decide as Hsz.
    + destruct (pq_top_pop q) as (x & _ & Hpop & Hmax); [done|].
      destruct (IH (pq_pop q)) as (m & Hm & Hin & Hmin).
      { rewrite pq_pop_size; lia. }
      { intros E. apply Permutation_length in Hpop.
        rewrite E, <- pq_size_elements in Hpop. simpl in Hpop. lia. }
      exists m. split; [done|]. split.
      * rewrite Hpop. by right.
      * rewrite Hpop. constructor; [|done].
        rewrite Forall_forall in Hmax. apply Hmax.
        rewrite Hpop. by right.
    + rewrite pq_size_elements in Hsz, Hfuel.
      destruct (pq_elements q) as [|m [|m' l]] eqn:E; simpl in *;
        [done| |lia].
      exists m. split_and!; [done|by left|].
      constructor; [apply Qle_refl|constructor].
Qed.

Lemma pq_top_singleton (q : pq) (m : ContrPath) :
  pq_elements q = [m] →
  pq_top q = Some m ∧ pq_elements (pq_pop q) = [].
Proof.
  intros Hq. destruct (pq_top_pop q) as (x & -> & Hpop & _).
  { by rewrite Hq. }
  rewrite Hq in Hpop.
  assert (pq_elements (pq_pop q) = []) as Hnil.
  { apply Permutation_length in Hpop. simpl in Hpop.
    by destruct (pq_elements (pq_pop q)). }
  rewrite Hnil in Hpop. apply Permutation_singleton_inj in Hpop.
  by subst.
Qed.

(** ** Merging two factors *)

Lemma mergeTensors_Some (network net' : gmap N TensorConn) (i j id : N) :
  mergeTensors fuse network i j id = Some net' →
  ∃ ti tj, network !! i = Some ti ∧ network !! j = Some tj ∧
           i ≠ j ∧ i ≠ 0%N ∧ j ≠ 0%N ∧ id ≠ 0%N ∧ network !! id = None ∧
           net' = <[id := fuse ti tj]> (delete j (delete i network)).
Proof.
  unfold mergeTensors. intros H.
  destruct (network !! i) as [ti|]; [|done].
  destruct (network !! j) as [tj|]; [|done]. simpl in H.
  case_decide as Hc; [|done]. destruct Hc as (? & ? & ? & ? & ?).
  exists ti, tj. by simplify_eq.
Qed.

Lemma mergeTensors_is_Some (network : gmap N TensorConn) (i j id : N) :
  is_Some (network !! i) → is_Some (network !! j) →
  i ≠ j → i ≠ 0%N → j ≠ 0%N → id ≠ 0%N → network !! id = None →
  is_Some (mergeTensors fuse network i j id).
Proof.
  intros [ti Hi] [tj Hj] ? ? ? ? ?. unfold mergeTensors.
  rewrite Hi, Hj. simpl. rewrite decide_True by done. done.
Qed.

Lemma mergeTensors_count (network net' : gmap N TensorConn) (i j id : N) :
  mergeTensors fuse network i j id = Some net' →
  N.to_nat (getNumTensors net') + 1 = N.to_nat (getNumTensors network).
Proof.
  intros H. apply mergeTensors_Some in H
    as (ti & tj & Hi & Hj & Hij & Hi0 & Hj0 & Hid0 & Hid & ->).
  unfold getNumTensors. rewrite !Nat2N.id.
  rewrite map_filter_insert_True by done.
  rewrite map_size_insert_None.
  2:{ apply map_lookup_filter_None. left.
      rewrite !lookup_delete_None. auto. }
  rewrite !map_filter_delete.
  set (F := filter (λ kv : N * TensorConn, kv.1 ≠ 0%N) network).
  assert (F !! i = Some ti) as HFi by (by apply map_lookup_filter_Some).
  assert (delete i F !! j = Some tj) as HFj.
  { rewrite lookup_delete_ne by done. by apply map_lookup_filter_Some. }
  rewrite (map_size_delete_Some j) by eauto.
  rewrite (map_size_delete_Some i) by eauto.
  assert (size (delete i F) ≠ 0) by (by eapply map_size_ne_0_lookup_2).
  rewrite (map_size_delete_Some i) in * by eauto. lia.
Qed.

Lemma mergeTensors_lookup (network net' : gmap N TensorConn)
    (i j id k : N) :
  mergeTensors fuse network i j id = Some net' →
  is_Some (net' !! k) → k = id ∨ is_Some (network !! k).
Proof.
  intros H. apply mergeTensors_Some in H
    as (ti & tj & Hi & Hj & Hij & Hi0 & Hj0 & Hid0 & Hid & ->).
  destruct (decide (k = id)) as [->|Hne]; [by left|].
  rewrite lookup_insert_ne by done. intros [t Ht]. right.
  apply lookup_delete_Some in Ht as [_ Ht].
  apply lookup_delete_Some in Ht as [_ Ht]. eauto.
Qed.

Lemma getNumTensors_map_to_list (network : gmap N TensorConn) :
  N.to_nat (getNumTensors network) =
    length (filter (λ kv, kv.1 ≠ 0%N) (map_to_list network)).
Proof.
  unfold getNumTensors. rewrite Nat2N.id, map_filter_alt.
  apply map_size_list_to_map.
  apply NoDup_fmap_fst.
  - intros k x y Hx Hy.
    apply list_elem_of_filter in Hx as [_ Hx], Hy as [_ Hy].
    apply elem_of_map_to_list in Hx, Hy. congruence.
  - apply NoDup_filter, NoDup_map_to_list.
Qed.

(** ** The candidates of a pass *)

Lemma child_Some last id parent (x y : N * TensorConn) c :
  child cost fuse last id parent x y = Some c →
  ∃ net', mergeTensors fuse (get0 parent) x.1 y.1 id = Some net' ∧
    c = mkContrPath net'
          (get1 parent ++
             [mkContrTriple (if last then 0%N else id) x.1 y.1])
          (cost x.2 y.2 + get2 parent)%Q.
Proof.
  destruct x as [i ti], y as [j tj]. unfold child. simpl.
  destruct (mergeTensors fuse (get0 parent) i j id) as [net'|]; [|done].
  simpl. intros [= <-]. exists net'. split; [done|]. by destruct last.
Qed.

Lemma cands_j_elem last id parent x rest cs c :
  cands_j cost fuse last id parent x rest = Some cs → c ∈ cs →
  ∃ y, y ∈ rest ∧ child cost fuse last id parent x y = Some c.
Proof.
  revert cs. induction rest as [|y rest IH]; intros cs Hcs Hc; simpl in Hcs.
  - simplify_eq. by apply not_elem_of_nil in Hc.
  - case_decide.
    + destruct (child cost fuse last id parent x y) as [c'|] eqn:Hch;
        [|done]. simpl in Hcs.
      destruct (cands_j cost fuse last id parent x rest) as [cs'|];
        [|done]. simpl in Hcs. simplify_eq.
      apply elem_of_cons in Hc as [->|Hc].
      * exists y. split; [by left|done].
      * destruct (IH cs') as (y' & ? & ?); [done..|].
        exists y'. split; [by right|done].
    + destruct (IH cs) as (y' & ? & ?); [done..|].
      exists y'. split; [by right|done].
Qed.

Lemma cands_i_elem last id parent tensors cs c :
  cands_i cost fuse last id parent tensors = Some cs → c ∈ cs →
  ∃ x y, x ∈ tensors ∧ y ∈ tensors ∧
         child cost fuse last id parent x y = Some c.
Proof.
  revert cs. induction tensors as [|x rest IH]; intros cs Hcs Hc;
    simpl in Hcs.
  - simplify_eq. by apply not_elem_of_nil in Hc.
  - case_decide.
    + destruct (cands_j cost fuse last id parent x rest) as [cs1|] eqn:E1;
        [|done]. simpl in Hcs.
      destruct (cands_i cost fuse last id parent rest) as [cs2|];
        [|done]. simpl in Hcs. simplify_eq.
      apply elem_of_app in Hc as [Hc|Hc].
      * destruct (cands_j_elem _ _ _ _ _ _ _ E1 Hc) as (y & ? & ?).
        exists x, y. split_and!; [by left|by right|done].
      * destruct (IH cs2) as (x' & y' & ? & ? & ?); [done..|].
        exists x', y'. split_and!; [by right|by right|done].
    + destruct (IH cs) as (x' & y' & ? & ? & ?); [done..|].
      exists x', y'. split_and!; [by right|by right|done].
Qed.

Lemma candidates_elem last id inputPaths cs c :
  candidates cost fuse last id inputPaths = Some cs → c ∈ cs →
  ∃ parent x y, parent ∈ inputPaths ∧
                child cost fuse last id parent x y = Some c.
Proof.
  revert cs. induction inputPaths as [|parent rest IH]; intros cs Hcs Hc;
    simpl in Hcs.
  - simplify_eq. by apply not_elem_of_nil in Hc.
  - destruct (cands_i cost fuse last id parent _) as [cs1|] eqn:E1;
      [|done]. simpl in Hcs.
    destruct (candidates cost fuse last id rest) as [cs2|]; [|done].
    simpl in Hcs. simplify_eq.
    apply elem_of_app in Hc as [Hc|Hc].
    + destruct (cands_i_elem _ _ _ _ _ _ E1 Hc) as (x & y & _ & _ & ?).
      exists parent, x, y. split; [by left|done].
    + destruct (IH cs2) as (parent' & x & y & ? & ?); [done..|].
      exists parent', x, y. split; [by right|done].
Qed.

Lemma cands_j_nonempty last id parent x rest cs :
  1 ≤ length (filter (λ kv : N * TensorConn, kv.1 ≠ 0%N) rest) →
  cands_j cost fuse last id parent x rest = Some cs → cs ≠ [].
Proof.
  revert cs. induction rest as [|y rest IH]; intros cs Hlen Hcs.
  - simpl in Hlen. lia.
  - simpl in Hcs. rewrite filter_cons in Hlen. case_decide.
    + destruct (child cost fuse last id parent x y); [|done].
      simpl in Hcs.
      destruct (cands_j cost fuse last id parent x rest); [|done].
      simpl in Hcs. by simplify_eq.
    + by apply IH.
Qed.

Lemma cands_i_nonempty last id parent tensors cs :
  2 ≤ length (filter (λ kv : N * TensorConn, kv.1 ≠ 0%N) tensors) →
  cands_i cost fuse last id parent tensors = Some cs → cs ≠ [].
Proof.
  revert cs. induction tensors as [|x rest IH]; intros cs Hlen Hcs.
  - simpl in Hlen. lia.
  - simpl in Hcs. rewrite filter_cons in Hlen. case_decide.
    + destruct (cands_j cost fuse last id parent x rest) as [cs1|] eqn:E1;
        [|done]. simpl in Hcs.
      destruct (cands_i cost fuse last id parent rest); [|done].
      simpl in Hcs. simplify_eq.
      apply cands_j_nonempty in E1; [|simpl in Hlen; lia].
      by destruct cs1.
    + by apply IH.
Qed.

Lemma cands_j_is_Some last id parent x rest :
  (∀ y, y ∈ rest → y.1 ≠ 0%N →
        is_Some (child cost fuse last id parent x y)) →
  is_Some (cands_j cost fuse last id parent x rest).
Proof.
  induction rest as [|y rest IH]; intros Hch; simpl; [done|].
  destruct IH as [cs Hcs].
  { intros y' ? ?. apply Hch; [by right|done]. }
  case_decide; [|by rewrite Hcs].
  destruct (Hch y) as [c ->]; [by left|done|]. simpl. by rewrite Hcs.
Qed.

Lemma child_is_Some last id parent (x y : N * TensorConn) :
  is_Some (mergeTensors fuse (get0 parent) x.1 y.1 id) →
  is_Some (child cost fuse last id parent x y).
Proof.
  destruct x as [i ti], y as [j tj]. simpl. intros [net' H].
  unfold child. rewrite H. done.
Qed.

Lemma cands_i_is_Some last id parent tensors :
  NoDup tensors.*1 →
  (∀ x, x ∈ tensors → is_Some (get0 parent !! x.1)) →
  id ≠ 0%N → get0 parent !! id = None →
  is_Some (cands_i cost fuse last id parent tensors).
Proof.
  intros Hnd Hin Hid0 Hid.
  induction tensors as [|x rest IH]; simpl; [done|].
  rewrite fmap_cons in Hnd. apply NoDup_cons in Hnd as [Hx Hnd].
  destruct IH as [cs2 Hcs2]; [done| |].
  { intros x' ?. apply Hin. by right. }
  case_decide as Hx0; [|by rewrite Hcs2].
  destruct (cands_j_is_Some last id parent x rest) as [cs1 ->].
  { intros y Hy Hy0. apply child_is_Some, mergeTensors_is_Some; try done.
    - apply Hin. by left.
    - apply Hin. by right.
    - intros E. apply Hx. rewrite E. by apply list_elem_of_fmap_2. }
  simpl. by rewrite Hcs2.
Qed.

(** ** The paths of a pass *)

Lemma replays_snoc (network net1 net2 : gmap N TensorConn) (k : nat)
    (seq : list ContrTriple) (t : ContrTriple) :
  replays fuse gen network k seq net1 →
  mergeTensors fuse net1 (left_id t) (right_id t) (gen (k + length seq))
    = Some net2 →
  replays fuse gen network k (seq ++ [t]) net2.
Proof.
  revert network k. induction seq as [|t' seq IH]; intros network k; simpl.
  - intros ->. rewrite Nat.add_0_r. intros H. by exists net2.
  - intros (n1 & Hm & Hr) H. exists n1. split; [done|].
    apply IH; [done|]. by rewrite Nat.add_succ_comm.
Qed.

Lemma replays_steps_present (network net' : gmap N TensorConn) (k : nat)
    (seq : list ContrTriple) :
  replays fuse gen network k seq net' →
  steps_present fuse gen network k seq.
Proof.
  revert network k. induction seq as [|t seq IH]; intros network k; simpl;
    [done|].
  intros (n1 & Hm & Hr).
  destruct (mergeTensors_Some _ _ _ _ _ Hm)
    as (ti & tj & Hi & Hj & _ & Hi0 & Hj0 & _).
  split_and!; eauto.
Qed.

Lemma child_path_of_pass (network : gmap N TensorConn) (numC p : nat)
    parent (x y : N * TensorConn) c :
  path_of_pass fuse gen network numC p parent →
  child cost fuse (bool_decide (p = numC - 1)) (gen p) parent x y = Some c →
  path_of_pass fuse gen network numC (S p) c.
Proof.
  intros (Hlen & Hrep & Hres & Hcnt & Hdom) Hch.
  apply child_Some in Hch as (net' & Hm & ->).
  unfold path_of_pass. simpl. split_and!.
  - rewrite length_app. simpl. lia.
  - apply replays_snoc with (get0 parent); [done|]. simpl.
    by rewrite Hlen.
  - intros k t Hk. apply lookup_snoc_Some in Hk as [[_ Hk]|[Hk <-]].
    + by apply Hres.
    + simpl. rewrite Hlen in Hk. subst k. unfold expected_result.
      case_bool_decide; by case_decide.
  - apply mergeTensors_count in Hm. lia.
  - intros id Hid.
    destruct (mergeTensors_lookup _ _ _ _ _ _ Hm Hid) as [->|Hold].
    + right. exists p. split; [lia|done].
    + destruct (Hdom id Hold) as [?|(k & ? & ?)]; [by left|].
      right. exists k. split; [lia|done].
Qed.

Lemma fresh_ids_fresh_at (network : gmap N TensorConn) (m p : nat) :
  fresh_ids gen network m → p < m → fresh_at gen network p.
Proof.
  intros [Hnd Hall] Hp.
  rewrite Forall_forall in Hall.
  destruct (Hall (gen p)) as [H0 Hnone].
  { apply list_elem_of_fmap_2, elem_of_seq. lia. }
  split_and!; [done..|].
  intros k Hk E.
  assert ((gen <$> seq 0 m) !! k = Some (gen k)) as H1.
  { rewrite list_lookup_fmap, lookup_seq_lt by lia. done. }
  assert ((gen <$> seq 0 m) !! p = Some (gen k)) as H2.
  { rewrite list_lookup_fmap, lookup_seq_lt by lia. simpl. by rewrite E. }
  pose proof (NoDup_lookup _ _ _ _ Hnd H1 H2). lia.
Qed.

Lemma path_of_pass_fresh (network : gmap N TensorConn) (numC p : nat)
    parent :
  path_of_pass fuse gen network numC p parent → fresh_at gen network p →
  get0 parent !! gen p = None.
Proof.
  intros (_ & _ & _ & _ & Hdom) (H0 & Hnone & Hinj).
  destruct (get0 parent !! gen p) as [t|] eqn:E; [|done].
  destruct (Hdom (gen p)) as [[t' Ht']|(k & Hk & Hgen)]; [by eauto|..].
  - congruence.
  - by destruct (Hinj k Hk).
Qed.

(** One pass over a beam of paths of pass [p]: a merge is refused only
    when the generated id is not new; otherwise there are candidates, all
    of them paths of the next pass. *)
Lemma pass_candidates (network : gmap N TensorConn) (numC p : nat)
    (beam : list ContrPath) :
  Forall (path_of_pass fuse gen network numC p) beam → beam ≠ [] →
  p + 2 ≤ N.to_nat (getNumTensors network) →
  match candidates cost fuse (bool_decide (p = numC - 1)) (gen p) beam with
  | Some cs =>
      cs ≠ [] ∧ Forall (path_of_pass fuse gen network numC (S p)) cs
  | None => ¬ fresh_at gen network p
  end.
Proof.
  intros Hbeam Hne Hp.
  destruct (candidates _ _ _ _ beam) as [cs|] eqn:Hcs.
  - split.
    + destruct beam as [|parent rest]; [done|]. simpl in Hcs.
      destruct (cands_i cost fuse _ (gen p) parent _) as [cs1|] eqn:E1;
        [|done]. simpl in Hcs.
      destruct (candidates _ _ _ _ rest); [|done]. simpl in Hcs.
      simplify_eq. apply cands_i_nonempty in E1.
      * by destruct cs1.
      * rewrite <- getNumTensors_map_to_list.
        apply Forall_cons_1 in Hbeam as [(_ & _ & _ & Hcnt & _) _]. lia.
    + apply Forall_forall. intros c Hc.
      destruct (candidates_elem _ _ _ _ _ Hcs Hc)
        as (parent & x & y & Hpar & Hch).
      rewrite Forall_forall in Hbeam.
      eapply child_path_of_pass; [by apply Hbeam|done].
  - intros Hfresh. clear Hne.
    induction beam as [|parent rest IH]; [done|]. simpl in Hcs.
    apply Forall_cons_1 in Hbeam as [Hpar Hrest].
    destruct (cands_i_is_Some (bool_decide (p = numC - 1)) (gen p) parent
                (map_to_list (get0 parent))) as [cs1 E1].
    + apply NoDup_fst_map_to_list.
    + intros [k t] Hx. apply elem_of_map_to_list in Hx. simpl. eauto.
    + by destruct Hfresh.
    + by eapply path_of_pass_fresh.
    + rewrite E1 in Hcs. simpl in Hcs.
      destruct (candidates _ _ _ _ rest); [done|]. by apply IH.
Qed.

(** ** The loop over the passes *)

Lemma kept_cheapest_elements (cs : list ContrPath) (q : pq) :
  kept_cheapest W cs q →
  (∀ c, c ∈ pq_elements q → c ∈ cs) ∧
  (1 ≤ W → cs ≠ [] → pq_elements q ≠ []).
Proof.
  intros (evicted & Hperm & Hlen & _). split.
  - intros c Hc. rewrite Hperm. apply elem_of_app. by left.
  - intros HW Hcs E. rewrite E in Hlen. simpl in Hlen.
    destruct cs; [done|]. simpl in Hlen. lia.
Qed.

Lemma passes_spec (network : gmap N TensorConn) (numC remaining p : nat)
    (beam : list ContrPath) (q : pq) (seq0 : list ContrTriple) (flops0 : Q) :
  1 ≤ W → remaining + p = numC → 1 ≤ remaining →
  numC + 1 ≤ N.to_nat (getNumTensors network) →
  beam ≠ [] → Forall (path_of_pass fuse gen network numC p) beam →
  pq_elements q = [] →
  match passes cost fuse W gen remaining p numC beam q seq0 flops0 with
  | Ok (s, f) =>
      ∃ path, path_of_pass fuse gen network numC numC path ∧
              s = get1 path ∧ f = get2 path
  | Err AssertionFailed => ¬ fresh_ids gen network numC
  | Err EmptyQueueAccess => False
  end.
Proof.
  intros HW. revert p beam q seq0 flops0.
  induction remaining as [|r IH]; intros p beam q seq0 flops0
    Hsum Hrem HnumC Hne Hbeam Hq; [lia|].
  simpl. rewrite loop_paths_cands.
  pose proof (pass_candidates network numC p beam Hbeam Hne) as Hpass.
  destruct (candidates _ _ _ _ beam) as [cs|]; simpl.
  2:{ intros Hfresh. apply Hpass; [lia|].
      apply fresh_ids_fresh_at with numC; [done|lia]. }
  destruct Hpass as [Hcs Hall]; [lia|].
  pose proof (foldl_offer_kept_cheapest cs [] q (kept_cheapest_empty q Hq))
    as Hkept. simpl in Hkept.
  apply kept_cheapest_elements in Hkept as [Hsub Hnonempty].
  specialize (Hnonempty HW Hcs).
  set (q1 := foldl (offer W) q cs) in *.
  case_bool_decide as Hlast.
  - destruct (pop_to_one_spec (pq_size q1) q1) as (m & Hm & Hin & _);
      [done..|].
    destruct (pq_top_singleton _ m Hm) as [-> Hnil].
    assert (r = 0) as -> by lia. simpl.
    exists m. split; [|done].
    assert (S p = numC) as Hp by lia.
    rewrite Forall_forall in Hall.
    pose proof (Hall m (Hsub m Hin)) as Hpath. by rewrite Hp in Hpath.
  - destruct (drain_spec (pq_size q1) q1 []) as (l & q2 & -> & Hl & Hq2);
      [done|]. simpl.
    apply IH; [lia..| | |done].
    + intros ->. apply Permutation_nil_l in Hl. done.
    + apply Forall_forall. intros c Hc.
      rewrite Forall_forall in Hall. apply Hall, Hsub. by rewrite <- Hl.
Qed.

Lemma uint_pred_small (n : N) :
  (1 ≤ n < uint_modulus)%N → uint_pred n = (n - 1)%N.
Proof.
  intros Hn. unfold uint_pred.
  replace (n + uint_modulus - 1)%N with (n - 1 + 1 * uint_modulus)%N by lia.
  rewrite N.Div0.mod_add. apply N.mod_small. lia.
Qed.

Lemma uint_pred_le (n : N) : (1 ≤ n → uint_pred n ≤ n - 1)%N.
Proof.
  intros Hn. unfold uint_pred.
  replace (n + uint_modulus - 1)%N with (n - 1 + 1 * uint_modulus)%N by lia.
  rewrite N.Div0.mod_add. apply N.Div0.mod_le.
Qed.

Lemma initial_path_of_pass (network : gmap N TensorConn) (numC : nat) :
  path_of_pass fuse gen network numC 0 (mkContrPath network [] 0%Q).
Proof.
  unfold path_of_pass. simpl. split_and!; [done|done| |lia|by left].
  intros k t Hk. done.
Qed.

(** ** The results of [determineContractionSequence] *)

Lemma determineContractionSequence_spec (network : gmap N TensorConn)
    (contr_seq : list ContrTriple) :
  1 ≤ W → (2 ≤ getNumTensors network)%N →
  let numC := N.to_nat (uint_pred (getNumTensors network)) in
  match determineContractionSequence cost fuse W gen network contr_seq with
  | Ok (s, f) =>
      numC = 0 ∨
      ∃ path, path_of_pass fuse gen network numC numC path ∧
              s = get1 path ∧ f = get2 path
  | Err AssertionFailed => ¬ fresh_ids gen network numC
  | Err EmptyQueueAccess => False
  end.
Proof.
  intros HW Hn numC. unfold determineContractionSequence.
  pose proof (uint_pred_le (getNumTensors network)) as Hle.
  case_decide as Hz.
  - left. subst numC. rewrite Hz. done.
  - fold numC.
    pose proof (passes_spec network numC numC 0
                  [mkContrPath network [] 0%Q] pq_empty [] 0%Q) as Hp.
    destruct (passes _ _ _ _ _ _ _ _ _ _ _) as [[s f]|[]].
    + right. apply Hp; try done; try (subst numC; lia).
      * constructor; [apply initial_path_of_pass|constructor].
      * apply pq_elements_empty.
    + apply Hp; try done; try (subst numC; lia).
      * constructor; [apply initial_path_of_pass|constructor].
      * apply pq_elements_empty.
    + apply Hp; try done; try (subst numC; lia).
      * constructor; [apply initial_path_of_pass|constructor].
      * apply pq_elements_empty.
Qed.

(** C3. For a network of n >= 2 input factors (n an [unsigned int]), a
    beam width of at least 1 and a generator whose first n-1 ids are new,
    [determineContractionSequence] returns a sequence of exactly n-1
    triples; the result id of the last one is 0, every other result id
    is the id the generator gave for that step, and every triple names
    two input factors present in the network at its step. *)
Theorem determineContractionSequence_sequence
    (network : gmap N TensorConn) (contr_seq : list ContrTriple) :
  let n := N.to_nat (getNumTensors network) in
  1 ≤ W → 2 ≤ n → (getNumTensors network < uint_modulus)%N →
  fresh_ids gen network (n - 1) →
  ∃ seq flops,
    determineContractionSequence cost fuse W gen network contr_seq
      = Ok (seq, flops) ∧
    length seq = n - 1 ∧
    result_id <$> last seq = Some 0%N ∧
    (∀ k t, seq !! k = Some t → result_id t ≠ 0%N →
            k < n - 1 ∧ result_id t = gen k) ∧
    steps_present fuse gen network 0 seq.
Proof.
  intros n HW Hn Hrep Hfresh.
  pose proof (determineContractionSequence_spec network contr_seq HW)
    as Hspec.
  assert (N.to_nat (uint_pred (getNumTensors network)) = n - 1) as HnumC.
  { rewrite uint_pred_small by lia. lia. }
  rewrite HnumC in Hspec.
  destruct (determineContractionSequence _ _ _ _ _ _) as [[s f]|[]].
  - destruct Hspec as [?|(path & Hpath & -> & ->)]; [lia|lia|].
    destruct Hpath as (Hlen & Hreplay & Hres & _ & _).
    exists (get1 path), (get2 path). split_and!; [done|done| | |].
    + destruct (get1 path) as [|t0 seq0] eqn:E using rev_ind.
      { simpl in Hlen. lia. }
      rewrite last_snoc. simpl. f_equal.
      rewrite (Hres (length seq0) t0).
      * unfold expected_result. rewrite length_app in Hlen.
        simpl in Hlen. rewrite decide_True; [done|lia].
      * by rewrite list_lookup_middle.
    + intros k t Hk Hnz. pose proof (lookup_lt_Some _ _ _ Hk) as Hlt.
      split; [lia|]. rewrite (Hres k t Hk) in *.
      unfold expected_result in *. case_decide; done.
    + by eapply replays_steps_present.
  - destruct Hspec. lia.
  - destruct Hspec; [lia|done].
Qed.

(** C10. With a beam width of at least 1 and at least 2 input factors,
    no [top()] is taken from an empty queue: the planner never ends in
    an access to an empty queue, whatever the generator gives. *)
Theorem determineContractionSequence_top_nonempty
    (network : gmap N TensorConn) (contr_seq : list ContrTriple) :
  1 ≤ W → (2 ≤ getNumTensors network)%N →
  determineContractionSequence cost fuse W gen network contr_seq
    ≠ Err EmptyQueueAccess.
Proof.
  intros HW Hn E.
  pose proof (determineContractionSequence_spec network contr_seq HW Hn)
    as Hspec.
  by rewrite E in Hspec.
Qed.


(** ** Networks with fewer than two input factors *)

Lemma loop_i_no_inputs last id parent tensors (q : pq) :
  filter (λ kv : N * TensorConn, kv.1 ≠ 0%N) tensors = [] →
  loop_i cost fuse W last id parent tensors q = Ok q.
Proof.
  induction tensors as [|x rest IH]; [done|].
  rewrite filter_cons. simpl. case_decide; [done|]. exact IH.
Qed.

Lemma loop_paths_no_inputs last id beam (q : pq) :
  Forall (λ path, getNumTensors (get0 path) = 0%N) beam →
  loop_paths cost fuse W last id beam q = Ok q.
Proof.
  induction beam as [|parent rest IH]; [done|].
  intros Hall. apply Forall_cons_1 in Hall as [Hpar Hrest]. simpl.
  rewrite loop_i_no_inputs; [by apply IH|].
  pose proof (getNumTensors_map_to_list (get0 parent)) as Hlen.
  rewrite Hpar in Hlen. simpl in Hlen.
  by destruct (filter _ (map_to_list (get0 parent))).
Qed.

Lemma passes_unfold (r p numC : nat) (beam : list ContrPath) (q : pq)
    (seq0 : list ContrTriple) (flops0 : Q) :
  passes cost fuse W gen (S r) p numC beam q seq0 flops0 =
    (priq ← loop_paths cost fuse W (bool_decide (p = numC - 1)) (gen p)
              beam q;
     if bool_decide (p = numC - 1) then
       match pq_top (pop_to_one (pq_size priq) priq) with
       | Some top =>
           passes cost fuse W gen r (S p) numC []
             (pq_pop (pop_to_one (pq_size priq) priq)) (get1 top) (get2 top)
       | None => Err EmptyQueueAccess
       end
     else
       '(inputPaths, priq) ← drain (pq_size priq) priq [];
       passes cost fuse W gen r (S p) numC inputPaths priq seq0 flops0).
Proof. reflexivity. Qed.

Lemma passes_no_inputs (r p numC : nat) (beam : list ContrPath) (q : pq)
    (seq0 : list ContrTriple) (flops0 : Q) :
  S r + p = numC →
  Forall (λ path, getNumTensors (get0 path) = 0%N) beam →
  pq_elements q = [] →
  passes cost fuse W gen (S r) p numC beam q seq0 flops0
    = Err EmptyQueueAccess.
Proof.
  revert p beam. induction r as [|r IH]; intros p beam Hsum Hbeam Hq;
    rewrite passes_unfold, loop_paths_no_inputs by done;
    cbn [mbind result_bind]; rewrite pq_size_elements, Hq;
    cbn [length pop_to_one drain].
  - rewrite bool_decide_eq_true_2 by lia. by rewrite pq_top_empty.
  - rewrite bool_decide_eq_false_2 by lia. cbn [mbind result_bind].
    apply IH; [lia|constructor|done].
Qed.

(** C5. Evaluation of the code on a network without input factors
    (n = 0): the [unsigned int] subtraction [getNumTensors() - 1] wraps
    to 2^32 - 1, the early return is not taken, no pass finds a pair to
    contract, and the last pass takes the top of an empty queue. *)
Theorem determineContractionSequence_no_factor
    (network : gmap N TensorConn) (contr_seq : list ContrTriple) :
  getNumTensors network = 0%N →
  determineContractionSequence cost fuse W gen network contr_seq
    = Err EmptyQueueAccess.
Proof.
  intros Hn. unfold determineContractionSequence. rewrite Hn.
  assert (uint_pred 0 = 4294967295%N) as -> by (vm_compute; reflexivity).
  rewrite decide_False by lia.
  destruct (N.to_nat 4294967295) as [|r] eqn:E; [lia|].
  apply passes_no_inputs; [lia| |apply pq_elements_empty].
  constructor; [done|constructor].
Qed.

(** For one input factor the early return is taken. *)
Lemma determineContractionSequence_one_factor
    (network : gmap N TensorConn) (contr_seq : list ContrTriple) :
  getNumTensors network = 1%N →
  determineContractionSequence cost fuse W gen network contr_seq
    = Ok ([], 0%Q).
Proof.
  intros Hn. unfold determineContractionSequence. rewrite Hn.
  by rewrite decide_True by (vm_compute; reflexivity).
Qed.

End PlannerProperties.

(** ** Two beam widths *)

Section PlannerWidths.

Context {TensorConn : Type}.
Variable cost : TensorConn → TensorConn → Q.
Variable fuse : TensorConn → TensorConn → TensorConn.
Context {priority_queue : PriorityQueue (@ContrPath TensorConn) get2}.
Variable gen : nat → N.

Lemma candidates_perm last id (beam beam' : list ContrPath) :
  beam ≡ₚ beam' →
  same_candidates (candidates cost fuse last id beam)
                  (candidates cost fuse last id beam').
Proof.
  induction 1 as [|x l l' Hl IH|x y l|l1 l2 l3 H12 IH12 H23 IH23]; simpl.
  - done.
  - destruct (cands_i cost fuse last id x _) as [cs1|]; [|done]. simpl.
    destruct (candidates cost fuse last id l) as [a|],
             (candidates cost fuse last id l') as [b|]; simpl in *;
      try done.
    by rewrite IH.
  - destruct (cands_i cost fuse last id x _) as [cx|],
             (cands_i cost fuse last id y _) as [cy|],
             (candidates cost fuse last id l) as [cl|]; simpl; try done.
    apply Permutation_app_swap_app.
  - unfold same_candidates in *.
    destruct (candidates cost fuse last id l1),
             (candidates cost fuse last id l2),
             (candidates cost fuse last id l3); try done.
    by etrans.
Qed.

Lemma candidates_parent last id (beam : list ContrPath) cs parent :
  candidates cost fuse last id beam = Some cs → parent ∈ beam →
  ∃ cs1, cands_i cost fuse last id parent (map_to_list (get0 parent))
           = Some cs1 ∧ ∀ c, c ∈ cs1 → c ∈ cs.
Proof.
  revert cs. induction beam as [|x rest IH]; intros cs Hcs Hin.
  - by apply not_elem_of_nil in Hin.
  - simpl in Hcs.
    destruct (cands_i cost fuse last id x _) as [cx|] eqn:Ex; [|done].
    destruct (candidates cost fuse last id rest) as [cr|]; [|done].
    simpl in Hcs. simplify_eq.
    apply elem_of_cons in Hin as [->|Hin].
    + exists cx. split; [done|]. intros c ?. apply elem_of_app. by left.
    + destruct (IH cr) as (cs1 & ? & Hsub); [done..|].
      exists cs1. split; [done|]. intros c ?. apply elem_of_app.
      right. by apply Hsub.
Qed.

Lemma candidates_subset last id (beam beam' : list ContrPath) cs' :
  (∀ c, c ∈ beam → c ∈ beam') →
  candidates cost fuse last id beam' = Some cs' →
  ∃ cs, candidates cost fuse last id beam = Some cs ∧
        ∀ c, c ∈ cs → c ∈ cs'.
Proof.
  intros Hsub Hcs'. induction beam as [|x rest IH]; simpl.
  - exists []. split; [done|]. intros c Hc. by apply not_elem_of_nil in Hc.
  - destruct (candidates_parent last id beam' cs' x Hcs')
      as (cx & -> & Hx); [apply Hsub; by left|].
    destruct IH as (cr & -> & Hr).
    { intros c ?. apply Hsub. by right. }
    simpl. exists (cx ++ cr). split; [done|].
    intros c Hc. apply elem_of_app in Hc as [?|?]; auto.
Qed.

Lemma all_paths_path_of_pass (network : gmap N TensorConn)
    (numC p : nat) l :
  all_paths cost fuse gen network numC p = Some l →
  Forall (path_of_pass fuse gen network numC p) l.
Proof.
  revert l. induction p as [|p IH]; intros l Hl; simpl in Hl.
  - simplify_eq. constructor; [apply initial_path_of_pass|constructor].
  - destruct (all_paths cost fuse gen network numC p) as [beam|]; [|done].
    simpl in Hl. specialize (IH beam eq_refl).
    apply Forall_forall. intros c Hc.
    destruct (candidates_elem _ _ _ _ _ _ _ Hl Hc)
      as (parent & x & y & Hpar & Hch).
    rewrite Forall_forall in IH.
    eapply child_path_of_pass; [by apply IH|done].
Qed.

Lemma all_paths_earlier (network : gmap N TensorConn) (numC p p' : nat) :
  p ≤ p' → is_Some (all_paths cost fuse gen network numC p') →
  is_Some (all_paths cost fuse gen network numC p).
Proof.
  induction 1 as [|p' Hle IH]; [done|]. intros [l Hl]. simpl in Hl.
  destruct (all_paths cost fuse gen network numC p'); [|done]. by apply IH.
Qed.

Lemma kept_all (W : nat) (cs : list ContrPath) (q : pq) :
  kept_cheapest W cs q → length cs ≤ W → pq_elements q ≡ₚ cs.
Proof.
  intros (evicted & Hperm & Hlen & _) HW.
  assert (evicted = []) as ->.
  { apply Permutation_length in Hperm. rewrite length_app in Hperm.
    destruct evicted; [done|]. simpl in Hperm. lia. }
  by rewrite app_nil_r in Hperm.
Qed.

(** A run of any width stays within the search without a bound. *)
Lemma passes_within (V : nat) (network : gmap N TensorConn)
    (numC remaining p : nat) (beam A Afin : list ContrPath) (q : pq)
    (seq0 : list ContrTriple) (flops0 : Q) :
  1 ≤ V → remaining + p = numC → 1 ≤ remaining →
  numC + 1 ≤ N.to_nat (getNumTensors network) →
  beam ≠ [] →
  all_paths cost fuse gen network numC p = Some A →
  (∀ c, c ∈ beam → c ∈ A) →
  all_paths cost fuse gen network numC numC = Some Afin →
  pq_elements q = [] →
  ∃ path, passes cost fuse V gen remaining p numC beam q seq0 flops0
            = Ok (get1 path, get2 path) ∧ path ∈ Afin.
Proof.
  intros HV. revert p beam A q seq0 flops0.
  induction remaining as [|r IH];
    intros p beam A q seq0 flops0 Hsum Hrem HnumC Hne HA Hsub Hfin Hq;
    [lia|].
  destruct (all_paths_earlier network numC (S p) numC) as [A' HA'];
    [lia|by eauto|].
  pose proof HA' as Hcand. simpl in Hcand. rewrite HA in Hcand.
  simpl in Hcand.
  destruct (candidates_subset _ _ beam A A' Hsub Hcand) as (cs & Hcs & Hcs').
  assert (Forall (path_of_pass fuse gen network numC p) beam) as Hbeam.
  { apply Forall_forall. intros c Hc.
    pose proof (all_paths_path_of_pass network numC p A HA) as HAll.
    rewrite Forall_forall in HAll. by apply HAll, Hsub. }
  pose proof (pass_candidates cost fuse gen network numC p beam Hbeam Hne)
    as Hpass.
  rewrite Hcs in Hpass. destruct Hpass as [Hcsne _]; [lia|].
  rewrite passes_unfold, loop_paths_cands, Hcs. cbn [offered mbind result_bind].
  pose proof (foldl_offer_kept_cheapest V cs [] q (kept_cheapest_empty V q Hq))
    as Hkept. simpl in Hkept.
  apply kept_cheapest_elements in Hkept as [Hel Hnonempty].
  specialize (Hnonempty HV Hcsne).
  set (q1 := foldl (offer V) q cs) in *.
  case_bool_decide as Hlast.
  - destruct (pop_to_one_spec (pq_size q1) q1) as (m & Hm & Hin & _);
      [done..|].
    destruct (pq_top_singleton _ m Hm) as [-> Hnil].
    assert (r = 0) as -> by lia. simpl.
    exists m. split; [done|].
    assert (all_paths cost fuse gen network numC (S p) = Some Afin) as Hp.
    { rewrite <- Hfin. f_equal. lia. }
    rewrite HA' in Hp. simplify_eq. by apply Hcs', Hel.
  - destruct (drain_spec (pq_size q1) q1 []) as (l & q2 & -> & Hl & Hq2);
      [done|]. cbn [mbind result_bind app].
    apply IH with A'; try done; try lia.
    + intros ->. apply Permutation_nil_l in Hl. done.
    + intros c Hc. apply Hcs', Hel. by rewrite <- Hl.
Qed.

(** A run wide enough to keep every candidate ends on a cheapest path
    of the search without a bound. *)
Lemma passes_wide (W : nat) (network : gmap N TensorConn)
    (numC remaining p : nat) (beam A Afin : list ContrPath) (q : pq)
    (seq0 : list ContrTriple) (flops0 : Q) :
  1 ≤ W → remaining + p = numC → 1 ≤ remaining →
  numC + 1 ≤ N.to_nat (getNumTensors network) →
  beam ≠ [] →
  all_paths cost fuse gen network numC p = Some A → beam ≡ₚ A →
  all_paths cost fuse gen network numC numC = Some Afin →
  wide_enough cost fuse gen W network numC = true →
  pq_elements q = [] →
  ∃ path : @ContrPath TensorConn,
    passes cost fuse W gen remaining p numC beam q seq0 flops0
      = Ok (get1 path, get2 path) ∧
    Forall (λ c, (get2 path <= get2 c)%Q) Afin.
Proof.
  intros HW. revert p beam A q seq0 flops0.
  induction remaining as [|r IH];
    intros p beam A q seq0 flops0 Hsum Hrem HnumC Hne HA Hperm Hfin Hwide Hq;
    [lia|].
  destruct (all_paths_earlier network numC (S p) numC) as [A' HA'];
    [lia|by eauto|].
  assert (length A' ≤ W) as Hlen.
  { unfold wide_enough in Hwide. rewrite forallb_forall in Hwide.
    specialize (Hwide p). rewrite HA' in Hwide.
    apply Nat.leb_le, Hwide, in_seq. lia. }
  pose proof HA' as Hcand. simpl in Hcand. rewrite HA in Hcand.
  simpl in Hcand.
  pose proof (candidates_perm (bool_decide (p = numC - 1)) (gen p)
                beam A Hperm) as Hsame.
  rewrite Hcand in Hsame.
  destruct (candidates cost fuse _ (gen p) beam) as [cs|] eqn:Hcs;
    [|done]. simpl in Hsame.
  assert (Forall (path_of_pass fuse gen network numC p) beam) as Hbeam.
  { rewrite Hperm. by apply all_paths_path_of_pass. }
  pose proof (pass_candidates cost fuse gen network numC p beam Hbeam Hne)
    as Hpass.
  rewrite Hcs in Hpass. destruct Hpass as [Hcsne _]; [lia|].
  rewrite passes_unfold, loop_paths_cands, Hcs. cbn [offered mbind result_bind].
  pose proof (foldl_offer_kept_cheapest W cs [] q (kept_cheapest_empty W q Hq))
    as Hkept. simpl in Hkept.
  apply kept_all in Hkept; [|by rewrite Hsame].
  set (q1 := foldl (offer W) q cs) in *.
  assert (pq_elements q1 ≠ []) as Hnonempty.
  { intros E. rewrite E in Hkept. apply Permutation_nil_l in Hkept. done. }
  case_bool_decide as Hlast.
  - destruct (pop_to_one_spec (pq_size q1) q1) as (m & Hm & Hin & Hmin);
      [done..|].
    destruct (pq_top_singleton _ m Hm) as [-> Hnil].
    assert (r = 0) as -> by lia. simpl.
    exists m. split; [done|].
    assert (all_paths cost fuse gen network numC (S p) = Some Afin) as Hp.
    { rewrite <- Hfin. f_equal. lia. }
    rewrite HA' in Hp. simplify_eq. by rewrite <- Hsame, <- Hkept.
  - destruct (drain_spec (pq_size q1) q1 []) as (l & q2 & -> & Hl & Hq2);
      [done|]. cbn [mbind result_bind app].
    apply IH with A'; try done; try lia.
    + intros ->. apply Permutation_nil_l in Hl. done.
    + by rewrite Hl, Hkept.
Qed.

(** C6 (amended). For a fixed network and id generator, when the beam
    width W is at least the number of candidate paths that the search
    generates in every pass if it drops none, the cost returned with
    width W is at most the cost returned with any beam width W' >= 1,
    width 1 included. *)
Theorem wide_beam_cost_le (network : gmap N TensorConn) (W W' : nat)
    (contr_seq contr_seq' : list ContrTriple) :
  let n := N.to_nat (getNumTensors network) in
  1 ≤ W → 1 ≤ W' → 2 ≤ n → (getNumTensors network < uint_modulus)%N →
  wide_enough cost fuse gen W network (n - 1) = true →
  ∃ s f s' f',
    determineContractionSequence cost fuse W gen network contr_seq
      = Ok (s, f) ∧
    determineContractionSequence cost fuse W' gen network contr_seq'
      = Ok (s', f') ∧
    (f <= f')%Q.
Proof.
  intros n HW HW' Hn Hrep Hwide.
  unfold determineContractionSequence.
  rewrite uint_pred_small by lia.
  repeat case_decide; try lia.
  replace (N.to_nat (getNumTensors network - 1)) with (n - 1) by lia.
  assert (is_Some (all_paths cost fuse gen network (n - 1) (n - 1)))
    as [Afin Hfin].
  { pose proof Hwide as Hw. unfold wide_enough in Hw.
    rewrite forallb_forall in Hw. specialize (Hw (n - 2)).
    replace (S (n - 2)) with (n - 1) in Hw by lia.
    destruct (all_paths cost fuse gen network (n - 1) (n - 1)); [done|].
    discriminate Hw. apply in_seq. lia. }
  destruct (passes_wide W network (n - 1) (n - 1) 0
              [mkContrPath network [] 0%Q] [mkContrPath network [] 0%Q]
              Afin pq_empty [] 0%Q) as (path & -> & Hmin);
    try done; try lia; [apply pq_elements_empty|].
  destruct (passes_within W' network (n - 1) (n - 1) 0
              [mkContrPath network [] 0%Q] [mkContrPath network [] 0%Q]
              Afin pq_empty [] 0%Q) as (path' & -> & Hin);
    try done; try lia; [apply pq_elements_empty|].
  exists (get1 path), (get2 path), (get1 path'), (get2 path').
  split_and!; [done|done|].
  rewrite Forall_forall in Hmin. by apply Hmin.
Qed.

End PlannerWidths.

(** ** Further properties of the planner *)

Section PlannerExtras.

Context {TensorConn : Type}.
Variable cost : TensorConn → TensorConn → Q.
Variable fuse : TensorConn → TensorConn → TensorConn.
Context {priority_queue : PriorityQueue (@ContrPath TensorConn) get2}.
Variable gen : nat → N.

(** *** A beam of width zero *)

Lemma offer_zero_width (q : pq) (c : ContrPath) :
  pq_elements q = [] → pq_elements (offer 0 q c) = [].
Proof.
  intros Hq. unfold offer. pose proof (pq_emplace_elements c q) as Hemp.
  rewrite Hq in Hemp. rewrite pq_size_elements.
  rewrite decide_True.
  2:{ apply Permutation_length in Hemp. simpl in Hemp. lia. }
  destruct (pq_top_pop (pq_emplace c q)) as (x & _ & Hpop & _).
  { intros E. rewrite E in Hemp. by apply Permutation_nil_cons in Hemp. }
  rewrite Hemp in Hpop. apply Permutation_length in Hpop. simpl in Hpop.
  by destruct (pq_elements (pq_pop (pq_emplace c q))).
Qed.

Lemma foldl_offer_zero_width (cs : list ContrPath) (q : pq) :
  pq_elements q = [] → pq_elements (foldl (offer 0) q cs) = [].
Proof.
  revert q. induction cs as [|c cs IH]; intros q Hq; [done|].
  simpl. by apply IH, offer_zero_width.
Qed.

Lemma passes_zero_width (r p numC : nat) (beam : list ContrPath) (q : pq)
    (seq0 : list ContrTriple) (flops0 : Q) :
  S r + p = numC → pq_elements q = [] →
  ∃ f, passes cost fuse 0 gen (S r) p numC beam q seq0 flops0 = Err f.
Proof.
  revert p beam q. induction r as [|r IH]; intros p beam q Hsum Hq;
    rewrite passes_unfold, loop_paths_cands;
    (destruct (candidates _ _ _ _ beam) as [cs|];
       cbn [offered mbind result_bind]; [|by eexists]);
    pose proof (foldl_offer_zero_width cs q Hq) as Hq';
    rewrite pq_size_elements, Hq'; cbn [length pop_to_one drain].
  - rewrite bool_decide_eq_true_2 by lia.
    rewrite pq_top_empty by done. by eexists.
  - rewrite bool_decide_eq_false_2 by lia. cbn [mbind result_bind].
    apply IH; [lia|done].
Qed.

(** X7. With the beam width set to 0 the planner gives no sequence for
    any network of two or more input factors: every candidate is evicted
    as soon as it is queued, and the run ends in a failure. *)
Theorem determineContractionSequence_zero_width
    (network : gmap N TensorConn) (contr_seq : list ContrTriple) :
  (2 ≤ getNumTensors network < uint_modulus)%N →
  ∃ f, determineContractionSequence cost fuse 0 gen network contr_seq
         = Err f.
Proof.
  intros Hn. unfold determineContractionSequence.
  rewrite uint_pred_small by lia. rewrite decide_False by lia.
  destruct (N.to_nat (getNumTensors network - 1)) as [|r] eqn:E; [lia|].
  apply passes_zero_width; [lia|apply pq_elements_empty].
Qed.

(** *** Carrying out the sequence returned *)

Variable W : nat.

Lemma candidates_elem_entries last id (inputPaths : list ContrPath) cs c :
  candidates cost fuse last id inputPaths = Some cs → c ∈ cs →
  ∃ parent x y, parent ∈ inputPaths ∧
                x ∈ map_to_list (get0 parent) ∧
                y ∈ map_to_list (get0 parent) ∧
                child cost fuse last id parent x y = Some c.
Proof.
  revert cs. induction inputPaths as [|parent rest IH]; intros cs Hcs Hc;
    simpl in Hcs.
  - simplify_eq. by apply not_elem_of_nil in Hc.
  - destruct (cands_i cost fuse last id parent _) as [cs1|] eqn:E1;
      [|done]. simpl in Hcs.
    destruct (candidates cost fuse last id rest) as [cs2|]; [|done].
    simpl in Hcs. simplify_eq.
    apply elem_of_app in Hc as [Hc|Hc].
    + destruct (cands_i_elem _ _ _ _ _ _ _ _ E1 Hc) as (x & y & ? & ? & ?).
      exists parent, x, y. split_and!; [by left|done..].
    + destruct (IH cs2) as (parent' & x & y & ? & ? & ? & ?); [done..|].
      exists parent', x, y. split_and!; [by right|done..].
Qed.

(** A property of paths that every candidate inherits from its parent
    holds of the path the passes end on. *)
Lemma passes_preserves (P : nat → ContrPath → Prop) (numC : nat)
    (remaining p : nat) (beam : list ContrPath) (q : pq)
    (seq0 s : list ContrTriple) (flops0 f : Q) :
  (∀ p parent x y c,
     P p parent → x ∈ map_to_list (get0 parent) →
     y ∈ map_to_list (get0 parent) →
     child cost fuse (bool_decide (p = numC - 1)) (gen p) parent x y
       = Some c →
     P (S p) c) →
  1 ≤ remaining → remaining + p = numC →
  Forall (P p) beam → pq_elements q = [] →
  passes cost fuse W gen remaining p numC beam q seq0 flops0 = Ok (s, f) →
  ∃ path, P numC path ∧ s = get1 path ∧ f = get2 path.
Proof.
  intros Hstep. revert p beam q.
  induction remaining as [|r IH]; intros p beam q Hrem Hsum Hbeam Hq Hok;
    [lia|].
  rewrite passes_unfold, loop_paths_cands in Hok.
  destruct (candidates _ _ _ _ beam) as [cs|] eqn:Hcs; [|done].
  cbn [offered mbind result_bind] in Hok.
  pose proof (foldl_offer_kept_cheapest W cs [] q (kept_cheapest_empty W q Hq))
    as Hkept. simpl in Hkept.
  apply kept_cheapest_elements in Hkept as [Hsub _].
  assert (Forall (P (S p)) cs) as Hcs'.
  { apply Forall_forall. intros c Hc.
    destruct (candidates_elem_entries _ _ _ _ _ Hcs Hc)
      as (parent & x & y & Hpar & Hx & Hy & Hch).
    rewrite Forall_forall in Hbeam.
    by apply (Hstep p parent x y c); [apply Hbeam|..]. }
  rewrite Forall_forall in Hcs'.
  set (q1 := foldl (offer W) q cs) in *.
  case_bool_decide as Hlast.
  - destruct (pq_elements q1) as [|e0 es] eqn:Eel.
    + rewrite pq_size_elements, Eel in Hok. simpl in Hok.
      by rewrite pq_top_empty in Hok.
    + destruct (pop_to_one_spec (pq_size q1) q1) as (m & Hm & Hin & _);
        [done|by rewrite Eel|].
      destruct (pq_top_singleton _ m Hm) as [Htop Hnil].
      rewrite Htop in Hok. assert (r = 0) as -> by lia.
      simpl in Hok. injection Hok as <- <-. exists m.
      split; [|done]. replace numC with (S p) by lia.
      apply Hcs', Hsub. by rewrite <- Eel.
  - destruct (drain_spec (pq_size q1) q1 []) as (l & q2 & Hd & Hl & Hq2);
      [done|]. rewrite Hd in Hok. cbn [mbind result_bind app] in Hok.
    apply (IH (S p) l q2); [lia|lia| |exact Hq2|exact Hok].
    apply Forall_forall. intros c Hc. apply Hcs', Hsub. by rewrite <- Hl.
Qed.

Lemma run_sequence_snoc (network net1 : gmap N TensorConn) (k : nat)
    (seq : list ContrTriple) (t : ContrTriple) (acc c : Q) :
  run_sequence cost fuse gen network k seq acc = Some (net1, c) →
  run_sequence cost fuse gen network k (seq ++ [t]) acc =
    run_sequence cost fuse gen net1 (k + length seq) [t] c.
Proof.
  revert network k acc.
  induction seq as [|t0 seq IH]; intros network k acc H.
  - simpl in H. simplify_eq. by rewrite Nat.add_0_r.
  - cbn [run_sequence app] in *.
    destruct (network !! left_id t0) as [tl|]; [|done].
    destruct (network !! right_id t0) as [tr|]; [|done].
    cbn [mbind option_bind] in *.
    destruct (mergeTensors fuse network _ _ _) as [n'|]; [|done].
    cbn [mbind option_bind] in *. rewrite (IH _ _ _ H).
    cbn [length]. by replace (S k + length seq) with (k + S (length seq))
      by lia.
Qed.

Lemma child_costed (network : gmap N TensorConn) (last : bool) (p : nat)
    (parent c : ContrPath) (x y : N * TensorConn) :
  costed cost fuse gen network p parent →
  x ∈ map_to_list (get0 parent) → y ∈ map_to_list (get0 parent) →
  child cost fuse last (gen p) parent x y = Some c →
  costed cost fuse gen network (S p) c.
Proof.
  intros [Hlen Hrun] Hx Hy Hc. destruct x as [i ti], y as [j tj].
  apply elem_of_map_to_list in Hx, Hy. unfold child in Hc.
  destruct (mergeTensors fuse (get0 parent) i j (gen p)) as [net'|] eqn:Hm;
    [|done].
  cbn [mbind option_bind] in Hc. simplify_eq. split; cbn [get0 get1 get2].
  - rewrite length_app. simpl. lia.
  - rewrite (run_sequence_snoc _ _ _ _ _ _ _ Hrun).
    cbn [run_sequence Nat.add].
    assert (∀ b : bool,
              left_id (if b then mkContrTriple 0 i j
                       else mkContrTriple (gen (length (get1 parent))) i j)
                = i ∧
              right_id (if b then mkContrTriple 0 i j
                        else mkContrTriple (gen (length (get1 parent))) i j)
                = j) as Hids by (by intros []).
    destruct (Hids last) as [-> ->]. rewrite Hx, Hy.
    cbn [mbind option_bind]. rewrite Hm. done.
Qed.

Lemma replays_output (network net' : gmap N TensorConn) (k : nat)
    (seq : list ContrTriple) :
  replays fuse gen network k seq net' → net' !! 0%N = network !! 0%N.
Proof.
  revert network k. induction seq as [|t seq IH]; intros network k H;
    simpl in H.
  - by subst.
  - destruct H as (net1 & Hm & Hr). rewrite (IH _ _ Hr).
    apply mergeTensors_Some in Hm
      as (ti & tj & _ & _ & _ & Hi & Hj & Hid & _ & ->).
    rewrite lookup_insert_ne by done. by rewrite !lookup_delete_ne.
Qed.

(** X8. For a network of n >= 1 input factors (n an [unsigned int]), a
    beam width of at least 1 and a generator whose first n-1 ids are new,
    the sequence returned contracts the network completely: carrying out
    its steps one by one, each product stored under the id generated for
    the step, succeeds and leaves exactly one input factor, with the
    output tensor 0 as it was. *)
Theorem determineContractionSequence_contracts_all
    (network : gmap N TensorConn) (contr_seq : list ContrTriple) :
  let n := N.to_nat (getNumTensors network) in
  1 ≤ W → 1 ≤ n → (getNumTensors network < uint_modulus)%N →
  fresh_ids gen network (n - 1) →
  ∃ seq flops network',
    determineContractionSequence cost fuse W gen network contr_seq
      = Ok (seq, flops) ∧
    replays fuse gen network 0 seq network' ∧
    getNumTensors network' = 1%N ∧
    network' !! 0%N = network !! 0%N.
Proof.
  intros n HW Hn Hrep Hfresh.
  destruct (decide (n = 1)) as [H1|H1].
  { exists [], 0%Q, network. split_and!; [|done|subst n; lia|done].
    apply determineContractionSequence_one_factor. subst n. lia. }
  pose proof (determineContractionSequence_spec cost fuse W gen network
                contr_seq HW) as Hspec.
  assert (N.to_nat (uint_pred (getNumTensors network)) = n - 1) as HnumC.
  { rewrite uint_pred_small by (subst n; lia). subst n. lia. }
  rewrite HnumC in Hspec.
  destruct (determineContractionSequence _ _ _ _ _ _) as [[s f]|[]].
  - destruct Hspec as [?|(path & Hpath & -> & ->)];
      [subst n; lia|lia|].
    destruct Hpath as (Hlen & Hreplay & _ & Hcount & _).
    exists (get1 path), (get2 path), (get0 path).
    split_and!; [done|done| |by eapply replays_output].
    fold n in Hcount. lia.
  - destruct Hspec. subst n. lia.
  - destruct Hspec; [subst n; lia|done].
Qed.

(** X9. For a network of n >= 1 input factors (n an [unsigned int]), a
    beam width of at least 1 and a generator whose first n-1 ids are new,
    the flop count returned is the sum of
    the costs of the steps of the sequence returned, each step charged
    what [getTensorContractionCost] gives for its two tensors as they
    stand when the step is carried out. *)
Theorem determineContractionSequence_flops
    (network : gmap N TensorConn) (contr_seq : list ContrTriple) :
  let n := N.to_nat (getNumTensors network) in
  1 ≤ W → 1 ≤ n → (getNumTensors network < uint_modulus)%N →
  fresh_ids gen network (n - 1) →
  ∃ seq flops network',
    determineContractionSequence cost fuse W gen network contr_seq
      = Ok (seq, flops) ∧
    run_sequence cost fuse gen network 0 seq 0 = Some (network', flops).
Proof.
  intros n HW Hn Hrep Hfresh.
  destruct (decide (n = 1)) as [H1|H1].
  { exists [], 0%Q, network. split; [|done].
    apply determineContractionSequence_one_factor. subst n. lia. }
  pose proof (determineContractionSequence_spec cost fuse W gen network
                contr_seq HW) as Hspec.
  assert (N.to_nat (uint_pred (getNumTensors network)) = n - 1) as HnumC.
  { rewrite uint_pred_small by (subst n; lia). subst n. lia. }
  rewrite HnumC in Hspec.
  destruct (determineContractionSequence _ _ _ _ _ _) as [[s f]|[]] eqn:E.
  - clear Hspec. unfold determineContractionSequence in E.
    rewrite decide_False in E by lia. rewrite HnumC in E.
    destruct (passes_preserves (costed cost fuse gen network) (n - 1) (n - 1) 0
                [mkContrPath network [] 0%Q] pq_empty [] s 0%Q f)
      as (path & [_ Hrun] & -> & ->);
      [|lia|lia| |apply pq_elements_empty|exact E|by eauto].
    + intros p parent x y c. apply child_costed.
    + constructor; [done|constructor].
  - destruct Hspec. subst n. lia.
  - destruct Hspec; [subst n; lia|done].
Qed.

End PlannerExtras.

(** * Subspaces and their uniform splitting *)

Section SpacesProperties.

Variable dim_modulus : N.
Variable UNREG_SUBSPACE : N.

(** ** Arithmetic that does not wrap *)

Lemma dim_wrap_small (z : Z) :
  (0 ≤ z < Z.of_N dim_modulus)%Z → dim_wrap dim_modulus z = Z.to_N z.
Proof. intros Hz. unfold dim_wrap. by rewrite Z.mod_small. Qed.

Lemma dim_add_small (a b : N) :
  (a + b < dim_modulus)%N → dim_add dim_modulus a b = (a + b)%N.
Proof. intros H. unfold dim_add. rewrite dim_wrap_small; lia. Qed.

Lemma dim_sub_small (a b : N) :
  (b ≤ a < dim_modulus)%N → dim_sub dim_modulus a b = (a - b)%N.
Proof. intros H. unfold dim_sub. rewrite dim_wrap_small; lia. Qed.

Lemma dim_mul_small (a b : N) :
  (a * b < dim_modulus)%N → dim_mul dim_modulus a b = (a * b)%N.
Proof. intros H. unfold dim_mul. rewrite dim_wrap_small; lia. Qed.

Lemma getDimension_small (s : Subspace) :
  bounds_in_space dim_modulus s →
  getDimension dim_modulus s = (upper_bound_ s - lower_bound_ s + 1)%N.
Proof.
  intros (Hle & Hup & Hdim). unfold getDimension.
  rewrite dim_sub_small by lia. rewrite dim_add_small; lia.
Qed.

(** ** The loop of [splitUniform] *)

Lemma splitUniform_loop_spec (vs : VectorSpace) (name : string)
    (q x up : N) (r : nat) (i lower : N) (pre : list Subspace) :
  (1 ≤ q)%N → (up < VectorSpace_getDimension vs)%N →
  (VectorSpace_getDimension vs < dim_modulus)%N →
  (lower + N.of_nat r * q + (x - N.min i x) = up + 1)%N →
  (x ≤ i + N.of_nat r)%N → (i + N.of_nat r < dim_modulus)%N →
  length pre = N.to_nat i →
  ∃ segs,
    splitUniform_loop dim_modulus UNREG_SUBSPACE vs name q x r i lower
      ((Some <$> pre) ++ replicate r None)
      = Ok ((up + 1)%N, Some <$> (pre ++ segs)) ∧
    length segs = r ∧
    consecutive lower segs up ∧
    ∀ k sg, segs !! k = Some sg →
      vector_space_ sg = vs ∧ id_ sg = UNREG_SUBSPACE ∧
      subspace_name_ sg = name +:+ pretty (i + N.of_nat k)%N ∧
      (upper_bound_ sg + 1 =
         lower_bound_ sg + q +
           (if decide (i + N.of_nat k < x)%N then 1 else 0))%N.
Proof.
  intros Hq Hup Hdim. revert i lower pre.
  induction r as [|r IH]; intros i lower pre Hrest Hx Hi Hlen.
  - exists []. cbn [splitUniform_loop replicate]. rewrite !app_nil_r.
    assert (lower = up + 1)%N as -> by lia.
    split_and!; [done|done|done|]. intros k sg Hk. done.
  - rewrite Nat2N.inj_succ, N.mul_succ_l in Hrest.
    cbn [splitUniform_loop].
    set (bump := (if decide (i < x)%N then 1 else 0)%N).
    assert (lower + q + bump ≤ up + 1)%N as Hfit
      by (subst bump; case_decide; lia).
    assert ((if decide (i < x)%N
             then dim_add dim_modulus
                    (dim_sub dim_modulus (dim_add dim_modulus lower q) 1) 1
             else dim_sub dim_modulus (dim_add dim_modulus lower q) 1)
            = lower + q + bump - 1)%N as ->.
    { subst bump. rewrite (dim_add_small lower q) by (case_decide; lia).
      rewrite (dim_sub_small (lower + q) 1) by (case_decide; lia).
      case_decide; [rewrite dim_add_small by lia|]; lia. }
    unfold new_Subspace. rewrite decide_True by lia.
    cbn [mbind result_bind].
    rewrite (dim_add_small i 1) by lia.
    rewrite (dim_add_small _ 1) by lia.
    set (sg := mkSubspace vs lower (lower + q + bump - 1)
                 (name +:+ pretty i) UNREG_SUBSPACE).
    assert (<[N.to_nat i := Some sg]>
              ((Some <$> pre) ++ replicate (S r) None)
            = (Some <$> (pre ++ [sg])) ++ replicate r None) as ->.
    { rewrite insert_app_r_alt by (rewrite length_fmap; lia).
      rewrite length_fmap, Hlen, Nat.sub_diag. cbn [replicate].
      rewrite fmap_app, <- app_assoc. done. }
    destruct (IH (i + 1)%N (lower + q + bump - 1 + 1)%N (pre ++ [sg]))
      as (segs & Hrun & Hl & Hcons & Hall).
    + subst bump. case_decide; lia.
    + lia.
    + lia.
    + rewrite length_app, Hlen. simpl. lia.
    + exists (sg :: segs). rewrite Hrun, <- app_assoc.
      split_and!; [done|by simpl; rewrite Hl| |].
      * cbn [consecutive]. subst sg. cbn [lower_bound_ upper_bound_].
        split_and!; [done|lia|done].
      * intros [|k] sg' Hk.
        -- simpl in Hk. simplify_eq.
           cbn [vector_space_ id_ subspace_name_ lower_bound_ upper_bound_].
           rewrite N.add_0_r. split_and!; [done..|]. fold bump. lia.
        -- simpl in Hk. destruct (Hall k sg' Hk) as (? & ? & Hname & Hsz).
           replace (i + N.of_nat (S k))%N with (i + 1 + N.of_nat k)%N
             by lia. done.
Qed.

(** The whole of [splitUniform] when the segments asked for are at most
    as many as the basis vectors. *)
Lemma splitUniform_spec (s : Subspace) (num_segments : N) :
  bounds_in_space dim_modulus s →
  (1 ≤ num_segments ≤ getDimension dim_modulus s)%N →
  ∃ segs,
    splitUniform dim_modulus UNREG_SUBSPACE s num_segments
      = Ok (Some <$> segs) ∧
    length segs = N.to_nat num_segments ∧
    consecutive (lower_bound_ s) segs (upper_bound_ s) ∧
    ∀ k sg, segs !! k = Some sg →
      vector_space_ sg = vector_space_ s ∧ id_ sg = UNREG_SUBSPACE ∧
      subspace_name_ sg
        = ("_" +:+ getName s +:+ "_") +:+ pretty (N.of_nat k) ∧
      (upper_bound_ sg + 1 =
         lower_bound_ sg + getDimension dim_modulus s `div` num_segments +
           (if decide (N.of_nat k
                         < getDimension dim_modulus s `mod` num_segments)%N
            then 1 else 0))%N.
Proof.
  intros Hb Hn. pose proof Hb as (Hle & Hup & Hdim).
  pose proof (getDimension_small s Hb) as He.
  unfold splitUniform.
  set (e := getDimension dim_modulus s) in *. clearbody e.
  pose proof (N.div_mod e num_segments ltac:(lia)) as Hdm.
  pose proof (N.mod_lt e num_segments ltac:(lia)) as Hmod.
  assert (0 < e `div` num_segments)%N as Hq
    by (apply N.div_str_pos; lia).
  set (q := (e `div` num_segments)%N) in *.
  set (x := (e `mod` num_segments)%N) in *. clearbody q x.
  rewrite decide_True by lia. rewrite decide_True by lia.
  rewrite dim_mul_small by lia. rewrite dim_sub_small by lia.
  replace (e - num_segments * q)%N with x by lia.
  destruct (splitUniform_loop_spec (vector_space_ s)
              ("_" +:+ getName s +:+ "_") q x (upper_bound_ s)
              (N.to_nat num_segments) 0 (lower_bound_ s) [])
    as (segs & Hrun & Hl & Hcons & Hall); try done; try lia.
  simpl in Hrun. rewrite Hrun. cbn [mbind result_bind].
  rewrite dim_add_small by lia. rewrite decide_True by done.
  exists segs. split_and!; [done..|]. intros k sg Hk.
  destruct (Hall k sg Hk) as (? & ? & ? & ?). by rewrite !N.add_0_l in *.
Qed.

Lemma consecutive_within (lower last : N) (segs : list Subspace)
    (sg : Subspace) :
  consecutive lower segs last → sg ∈ segs →
  (lower ≤ lower_bound_ sg ∧ lower_bound_ sg ≤ upper_bound_ sg ∧
   upper_bound_ sg ≤ last)%N.
Proof.
  revert lower. induction segs as [|s0 segs IH]; intros lower Hc Hin.
  - by apply not_elem_of_nil in Hin.
  - destruct Hc as (Hlo & Hle & Hc).
    assert (upper_bound_ s0 + 1 ≤ last + 1)%N as Hup.
    { clear IH Hin. revert Hc. generalize (upper_bound_ s0 + 1)%N.
      clear. induction segs as [|s1 segs IH]; intros lo Hc; simpl in Hc.
      - lia.
      - destruct Hc as (Hlo & Hle & Hc). specialize (IH _ Hc). lia. }
    apply elem_of_cons in Hin as [->|Hin]; [lia|].
    specialize (IH _ Hc Hin). lia.
Qed.

(** X10. The constructor of a subspace of a space whose dimension is a
    value of [DimExtent] accepts exactly the bounds with
    [lower <= upper < dimension]; the subspace made has the bounds and the
    name given and the id [UNREG_SUBSPACE], and its extent
    [upper - lower + 1] is computed without wrapping: it lies between 1
    and the dimension of the space. *)
Theorem new_Subspace_extent (vector_space : VectorSpace)
    (lower_bound upper_bound : N) (subspace_name : string) :
  (VectorSpace_getDimension vector_space < dim_modulus)%N →
  match new_Subspace UNREG_SUBSPACE vector_space lower_bound upper_bound
          subspace_name with
  | Ok s =>
      (lower_bound ≤ upper_bound
         < VectorSpace_getDimension vector_space)%N ∧
      getDimension dim_modulus s = (upper_bound - lower_bound + 1)%N ∧
      (1 ≤ getDimension dim_modulus s
         ≤ VectorSpace_getDimension vector_space)%N ∧
      getLowerBound s = lower_bound ∧ getUpperBound s = upper_bound ∧
      getName s = subspace_name ∧ id_ s = UNREG_SUBSPACE
  | Err f =>
      f = AssertionFailed ∧
      ¬ (lower_bound ≤ upper_bound
           < VectorSpace_getDimension vector_space)%N
  end.
Proof.
  intros Hdim. unfold new_Subspace. case_decide as Hb.
  - assert (getDimension dim_modulus
              (mkSubspace vector_space lower_bound upper_bound
                 subspace_name UNREG_SUBSPACE)
            = (upper_bound - lower_bound + 1)%N) as E.
    { apply getDimension_small. split_and!; simpl; [lia|lia|done]. }
    rewrite E. split_and!; [lia|lia|done|lia|lia|done..].
  - split; [done|]. intros H. apply Hb. lia.
Qed.


(** X12. For [1 <= num_segments <= extent] the segments returned tile the
    subspace: the first begins at its lower bound, each next one begins
    right after the one before, none is empty, and the last ends at its
    upper bound. Each is a subspace of the same space with bounds the
    constructor accepts and the id [UNREG_SUBSPACE]. *)
Theorem splitUniform_tiles (s : Subspace) (num_segments : N) :
  bounds_in_space dim_modulus s →
  (1 ≤ num_segments ≤ getDimension dim_modulus s)%N →
  ∃ segs,
    splitUniform dim_modulus UNREG_SUBSPACE s num_segments
      = Ok (Some <$> segs) ∧
    length segs = N.to_nat num_segments ∧
    consecutive (lower_bound_ s) segs (upper_bound_ s) ∧
    Forall (λ sg, vector_space_ sg = vector_space_ s ∧
                  id_ sg = UNREG_SUBSPACE ∧
                  bounds_in_space dim_modulus sg) segs.
Proof.
  intros Hb Hn.
  destruct (splitUniform_spec s num_segments Hb Hn)
    as (segs & Hrun & Hl & Hcons & Hall).
  exists segs. split_and!; [done..|].
  apply Forall_forall. intros sg Hsg.
  pose proof (consecutive_within _ _ _ _ Hcons Hsg) as Hw.
  apply list_elem_of_lookup in Hsg as [k Hk].
  destruct (Hall k sg Hk) as (Hvs & Hid & _).
  destruct Hb as (_ & Hup & Hdim).
  split_and!; [done|done|]. unfold bounds_in_space. rewrite Hvs.
  split_and!; [lia|lia|done].
Qed.

(** X13. For [1 <= num_segments <= extent] the split is as even as it can
    be: with [q] and [r] the quotient and the remainder of the extent by
    [num_segments], the first [r] segments have [q + 1] basis vectors and
    the others [q]. *)
Theorem splitUniform_balanced (s : Subspace) (num_segments : N) :
  bounds_in_space dim_modulus s →
  (1 ≤ num_segments ≤ getDimension dim_modulus s)%N →
  ∃ segs,
    splitUniform dim_modulus UNREG_SUBSPACE s num_segments
      = Ok (Some <$> segs) ∧
    ∀ k sg, segs !! k = Some sg →
      getDimension dim_modulus sg =
        (getDimension dim_modulus s `div` num_segments +
         (if decide (N.of_nat k
                       < getDimension dim_modulus s `mod` num_segments)%N
          then 1 else 0))%N.
Proof.
  intros Hb Hn.
  destruct (splitUniform_spec s num_segments Hb Hn)
    as (segs & Hrun & Hl & Hcons & Hall).
  exists segs. split; [done|]. intros k sg Hk.
  destruct (Hall k sg Hk) as (Hvs & _ & _ & Hsz).
  pose proof (consecutive_within _ _ _ _ Hcons
                (list_elem_of_lookup_2 _ _ _ Hk)) as Hw.
  rewrite (getDimension_small sg).
  - lia.
  - destruct Hb as (_ & Hup & Hdim). unfold bounds_in_space. rewrite Hvs.
    split_and!; [lia|lia|done].
Qed.

(** X14. For [1 <= num_segments <= extent] the segment at position [k] is
    named after the subspace, ["_" + name + "_" + k] with [k] in decimal,
    and no two segments have the same name. *)
Theorem splitUniform_names (s : Subspace) (num_segments : N) :
  bounds_in_space dim_modulus s →
  (1 ≤ num_segments ≤ getDimension dim_modulus s)%N →
  ∃ segs,
    splitUniform dim_modulus UNREG_SUBSPACE s num_segments
      = Ok (Some <$> segs) ∧
    (∀ k sg, segs !! k = Some sg →
       getName sg = ("_" +:+ getName s +:+ "_") +:+ pretty (N.of_nat k)) ∧
    NoDup (getName <$> segs).
Proof.
  intros Hb Hn.
  destruct (splitUniform_spec s num_segments Hb Hn)
    as (segs & Hrun & Hl & Hcons & Hall).
  exists segs. split_and!; [done| |].
  - intros k sg Hk. by destruct (Hall k sg Hk) as (_ & _ & ? & _).
  - apply NoDup_alt. intros i j x Hi Hj.
    rewrite list_lookup_fmap in Hi, Hj.
    destruct (segs !! i) as [si|] eqn:Ei; [|done].
    destruct (segs !! j) as [sj|] eqn:Ej; [|done].
    simpl in Hi, Hj. simplify_eq.
    destruct (Hall i si Ei) as (_ & _ & Hni & _).
    destruct (Hall j sj Ej) as (_ & _ & Hnj & _).
    unfold getName in Hi. rewrite Hni, Hnj in Hi.
    apply (inj (String.app _)) in Hi. apply (inj pretty) in Hi. lia.
Qed.

End SpacesProperties.

(** ** The planner on concrete networks *)

Example plan_one_factor : plan 4 one_factor = Ok ([], 0%Q).
Proof. vm_compute. reflexivity. Qed.

Example plan_two_factors :
  plan 4 two_factors = Ok ([mkContrTriple 0 2 1], 2%Q).
Proof. vm_compute. reflexivity. Qed.

Example plan_four_factors_exhaustive :
  plan 18 four_factors =
    Ok ([mkContrTriple 100 4 1; mkContrTriple 101 100 3;
         mkContrTriple 0 2 101], 216%Q).
Proof. vm_compute. reflexivity. Qed.

Lemma determineContractionSequence_sequence_witness :
  1 ≤ 2 ∧ 2 ≤ N.to_nat (getNumTensors four_factors) ∧
  (getNumTensors four_factors < uint_modulus)%N ∧
  fresh_ids ids_from_100 four_factors
    (N.to_nat (getNumTensors four_factors) - 1) ∧
  ∃ seq flops,
    plan 2 four_factors = Ok (seq, flops) ∧
    length seq = N.to_nat (getNumTensors four_factors) - 1 ∧
    result_id <$> last seq = Some 0%N ∧
    (∀ k t, seq !! k = Some t → result_id t ≠ 0%N →
            k < N.to_nat (getNumTensors four_factors) - 1 ∧
            result_id t = ids_from_100 k) ∧
    steps_present fuse_legs ids_from_100 four_factors 0 seq.
Proof.
  assert (1 ≤ 2) as H1 by lia.
  assert (2 ≤ N.to_nat (getNumTensors four_factors)) as H2
    by (vm_compute; lia).
  assert (getNumTensors four_factors < uint_modulus)%N as H3
    by (vm_compute; reflexivity).
  assert (fresh_ids ids_from_100 four_factors
            (N.to_nat (getNumTensors four_factors) - 1)) as H4
    by (split; apply (bool_decide_unpack _); vm_compute; exact I).
  split_and!; [exact H1|exact H2|exact H3|exact H4|].
  exact (determineContractionSequence_sequence contraction_cost fuse_legs 2
           ids_from_100 four_factors [] H1 H2 H3 H4).
Defined.

Lemma determineContractionSequence_top_nonempty_witness :
  1 ≤ 1 ∧ (2 ≤ getNumTensors four_factors)%N ∧
  plan 1 four_factors ≠ Err EmptyQueueAccess.
Proof.
  assert (1 ≤ 1) as H1 by lia.
  assert (2 ≤ getNumTensors four_factors)%N as H2
    by (vm_compute; intros H; discriminate H).
  split_and!; [exact H1|exact H2|].
  exact (determineContractionSequence_top_nonempty contraction_cost fuse_legs
           1 ids_from_100 four_factors [] H1 H2).
Defined.


Lemma determineContractionSequence_no_factor_witness :
  getNumTensors no_factor = 0%N ∧ plan 1 no_factor = Err EmptyQueueAccess.
Proof.
  assert (getNumTensors no_factor = 0%N) as H1 by (vm_compute; reflexivity).
  split; [exact H1|].
  exact (determineContractionSequence_no_factor contraction_cost fuse_legs
           1 ids_from_100 no_factor [] H1).
Defined.

(** C6, as claimed, fails: on [four_factors] the planner returns the cost
    282 with beam width 1 and the cost 351 with beam width 2. *)
Lemma wider_beam_costs_more :
  (∃ s1, plan 1 four_factors = Ok (s1, 282%Q)) ∧
  (∃ s2, plan 2 four_factors = Ok (s2, 351%Q)) ∧
  ¬ (351 <= 282)%Q.
Proof.
  split_and!.
  - eexists. vm_compute. reflexivity.
  - eexists. vm_compute. reflexivity.
  - intros H. vm_compute in H. by apply H.
Qed.

Lemma wide_beam_cost_le_witness :
  1 ≤ 18 ∧ 1 ≤ 1 ∧ 2 ≤ N.to_nat (getNumTensors four_factors) ∧
  (getNumTensors four_factors < uint_modulus)%N ∧
  wide_enough contraction_cost fuse_legs ids_from_100 18 four_factors
    (N.to_nat (getNumTensors four_factors) - 1) = true ∧
  ∃ s f s' f',
    plan 18 four_factors = Ok (s, f) ∧ plan 1 four_factors = Ok (s', f') ∧
    (f <= f')%Q.
Proof.
  assert (1 ≤ 18) as H1 by lia.
  assert (1 ≤ 1) as H2 by lia.
  assert (2 ≤ N.to_nat (getNumTensors four_factors)) as H3
    by (vm_compute; lia).
  assert (getNumTensors four_factors < uint_modulus)%N as H4
    by (vm_compute; reflexivity).
  assert (wide_enough contraction_cost fuse_legs ids_from_100 18 four_factors
            (N.to_nat (getNumTensors four_factors) - 1) = true) as H5
    by (vm_compute; reflexivity).
  split_and!; [exact H1|exact H2|exact H3|exact H4|exact H5|].
  exact (wide_beam_cost_le contraction_cost fuse_legs ids_from_100
           four_factors 18 1 [] [] H1 H2 H3 H4 H5).
Defined.

(** ** Further properties at concrete inputs *)

Lemma built_graph_dependency_le_witness :
  built_by_addOperation (graph_after write_then_read) ∧
  (dependencyExists 1 0 (graph_after write_then_read)).1 = true ∧
  0 ≤ 1.
Proof.
  assert (built_by_addOperation (graph_after write_then_read)) as H1.
  { unfold graph_after.
    destruct (addOperations write_then_read empty_graph) as [[vs g]|] eqn:E.
    - eapply addOperations_built; [apply built_empty|exact E].
    - apply built_empty. }
  assert ((dependencyExists 1 0 (graph_after write_then_read)).1 = true)
    as H2 by (vm_compute; reflexivity).
  split_and!; [exact H1|exact H2|].
  exact (built_graph_dependency_le (graph_after write_then_read) 1 0 H1 H2).
Defined.

Lemma determineContractionSequence_zero_width_witness :
  (2 ≤ getNumTensors four_factors < uint_modulus)%N ∧
  ∃ f, plan 0 four_factors = Err f.
Proof.
  assert (2 ≤ getNumTensors four_factors < uint_modulus)%N as H
    by (vm_compute; split; [intros E; discriminate E|reflexivity]).
  split; [exact H|].
  exact (determineContractionSequence_zero_width contraction_cost fuse_legs
           ids_from_100 four_factors [] H).
Defined.

Lemma determineContractionSequence_contracts_all_witness :
  1 ≤ 2 ∧ 1 ≤ N.to_nat (getNumTensors four_factors) ∧
  (getNumTensors four_factors < uint_modulus)%N ∧
  fresh_ids ids_from_100 four_factors
    (N.to_nat (getNumTensors four_factors) - 1) ∧
  ∃ seq flops network',
    plan 2 four_factors = Ok (seq, flops) ∧
    replays fuse_legs ids_from_100 four_factors 0 seq network' ∧
    getNumTensors network' = 1%N ∧
    network' !! 0%N = four_factors !! 0%N.
Proof.
  assert (1 ≤ 2) as H1 by lia.
  assert (1 ≤ N.to_nat (getNumTensors four_factors)) as H2
    by (vm_compute; lia).
  assert (getNumTensors four_factors < uint_modulus)%N as H3
    by (vm_compute; reflexivity).
  assert (fresh_ids ids_from_100 four_factors
            (N.to_nat (getNumTensors four_factors) - 1)) as H4
    by (split; apply (bool_decide_unpack _); vm_compute; exact I).
  split_and!; [exact H1|exact H2|exact H3|exact H4|].
  exact (determineContractionSequence_contracts_all contraction_cost
           fuse_legs ids_from_100 2 four_factors [] H1 H2 H3 H4).
Defined.

Lemma determineContractionSequence_flops_witness :
  1 ≤ 2 ∧ 1 ≤ N.to_nat (getNumTensors four_factors) ∧
  (getNumTensors four_factors < uint_modulus)%N ∧
  fresh_ids ids_from_100 four_factors
    (N.to_nat (getNumTensors four_factors) - 1) ∧
  ∃ seq flops network',
    plan 2 four_factors = Ok (seq, flops) ∧
    run_sequence contraction_cost fuse_legs ids_from_100 four_factors 0 seq 0
      = Some (network', flops).
Proof.
  assert (1 ≤ 2) as H1 by lia.
  assert (1 ≤ N.to_nat (getNumTensors four_factors)) as H2
    by (vm_compute; lia).
  assert (getNumTensors four_factors < uint_modulus)%N as H3
    by (vm_compute; reflexivity).
  assert (fresh_ids ids_from_100 four_factors
            (N.to_nat (getNumTensors four_factors) - 1)) as H4
    by (split; apply (bool_decide_unpack _); vm_compute; exact I).
  split_and!; [exact H1|exact H2|exact H3|exact H4|].
  exact (determineContractionSequence_flops contraction_cost fuse_legs
           ids_from_100 2 four_factors [] H1 H2 H3 H4).
Defined.

(** The subspace [2, 8] of a space of dimension 10, split in three:
    [2, 4], [5, 6], [7, 8]. *)
Example split_2_8_of_10_segments :
  match split_2_8_of_10 with
  | Ok l =>
      map (λ o : option Subspace,
             (λ s, (lower_bound_ s, upper_bound_ s, subspace_name_ s)) <$> o)
        l
  | Err _ => []
  end
  = [Some (2, 4, "_s_0"); Some (5, 6, "_s_1"); Some (7, 8, "_s_2")]%N.
Proof. vm_compute. reflexivity. Qed.

Lemma new_Subspace_extent_witness :
  (VectorSpace_getDimension space_10 < dim_modulus_64)%N ∧
  match new_Subspace unreg_subspace_64 space_10 2 8 "s" with
  | Ok s =>
      (2 ≤ 8 < VectorSpace_getDimension space_10)%N ∧
      getDimension dim_modulus_64 s = (8 - 2 + 1)%N ∧
      (1 ≤ getDimension dim_modulus_64 s
         ≤ VectorSpace_getDimension space_10)%N ∧
      getLowerBound s = 2%N ∧ getUpperBound s = 8%N ∧
      getName s = "s" ∧ id_ s = unreg_subspace_64
  | Err f =>
      f = AssertionFailed ∧
      ¬ (2 ≤ 8 < VectorSpace_getDimension space_10)%N
  end.
Proof.
  assert (VectorSpace_getDimension space_10 < dim_modulus_64)%N as H
    by (vm_compute; reflexivity).
  split; [exact H|].
  exact (new_Subspace_extent dim_modulus_64 unreg_subspace_64 space_10 2 8
           "s" H).
Defined.


Lemma splitUniform_tiles_witness :
  bounds_in_space dim_modulus_64 subspace_2_8 ∧
  (1 ≤ 3 ≤ getDimension dim_modulus_64 subspace_2_8)%N ∧
  ∃ segs,
    split_2_8_of_10 = Ok (Some <$> segs) ∧
    length segs = N.to_nat 3 ∧
    consecutive 2 segs 8 ∧
    Forall (λ sg, vector_space_ sg = space_10 ∧
                  id_ sg = unreg_subspace_64 ∧
                  bounds_in_space dim_modulus_64 sg) segs.
Proof.
  assert (bounds_in_space dim_modulus_64 subspace_2_8) as H1
    by (split_and!; vm_compute; try reflexivity; intros E; discriminate E).
  assert (1 ≤ 3 ≤ getDimension dim_modulus_64 subspace_2_8)%N as H2
    by (split; vm_compute; intros E; discriminate E).
  split; [exact H1|]. split; [exact H2|].
  exact (splitUniform_tiles dim_modulus_64 unreg_subspace_64 subspace_2_8 3
           H1 H2).
Defined.

Lemma splitUniform_balanced_witness :
  bounds_in_space dim_modulus_64 subspace_2_8 ∧
  (1 ≤ 3 ≤ getDimension dim_modulus_64 subspace_2_8)%N ∧
  ∃ segs,
    split_2_8_of_10 = Ok (Some <$> segs) ∧
    ∀ k sg, segs !! k = Some sg →
      getDimension dim_modulus_64 sg =
        (getDimension dim_modulus_64 subspace_2_8 `div` 3 +
         (if decide (N.of_nat k
                       < getDimension dim_modulus_64 subspace_2_8 `mod` 3)%N
          then 1 else 0))%N.
Proof.
  assert (bounds_in_space dim_modulus_64 subspace_2_8) as H1
    by (split_and!; vm_compute; try reflexivity; intros E; discriminate E).
  assert (1 ≤ 3 ≤ getDimension dim_modulus_64 subspace_2_8)%N as H2
    by (split; vm_compute; intros E; discriminate E).
  split; [exact H1|]. split; [exact H2|].
  exact (splitUniform_balanced dim_modulus_64 unreg_subspace_64 subspace_2_8
           3 H1 H2).
Defined.

Lemma splitUniform_names_witness :
  bounds_in_space dim_modulus_64 subspace_2_8 ∧
  (1 ≤ 3 ≤ getDimension dim_modulus_64 subspace_2_8)%N ∧
  ∃ segs,
    split_2_8_of_10 = Ok (Some <$> segs) ∧
    (∀ k sg, segs !! k = Some sg →
       getName sg = ("_" +:+ getName subspace_2_8 +:+ "_")
                      +:+ pretty (N.of_nat k)) ∧
    NoDup (getName <$> segs).
Proof.
  assert (bounds_in_space dim_modulus_64 subspace_2_8) as H1
    by (split_and!; vm_compute; try reflexivity; intros E; discriminate E).
  assert (1 ≤ 3 ≤ getDimension dim_modulus_64 subspace_2_8)%N as H2
    by (split; vm_compute; intros E; discriminate E).
  split; [exact H1|]. split; [exact H2|].
  exact (splitUniform_names dim_modulus_64 unreg_subspace_64 subspace_2_8 3
           H1 H2).
Defined.
